(** * MultiSet: a shallow embedding of [src/src/multiset.cpp]

    The development follows the C++ sources declaration by declaration:
    the hash and equality functors of the key type, the counting
    container, the algebraic operators and the text codec built on
    [std::istream] / [std::ostream]. *)

From Stdlib Require Import ZArith List Bool String Ascii Lia Permutation.
Import ListNotations.

Local Open Scope Z_scope.
Local Open Scope list_scope.

Set Implicit Arguments.

(** ** Machine integers *)

(** [int] is a 32-bit two's-complement integer.  Signed overflow is undefined
    behaviour in C++; the model wraps around, as the usual targets do, and
    the theorems that depend on an increment carry a range hypothesis. *)
Definition INT_MAX : Z := 2147483647.
Definition INT_MIN : Z := -2147483648.

Definition int_wrap (z : Z) : Z := (z + 2147483648) mod 4294967296 - 2147483648.

Definition in_int (z : Z) : Prop := INT_MIN <= z <= INT_MAX.

(** [std::size_t] is a 64-bit unsigned integer. *)
Definition size_t_wrap (z : Z) : Z := z mod 18446744073709551616.

(** ** [std::unordered_map<Key, int, Hash, Pred>]

    The container is an association list: the order of the list is the
    iteration order of the map, the keys are pairwise inequivalent under
    [Pred].  [key_eq k stored] is the call [Pred{}(k, stored)] made during a
    lookup; the hash only selects the bucket to search, so with a hash
    consistent with [Pred] a lookup is a search for an equivalent key.  The
    standard leaves the iteration order unspecified; here a new key goes to
    the end, and the statements proved below are about lookups, equality and
    the hash, none of which depends on the order. *)
Section UnorderedMap.
Context {K : Type}.
Variable key_eq : K -> K -> bool.

(** [m.find(k)]: the entry the returned iterator refers to, [None] for
    [m.end()]. *)
Fixpoint find (k : K) (m : list (K * Z)) : option (K * Z) :=
  match m with
  | [] => None
  | (k', v) :: m' => if key_eq k k' then Some (k', v) else find k m'
  end.

(** [m.find(k)->second], [None] when the iterator is [m.end()]. *)
Definition lookup (k : K) (m : list (K * Z)) : option Z :=
  option_map snd (find k m).

(** The invariant of the container: no key is equivalent to a later one. *)
Fixpoint unique (m : list (K * Z)) : bool :=
  match m with
  | [] => true
  | (k, _) :: m' => negb (existsb (fun x => key_eq k (fst x)) m') && unique m'
  end.

(** [m[k] = v]: the stored key object is kept when the key is present. *)
Fixpoint assign (k : K) (v : Z) (m : list (K * Z)) : list (K * Z) :=
  match m with
  | [] => [(k, v)]
  | (k', v') :: m' =>
      if key_eq k k' then (k', v) :: m' else (k', v') :: assign k v m'
  end.

(** [f(it->second)] written back through the iterator [it = m.find(k)]. *)
Fixpoint modify (k : K) (f : Z -> Z) (m : list (K * Z)) : list (K * Z) :=
  match m with
  | [] => []
  | (k', v) :: m' =>
      if key_eq k k' then (k', f v) :: m' else (k', v) :: modify k f m'
  end.

(** [m.erase(it)] for [it = m.find(k)]. *)
Fixpoint erase (k : K) (m : list (K * Z)) : list (K * Z) :=
  match m with
  | [] => []
  | (k', v) :: m' => if key_eq k k' then m' else (k', v) :: erase k m'
  end.

(** [m[k]++]: a missing key is value-initialised to 0 first. *)
Definition subscript_incr (k : K) (m : list (K * Z)) : list (K * Z) :=
  match find k m with
  | Some _ => modify k (fun v => int_wrap (v + 1)) m
  | None => m ++ [(k, int_wrap (0 + 1))]
  end.

(** [a == b] on unordered maps.  By the container requirements
    ([unord.req]) the two are equal when [a.size() == b.size()] and every
    equivalent-key group of [a] has, in [b.equal_range(key)], a group that is
    a permutation of it under [std::is_permutation], which compares the
    elements with [operator==] of the value type [std::pair<const Key, int>]:
    [operator==] of [Key] (here [val_key_eq]) on the keys and of [int] on the
    counts.  [Pred] only locates the group.  With unique keys a group is one
    entry. *)
Variable val_key_eq : K -> K -> bool.

Definition pair_eq (x y : K * Z) : bool :=
  val_key_eq (fst x) (fst y) && (snd x =? snd y).

Definition unordered_map_eq (a b : list (K * Z)) : bool :=
  Nat.eqb (List.length a) (List.length b) &&
  forallb (fun x => match find (fst x) b with
                    | Some y => pair_eq x y
                    | None => false
                    end) a.
End UnorderedMap.

(** ** The key type and the container *)

(** A [std::shared_ptr<MultiSet>] is the address it holds together with the
    object found there; the object is not mutated while the pointer is a key
    of a map. *)
Definition ptr := positive.
Bind Scope positive_scope with ptr.

(** [MultiSet::Element = std::variant<std::string, std::shared_ptr<MultiSet>>];
    the class [MultiSet] has the single data member [elements_], an
    [unordered_map<Element, int, VariantHash, VariantEqual>]. *)
#[warnings="-register-all"]
Inductive Element : Type :=
| Label (s : string)
| Nested (p : ptr) (pointee : list (Element * Z)).

Definition MultiSet : Type := list (Element * Z).

(** [operator==] of [std::variant]: same alternative and equal values, where
    two [std::shared_ptr] are equal when they hold the same address. *)
Definition variant_eq (v w : Element) : bool :=
  match v, w with
  | Label l, Label r => String.eqb l r
  | Nested p _, Nested q _ => Pos.eqb p q
  | _, _ => false
  end.

(** [VariantEqual::operator()]: the [shared_ptr] case is [*left == *right],
    which is [MultiSet::operator==], which is [elements_ == other.elements_]. *)
Fixpoint VariantEqual (lhs rhs : Element) {struct lhs} : bool :=
  match lhs, rhs with
  | Label l, Label r => String.eqb l r
  | Nested _ l, Nested _ r => unordered_map_eq VariantEqual variant_eq l r
  | _, _ => false
  end.

(** [MultiSet::operator==] and [operator!=]. *)
Definition operator_eq (this other : MultiSet) : bool :=
  unordered_map_eq VariantEqual variant_eq this other.

Definition operator_ne (this other : MultiSet) : bool :=
  negb (operator_eq this other).

(** ** Hash functors *)

Section Hash.
(** [std::hash<std::string>] and [std::hash<int>] are implementation
    defined; they are parameters of the model. *)
Variable hash_string : string -> Z.
Variable hash_int : Z -> Z.

(** One round of the loop of [MultiSetHash::operator()]:
    [hash_value ^= element_hash ^ (count_hash << 1)]. *)
Definition hash_step (element_hash : Element -> Z)
           (hash_value : Z) (elem : Element * Z) : Z :=
  Z.lxor hash_value
         (Z.lxor (element_hash (fst elem))
                 (size_t_wrap (Z.shiftl (hash_int (snd elem)) 1))).

(** [VariantHash::operator()]; the [shared_ptr] case runs
    [MultiSetHash] on the pointee. *)
Fixpoint VariantHash (v : Element) : Z :=
  match v with
  | Label value => hash_string value
  | Nested _ ms => fold_left (hash_step VariantHash) ms 0
  end.

(** [MultiSetHash::operator()]. *)
Definition MultiSetHash (ms : MultiSet) : Z :=
  fold_left (hash_step VariantHash) ms 0.
End Hash.

(** ** Methods of [MultiSet] *)

(** What a call raised, if anything. *)
Inductive raised : Type :=
| no_exception
| runtime_error (what : string).

(** [GetElements().at(e)] as an option: the count stored for [e]. *)
Definition count_of (element : Element) (m : MultiSet) : option Z :=
  lookup VariantEqual element m.

(** The count with a missing key read as 0. *)
Definition count0 (element : Element) (m : MultiSet) : Z :=
  match count_of element m with Some c => c | None => 0 end.

(** [MultiSet::AddElement]: [++it->second] on a key that is present,
    [elements_[element] = 1] otherwise.  The result is [*this] after the call. *)
Definition AddElement (element : Element) (this : MultiSet) : MultiSet :=
  match find VariantEqual element this with
  | Some _ => modify VariantEqual element (fun c => int_wrap (c + 1)) this
  | None => assign VariantEqual element 1 this
  end.

(** [MultiSet::RemoveElement]: the throw comes before any write;
    [--(it->second) == 0] erases the entry.  The result is [*this] after the
    call and the exception that left it, if any. *)
Definition RemoveElement (element : Element) (this : MultiSet)
  : MultiSet * raised :=
  match find VariantEqual element this with
  | None => (this, runtime_error "Element does not exist in the multiset")
  | Some (_, c) =>
      let this1 := modify VariantEqual element (fun c => int_wrap (c - 1)) this in
      if int_wrap (c - 1) =? 0
      then (erase VariantEqual element this1, no_exception)
      else (this1, no_exception)
  end.

(** [MultiSet::IsContains], [IsEmpty] and [Size]; [Size] adds the counts
    into a [size_t]. *)
Definition IsContains (element : Element) (this : MultiSet) : bool :=
  match find VariantEqual element this with Some _ => true | None => false end.

Definition IsEmpty (this : MultiSet) : bool :=
  match this with [] => true | _ :: _ => false end.

Definition Size (this : MultiSet) : Z :=
  fold_left (fun res element => size_t_wrap (res + snd element)) this 0.

(** [MultiSet::BuildBoolean]: [booleanSet.elements_[element.first] = 1] for
    every entry. *)
Definition BuildBoolean (this : MultiSet) : MultiSet :=
  fold_left (fun booleanSet element => assign VariantEqual (fst element) 1 booleanSet)
            this [].

(** [MultiSet::SetElements] is [elements_ = elements]; [GetElements] returns
    [elements_]. *)
Definition SetElements (elements : MultiSet) (this : MultiSet) : MultiSet :=
  elements.

Definition GetElements (this : MultiSet) : MultiSet := this.

(** *** Union *)

(** One round of the loop of [operator+] and [operator+=], over the entries
    of [other]; [result] starts as a copy of [elements_]. *)
Definition plus_step (result : MultiSet) (el : Element * Z) : MultiSet :=
  let element := fst el in
  let count_other := snd el in
  match find VariantEqual element result with
  | Some (_, c) => assign VariantEqual element (Z.max c count_other) result
  | None => assign VariantEqual element count_other result
  end.

Definition operator_plus (this other : MultiSet) : MultiSet :=
  fold_left plus_step other this.

Definition operator_plus_assign (this other : MultiSet) : MultiSet :=
  fold_left plus_step other this.

(** *** Intersection *)

(** One round of the loop of [operator*] and [operator*=], over the entries
    of [*this]; [result] starts empty. *)
Definition times_step (other : MultiSet) (result : MultiSet) (elem : Element * Z)
  : MultiSet :=
  let element := fst elem in
  let count_this := snd elem in
  match find VariantEqual element other with
  | Some (_, count_other) =>
      assign VariantEqual element (Z.min count_this count_other) result
  | None => result
  end.

Definition operator_times (this other : MultiSet) : MultiSet :=
  fold_left (times_step other) this [].

Definition operator_times_assign (this other : MultiSet) : MultiSet :=
  fold_left (times_step other) this [].

(** *** Difference *)

(** First loop of [operator-], over the entries of [*this]. *)
Definition minus_step1 (other : MultiSet) (result : MultiSet) (el : Element * Z)
  : MultiSet :=
  let thisElement := fst el in
  let thisCount := snd el in
  match find VariantEqual thisElement other with
  | Some (_, otherCount) =>
      if thisCount >? otherCount
      then assign VariantEqual thisElement (int_wrap (thisCount - otherCount)) result
      else result
  | None => assign VariantEqual thisElement thisCount result
  end.

(** Second loop, over the entries of [other]. *)
Definition minus_step2 (this : MultiSet) (result : MultiSet) (el : Element * Z)
  : MultiSet :=
  let otherElement := fst el in
  match find VariantEqual otherElement this with
  | None => assign VariantEqual otherElement (snd el) result
  | Some _ => result
  end.

Definition operator_minus (this other : MultiSet) : MultiSet :=
  fold_left (minus_step2 this) other (fold_left (minus_step1 other) this []).

Definition operator_minus_assign (this other : MultiSet) : MultiSet :=
  fold_left (minus_step2 this) other (fold_left (minus_step1 other) this []).

(** ** [std::istream]

    A stream is the text not yet consumed and its state bits ([badbit] is
    never raised by an in-memory stream).  The operations follow
    [istream.formatted] and [istream.unformatted]: each builds a
    [sentry] first. *)
Record istream : Type := mk_istream {
  buf : string;
  eofbit : bool;
  failbit : bool
}.

Definition istringstream (text : string) : istream :=
  {| buf := text; eofbit := false; failbit := false |}.

Definition good (is_ : istream) : bool := negb (eofbit is_) && negb (failbit is_).

(** [is.fail()], also what [!is] tests. *)
Definition fail (is_ : istream) : bool := failbit is_.

Definition setstate_failbit (is_ : istream) : istream :=
  {| buf := buf is_; eofbit := eofbit is_; failbit := true |}.

Definition setstate_eofbit (is_ : istream) : istream :=
  {| buf := buf is_; eofbit := true; failbit := failbit is_ |}.

Definition with_buf (is_ : istream) (s : string) : istream :=
  {| buf := s; eofbit := eofbit is_; failbit := failbit is_ |}.

(** [std::isspace] in the classic locale: space and the controls 9 to 13. *)
Definition isspace (c : ascii) : bool :=
  let n := nat_of_ascii c in
  Nat.eqb n 32 || (Nat.leb 9 n && Nat.leb n 13).

Fixpoint skip_space (s : string) : string :=
  match s with
  | EmptyString => EmptyString
  | String c s' => if isspace c then skip_space s' else s
  end.

(** [istream::sentry(is, noskipws)]: a stream that is not good gets
    [failbit]; otherwise white space is skipped unless [noskipws], and
    running out of input while skipping raises [failbit | eofbit]. *)
Definition sentry (noskipws : bool) (is_ : istream) : istream * bool :=
  if good is_ then
    if noskipws then (is_, true)
    else match skip_space (buf is_) with
         | EmptyString =>
             (setstate_failbit (setstate_eofbit (with_buf is_ EmptyString)), false)
         | rest => (with_buf is_ rest, true)
         end
  else (setstate_failbit is_, false).

(** [is >> ch] for a [char]: [ch] keeps its value when nothing is extracted. *)
Definition extract_char (is_ : istream) (ch : ascii) : istream * ascii :=
  let (is1, ok) := sentry false is_ in
  if ok then
    match buf is1 with
    | String c rest => (with_buf is1 rest, c)
    | EmptyString => (setstate_failbit (setstate_eofbit is1), ch)
    end
  else (is1, ch).

(** [is >> std::ws]: reaching the end of input raises [eofbit] only. *)
Definition ws (is_ : istream) : istream :=
  let (is1, ok) := sentry true is_ in
  if ok then
    match skip_space (buf is1) with
    | EmptyString => setstate_eofbit (with_buf is1 EmptyString)
    | rest => with_buf is1 rest
    end
  else is1.

(** [is.peek()]: [None] is [traits::eof()]. *)
Definition peek (is_ : istream) : istream * option ascii :=
  let (is1, ok) := sentry true is_ in
  if ok then
    match buf is1 with
    | String c _ => (is1, Some c)
    | EmptyString => (setstate_eofbit is1, None)
    end
  else (is1, None).

(** [is.get(c)]. *)
Definition get (is_ : istream) (c : ascii) : istream * ascii :=
  let (is1, ok) := sentry true is_ in
  if ok then
    match buf is1 with
    | String c' rest => (with_buf is1 rest, c')
    | EmptyString => (setstate_failbit (setstate_eofbit is1), c)
    end
  else (is1, c).

(** [is.peek() == c]. *)
Definition peek_is (p : option ascii) (c : ascii) : bool :=
  match p with
  | Some c' => Ascii.eqb c' c
  | None => false
  end.

(** ** Input operator *)

(** The condition of the label loop,
    [is.peek() != ',' && is.peek() != '}' && is.peek() != eof]. *)
Definition label_cond (is_ : istream) : istream * bool :=
  let (is1, p1) := peek is_ in
  if peek_is p1 "," then (is1, false) else
  let (is2, p2) := peek is1 in
  if peek_is p2 "}" then (is2, false) else
  let (is3, p3) := peek is2 in
  match p3 with
  | None => (is3, false)
  | Some _ => (is3, true)
  end.

(** The label loop.  [fuel] bounds the number of rounds; [None] means the
    bound was too small.  [uninit] is the indeterminate value of the
    uninitialised local [char c]. *)
Fixpoint label_loop (fuel : nat) (uninit : ascii) (is_ : istream)
         (str_element : string) : option (istream * string) :=
  match fuel with
  | O => None
  | S fuel' =>
      let (is1, continue) := label_cond is_ in
      if continue then
        let (is2, c) := get is1 uninit in
        label_loop fuel' uninit is2 (str_element ++ String c EmptyString)
      else Some (is1, str_element)
  end.

(** [operator>>(std::istream&, MultiSet&)] and its [while (true)] loop.

    [heap] is the next address [std::make_shared] hands out.  The result is
    the stream, the allocator and the target multiset after the call; [None]
    means that [fuel] rounds and calls were not enough.  [uninit] is the
    indeterminate value of the uninitialised local [char ch]. *)
Fixpoint operator_in (fuel : nat) (uninit : ascii) (is_ : istream) (heap : ptr)
         (multiset : MultiSet) {struct fuel}
  : option (istream * ptr * MultiSet) :=
  match fuel with
  | O => None
  | S fuel' =>
      let (is1, ch) := extract_char is_ uninit in
      if negb (Ascii.eqb ch "{")
      then Some (setstate_failbit is1, heap, multiset)
      else in_loop fuel' uninit is1 heap ch [] multiset
  end

with in_loop (fuel : nat) (uninit : ascii) (is_ : istream) (heap : ptr)
         (ch : ascii) (elements : MultiSet) (multiset : MultiSet) {struct fuel}
  : option (istream * ptr * MultiSet) :=
  match fuel with
  | O => None
  | S fuel' =>
      let (is1, p) := peek is_ in
      let parsed :=
        if peek_is p "{" then
          match operator_in fuel' uninit is1 (Pos.succ heap) [] with
          | Some (is2, heap2, nested_multiset) =>
              Some (is2, heap2, Nested heap nested_multiset)
          | None => None
          end
        else
          match label_loop fuel' uninit (ws is1) EmptyString with
          | Some (is2, str_element) => Some (is2, heap, Label str_element)
          | None => None
          end in
      match parsed with
      | None => None
      | Some (is2, heap2, element) =>
          let elements1 := subscript_incr VariantEqual element elements in
          let (is3, ch1) := extract_char (ws is2) ch in
          if Ascii.eqb ch1 "}"
          then Some (is3, heap2, SetElements elements1 multiset)
          else if negb (Ascii.eqb ch1 ",")
               then Some (setstate_failbit is3, heap2, multiset)
               else in_loop fuel' uninit is3 heap2 ch1 elements1 multiset
      end
  end.

(** ** Output operators

    A [std::ostream] is the text written to it so far. *)
Definition ostream := string.

(** One round of the inner [for] loop of the writer; the state is the stream
    and the flag [first]. *)
Definition out_occurrence (out_elem : ostream -> Element -> ostream)
           (elem : Element * Z) (st : ostream * bool) : ostream * bool :=
  let (os, first) := st in
  let os1 := if first then os else (os ++ ", ")%string in
  (out_elem os1 (fst elem), false).

(** Both loops of the writer: every entry, [elem.second] times. *)
Definition out_entries (out_elem : ostream -> Element -> ostream)
           (m : MultiSet) (st : ostream * bool) : ostream * bool :=
  fold_left (fun st elem =>
               Nat.iter (Z.to_nat (snd elem)) (out_occurrence out_elem elem) st)
            m st.

(** [operator<<(std::ostream&, const std::variant<...>&)]. *)
Fixpoint out_variant (os : ostream) (v : Element) : ostream :=
  match v with
  | Label value => (os ++ value)%string
  | Nested _ multiset =>
      (fst (out_entries out_variant multiset (os ++ "{", true)) ++ "}")%string
  end.

(** [operator<<(std::ostream&, const MultiSet&)]. *)
Definition operator_out (os : ostream) (multiset : MultiSet) : ostream :=
  (fst (out_entries out_variant (GetElements multiset) (os ++ "{", true)) ++ "}")%string.

(** ** Predicates used in the statements *)

Definition keys (m : MultiSet) : list Element := map fst m.

(** The keys of a map are pairwise inequivalent under [VariantEqual]. *)
Definition unique_keys (m : MultiSet) : bool := unique VariantEqual m.

(** Every stored count is at least 1 (and is an [int]). *)
Definition positive_count (c : Z) : Prop := 1 <= c <= INT_MAX.

Definition positive_counts (m : MultiSet) : Prop :=
  Forall (fun x => positive_count (snd x)) m.

(** [VariantEqual] behaves as an equivalence relation on the elements of
    [L], which is what [std::unordered_map] requires of its [Pred]. *)
Record key_equivalence (L : list Element) : Prop := {
  ke_refl : forall a, In a L -> VariantEqual a a = true;
  ke_sym : forall a b, In a L -> In b L ->
                       VariantEqual a b = true -> VariantEqual b a = true;
  ke_trans : forall a b c, In a L -> In b L -> In c L ->
                           VariantEqual a b = true -> VariantEqual b c = true ->
                           VariantEqual a c = true
}.

(** ** Vocabulary of the statements about hashing, equality and the codec *)

(** Every key of a map lies in the domain [D]. *)
Definition keys_in {K : Type} (D : K -> Prop) (m : list (K * Z)) : Prop :=
  forall x, In x m -> D (fst x).

(** A decision procedure for [key_equivalence] on a concrete list. *)
Definition key_equivalenceb (L : list Element) : bool :=
  forallb (fun a => VariantEqual a a) L &&
  forallb (fun a => forallb (fun b =>
     implb (VariantEqual a b) (VariantEqual b a)) L) L &&
  forallb (fun a => forallb (fun b => forallb (fun c =>
     implb (VariantEqual a b && VariantEqual b c) (VariantEqual a c)) L) L) L.

(** The number of nodes of an element, counting nested multisets. *)
Fixpoint esize (e : Element) : nat :=
  match e with
  | Label _ => 1
  | Nested _ m => S (list_sum (map (fun x => esize (fst x)) m))
  end.

(** [sound h e]: every pointer in [e] holds an address of the heap [h] and
    the object found there (one address, one object), and every map in [e]
    has unique keys. *)
Inductive sound (h : ptr -> MultiSet) : Element -> Prop :=
| sound_Label s : sound h (Label s)
| sound_Nested p m :
    h p = m -> unique_keys m = true ->
    (forall x, In x m -> sound h (fst x)) ->
    sound h (Nested p m).

(** What [VariantEqual] computes on sound elements: equal labels, or
    pointees that hold the same entries, nested keys being the same
    pointers. *)
Definition same_value (a b : Element) : Prop :=
  match a, b with
  | Label s, Label t => s = t
  | Nested _ m, Nested _ m' => Permutation m m'
  | _, _ => False
  end.

(** Structural equality of elements and of maps: the same labels, nested
    multisets compared by content at every depth, entries in any order and
    pointers wherever they point. *)
Inductive content_equiv : Element -> Element -> Prop :=
| content_Label s : content_equiv (Label s) (Label s)
| content_Nested p q m m' :
    entries_equiv m m' -> content_equiv (Nested p m) (Nested q m')
with entries_equiv : MultiSet -> MultiSet -> Prop :=
| entries_nil : entries_equiv [] []
| entries_cons k k' c m m1 m2 :
    content_equiv k k' -> entries_equiv m (m1 ++ m2) ->
    entries_equiv ((k, c) :: m) (m1 ++ (k', c) :: m2).

Scheme content_equiv_mind := Minimality for content_equiv Sort Prop
  with entries_equiv_mind := Minimality for entries_equiv Sort Prop.

(** The equality that section 4.2 of the specification describes, stated
    next to [operator_eq] to compare the two: the maps hold the same
    (element, count) pairs under the element equality [VariantEqual] of the
    identity layer. *)
Definition pairs_included (a b : MultiSet) : bool :=
  forallb (fun x => match find VariantEqual (fst x) b with
                    | Some y => snd x =? snd y
                    | None => false
                    end) a.

Definition same_pairs (a b : MultiSet) : bool :=
  pairs_included a b && pairs_included b a.

(** The number of characters a stream has left. *)
Definition len (s : istream) : nat := String.length (buf s).

(** A count that leaves room for as many increments as there are characters
    left to read. *)
Definition within (n : nat) (c : Z) : Prop := 1 <= c /\ c + Z.of_nat n <= INT_MAX.

(** A label the grammar can carry: no [','] and no ['}'] in it, and neither
    white space nor ['{'] in front. *)
Definition plain_char (c : ascii) : bool :=
  negb (Ascii.eqb c ",") && negb (Ascii.eqb c "}").

Fixpoint all_plain (s : string) : bool :=
  match s with
  | EmptyString => true
  | String c s' => plain_char c && all_plain s'
  end.

Definition plain_label (s : string) : bool :=
  all_plain s &&
  match s with
  | EmptyString => true
  | String c _ => negb (isspace c) && negb (Ascii.eqb c "{")
  end.

Definition plain_labels_only (m : MultiSet) : bool :=
  forallb (fun x => match fst x with
                    | Label s => plain_label s
                    | Nested _ _ => false
                    end) m.

(** The labels of a multiset of labels, each as often as its count, in
    the order the writer emits them. *)
Definition label_text (e : Element) : string :=
  match e with
  | Label s => s
  | Nested _ _ => EmptyString
  end.

Definition occurrences (m : MultiSet) : list string :=
  flat_map (fun x => repeat (label_text (fst x)) (Z.to_nat (snd x))) m.

(** The labels joined by comma and space; [first] tells whether the next
    label is the first one written. *)
Fixpoint sep_text (first : bool) (l : list string) : string :=
  match l with
  | [] => EmptyString
  | s :: l' => ((if first then EmptyString else ", ") ++ s ++ sep_text false l')%string
  end.

(** What the reader's loop does with the labels it parses. *)
Definition count_labels (l : list string) (elements : MultiSet) : MultiSet :=
  fold_left (fun acc s => subscript_incr VariantEqual (Label s) acc) l elements.

(** Writing a list of labels one after the other. *)
Definition emit (l : list string) (st : ostream * bool) : ostream * bool :=
  fold_left (fun st s => out_occurrence out_variant (Label s, 0) st) l st.

Definition is_nil {A : Type} (l : list A) : bool :=
  match l with [] => true | _ :: _ => false end.

(** ** Vocabulary of the statements about sizes, labels and texts *)

(** The sum of the stored counts. *)
Definition total (m : MultiSet) : Z := fold_right (fun x acc => snd x + acc) 0 m.

(** An element that is a label, and a map whose keys are all labels. *)
Definition is_label (e : Element) : Prop :=
  match e with
  | Label _ => True
  | Nested _ _ => False
  end.

Definition labels_only (m : MultiSet) : bool :=
  forallb (fun x => match fst x with
                    | Label _ => true
                    | Nested _ _ => false
                    end) m.


(** A step of the writer that only appends: run on a stream that already
    holds [os], it writes behind [os] what it writes on a fresh stream. *)
Definition appends (g : ostream * bool -> ostream * bool) : Prop :=
  forall os first,
    g (os, first) = ((os ++ fst (g (EmptyString, first)))%string,
                     snd (g (EmptyString, first))).

(** * Facts about the association-list model of [std::unordered_map] *)

Section UnorderedMapFacts.
Context {K : Type}.
Variable key_eq : K -> K -> bool.
Variable D : K -> Prop.
Hypothesis key_eq_refl : forall a, D a -> key_eq a a = true.
Hypothesis key_eq_sym :
  forall a b, D a -> D b -> key_eq a b = true -> key_eq b a = true.
Hypothesis key_eq_trans :
  forall a b c, D a -> D b -> D c ->
                key_eq a b = true -> key_eq b c = true -> key_eq a c = true.

Lemma keys_in_cons x m : keys_in D (x :: m) <-> D (fst x) /\ keys_in D m.
Proof.
  unfold keys_in; split.
  - intros H; split; [apply H; now left | intros y Hy; apply H; now right].
  - intros [H1 H2] y [<- | Hy]; auto.
Qed.

Lemma keys_in_app m1 m2 : keys_in D (m1 ++ m2) <-> keys_in D m1 /\ keys_in D m2.
Proof.
  unfold keys_in; split.
  - intros H; split; intros y Hy; apply H, in_or_app; auto.
  - intros [H1 H2] y Hy; apply in_app_or in Hy as [Hy | Hy]; auto.
Qed.

Lemma key_eq_sym_eq a b : D a -> D b -> key_eq a b = key_eq b a.
Proof.
  intros Ha Hb.
  destruct (key_eq a b) eqn:E1, (key_eq b a) eqn:E2; auto.
  - apply key_eq_sym in E1; auto; congruence.
  - apply key_eq_sym in E2; auto; congruence.
Qed.

Lemma key_eq_congr_l a b c :
  D a -> D b -> D c -> key_eq a b = true -> key_eq a c = key_eq b c.
Proof.
  intros Ha Hb Hc Hab.
  destruct (key_eq a c) eqn:E1, (key_eq b c) eqn:E2; auto.
  - assert (key_eq b a = true) by (apply key_eq_sym; auto).
    assert (key_eq b c = true) by (apply key_eq_trans with a; auto).
    congruence.
  - assert (key_eq a c = true) by (apply key_eq_trans with b; auto).
    congruence.
Qed.

Lemma key_eq_congr_r a b c :
  D a -> D b -> D c -> key_eq b c = true -> key_eq a b = key_eq a c.
Proof.
  intros Ha Hb Hc Hbc.
  rewrite (key_eq_sym_eq Ha Hb), (key_eq_sym_eq Ha Hc).
  now apply key_eq_congr_l.
Qed.

Lemma lookup_cons k k' v m :
  lookup key_eq k ((k', v) :: m) =
  if key_eq k k' then Some v else lookup key_eq k m.
Proof. unfold lookup; simpl; now destruct (key_eq k k'). Qed.

Lemma lookup_app k m1 m2 :
  lookup key_eq k (m1 ++ m2) =
  match lookup key_eq k m1 with
  | Some v => Some v
  | None => lookup key_eq k m2
  end.
Proof.
  induction m1 as [| [k' v] m1 IH]; simpl; auto.
  rewrite !lookup_cons. now destruct (key_eq k k').
Qed.

Lemma lookup_None k m :
  lookup key_eq k m = None <-> forall x, In x m -> key_eq k (fst x) = false.
Proof.
  induction m as [| [k' v] m IH]; simpl.
  - split; [intros _ x [] | reflexivity].
  - rewrite lookup_cons. destruct (key_eq k k') eqn:E; split.
    + discriminate.
    + intros H. specialize (H (k', v) (or_introl eq_refl)). simpl in H. congruence.
    + intros H x [<- | Hx]; auto. now apply IH.
    + intros H. apply IH. intros x Hx. apply H. now right.
Qed.

Lemma lookup_Some_in k v m :
  lookup key_eq k m = Some v ->
  exists k', In (k', v) m /\ key_eq k k' = true.
Proof.
  induction m as [| [k' v'] m IH]; simpl; [discriminate |].
  rewrite lookup_cons. destruct (key_eq k k') eqn:E.
  - intros [= <-]. exists k'. auto.
  - intros H. destruct (IH H) as (k2 & Hin & Hk). exists k2. auto.
Qed.

Lemma find_lookup k m :
  find key_eq k m = None <-> lookup key_eq k m = None.
Proof. unfold lookup. destruct (find key_eq k m); simpl; split; congruence. Qed.

Lemma lookup_congr e e' m :
  D e -> D e' -> keys_in D m -> key_eq e e' = true ->
  lookup key_eq e m = lookup key_eq e' m.
Proof.
  intros He He' Hm Hee'.
  induction m as [| [k v] m IH]; auto.
  apply keys_in_cons in Hm as [Hk Hm]. simpl in Hk.
  rewrite !lookup_cons, (key_eq_congr_l He He' Hk Hee'), IH; auto.
Qed.

Lemma lookup_assign e k v m :
  D e -> D k -> keys_in D m ->
  lookup key_eq e (assign key_eq k v m) =
  if key_eq e k then Some v else lookup key_eq e m.
Proof.
  intros He Hk Hm.
  induction m as [| [k' v'] m IH]; simpl.
  - now rewrite lookup_cons.
  - apply keys_in_cons in Hm as [Hk' Hm]. simpl in Hk'.
    destruct (key_eq k k') eqn:Ekk'; rewrite !lookup_cons.
    + rewrite (key_eq_congr_r He Hk Hk' Ekk').
      now destruct (key_eq e k').
    + rewrite IH by assumption.
      destruct (key_eq e k') eqn:Eek', (key_eq e k) eqn:Eek; auto.
      rewrite (key_eq_sym_eq He Hk) in Eek.
      assert (key_eq k k' = true) by (apply key_eq_trans with e; auto).
      congruence.
Qed.

Lemma lookup_modify e k f m :
  D e -> D k -> keys_in D m ->
  lookup key_eq e (modify key_eq k f m) =
  if key_eq e k then option_map f (lookup key_eq e m) else lookup key_eq e m.
Proof.
  intros He Hk Hm.
  induction m as [| [k' v'] m IH]; simpl.
  - now destruct (key_eq e k).
  - apply keys_in_cons in Hm as [Hk' Hm]. simpl in Hk'.
    destruct (key_eq k k') eqn:Ekk'; rewrite !lookup_cons.
    + rewrite (key_eq_congr_r He Hk Hk' Ekk').
      now destruct (key_eq e k').
    + rewrite IH by assumption.
      destruct (key_eq e k') eqn:Eek', (key_eq e k) eqn:Eek; auto.
      rewrite (key_eq_sym_eq He Hk) in Eek.
      assert (key_eq k k' = true) by (apply key_eq_trans with e; auto).
      congruence.
Qed.

Lemma unique_cons k v m :
  unique key_eq ((k, v) :: m) = true <->
  lookup key_eq k m = None /\ unique key_eq m = true.
Proof.
  simpl. rewrite andb_true_iff, negb_true_iff, lookup_None.
  split; intros [H1 H2]; split; auto.
  - intros x Hx. destruct (key_eq k (fst x)) eqn:E; auto.
    assert (existsb (fun x => key_eq k (fst x)) m = true)
      by (apply existsb_exists; eauto).
    congruence.
  - destruct (existsb _ m) eqn:E; auto.
    apply existsb_exists in E as (x & Hx & Hkx).
    rewrite H1 in Hkx; auto.
Qed.

Lemma unique_app m1 m2 :
  unique key_eq (m1 ++ m2) = true <->
  unique key_eq m1 = true /\ unique key_eq m2 = true /\
  forall x, In x m1 -> lookup key_eq (fst x) m2 = None.
Proof.
  induction m1 as [| [k v] m1 IH].
  - simpl. split; [intros H; repeat split; auto; intros x [] | tauto].
  - change (((k, v) :: m1) ++ m2) with ((k, v) :: (m1 ++ m2)).
    rewrite !unique_cons, IH, lookup_app. split.
    + intros (H1 & H2 & H3 & H4).
      destruct (lookup key_eq k m1) eqn:E; [discriminate |].
      repeat split; auto. intros x [<- | Hx]; auto.
    + intros ((H1 & H2) & H3 & H4). rewrite H1. repeat split; auto.
      * apply (H4 (k, v)). now left.
      * intros x Hx. apply H4. now right.
Qed.

Lemma lookup_erase e k m :
  D e -> D k -> keys_in D m -> unique key_eq m = true ->
  lookup key_eq e (erase key_eq k m) =
  if key_eq e k then None else lookup key_eq e m.
Proof.
  intros He Hk Hm Hu.
  induction m as [| [k' v'] m IH]; simpl.
  - now destruct (key_eq e k).
  - apply keys_in_cons in Hm as [Hk' Hm]. simpl in Hk'.
    apply unique_cons in Hu as [Hnone Hu].
    destruct (key_eq k k') eqn:Ekk'; rewrite ?lookup_cons.
    + rewrite (key_eq_congr_r He Hk Hk' Ekk').
      destruct (key_eq e k') eqn:Eek'; auto.
      rewrite (lookup_congr He Hk' Hm Eek'). exact Hnone.
    + rewrite IH by assumption.
      destruct (key_eq e k') eqn:Eek', (key_eq e k) eqn:Eek; auto.
      rewrite (key_eq_sym_eq He Hk) in Eek.
      assert (key_eq k k' = true) by (apply key_eq_trans with e; auto).
      congruence.
Qed.
End UnorderedMapFacts.

Section UnorderedMapShape.
Context {K : Type}.
Variable key_eq : K -> K -> bool.

Lemma find_Some_lookup k k' v (m : list (K * Z)) :
  find key_eq k m = Some (k', v) -> lookup key_eq k m = Some v.
Proof. unfold lookup. now intros ->. Qed.

Lemma find_None_lookup k (m : list (K * Z)) :
  find key_eq k m = None -> lookup key_eq k m = None.
Proof. unfold lookup. now intros ->. Qed.

Lemma find_Some_in k x (m : list (K * Z)) :
  find key_eq k m = Some x -> In x m /\ key_eq k (fst x) = true.
Proof.
  induction m as [| [k' v] m IH]; simpl; [discriminate |].
  destruct (key_eq k k') eqn:E.
  - intros [= <-]. auto.
  - intros H. destruct (IH H). auto.
Qed.

Lemma modify_keys k f (m : list (K * Z)) :
  map fst (modify key_eq k f m) = map fst m.
Proof.
  induction m as [| [k' v] m IH]; simpl; auto.
  destruct (key_eq k k'); simpl; congruence.
Qed.

Lemma assign_absent k v (m : list (K * Z)) :
  find key_eq k m = None -> assign key_eq k v m = m ++ [(k, v)].
Proof.
  induction m as [| [k' v'] m IH]; simpl; auto.
  destruct (key_eq k k'); [discriminate |].
  intros H. now rewrite IH.
Qed.

Lemma assign_present_keys k v (m : list (K * Z)) :
  find key_eq k m <> None -> map fst (assign key_eq k v m) = map fst m.
Proof.
  induction m as [| [k' v'] m IH]; simpl; [congruence |].
  destruct (key_eq k k'); simpl; auto.
  intros H. now rewrite IH.
Qed.

Lemma assign_keys_in k v (m : list (K * Z)) k0 :
  In k0 (map fst (assign key_eq k v m)) -> In k0 (map fst m) \/ k0 = k.
Proof.
  induction m as [| [k' v'] m IH]; simpl.
  - intros [<- | []]. auto.
  - destruct (key_eq k k'); simpl; [tauto |].
    intros [<- | H]; [auto | destruct (IH H); auto].
Qed.

Lemma assign_values (P : Z -> Prop) k v (m : list (K * Z)) :
  P v -> Forall (fun x => P (snd x)) m ->
  Forall (fun x => P (snd x)) (assign key_eq k v m).
Proof.
  intros Hv. induction 1 as [| [k' v'] m Hx Hm IH]; simpl.
  - now constructor.
  - destruct (key_eq k k'); constructor; auto.
Qed.

Lemma modify_values (P : Z -> Prop) k f (m : list (K * Z)) :
  (forall v, P v -> P (f v)) -> Forall (fun x => P (snd x)) m ->
  Forall (fun x => P (snd x)) (modify key_eq k f m).
Proof.
  intros Hf. induction 1 as [| [k' v'] m Hx Hm IH]; simpl.
  - constructor.
  - destruct (key_eq k k'); constructor; simpl; auto.
Qed.

Lemma erase_values (P : K * Z -> Prop) k (m : list (K * Z)) :
  Forall P m -> Forall P (erase key_eq k m).
Proof.
  induction 1 as [| [k' v'] m Hx Hm IH]; simpl.
  - constructor.
  - destruct (key_eq k k'); auto.
Qed.

Lemma unique_same_keys (m m' : list (K * Z)) :
  map fst m = map fst m' -> unique key_eq m = unique key_eq m'.
Proof.
  revert m'. induction m as [| [k v] m IH]; intros [| [k' v'] m']; simpl;
    try discriminate; auto.
  intros [= -> H]. rewrite (IH _ H). f_equal. f_equal.
  clear IH. revert m' H.
  induction m as [| x m IH]; intros [| x' m']; simpl; try discriminate; auto.
  intros [= -> H]. now rewrite (IH _ H).
Qed.
End UnorderedMapShape.

(** * Counts stored by the methods of [MultiSet] *)

Section MultiSetCounts.
Variable L : list Element.
Hypothesis HL : key_equivalence L.

Let D : Element -> Prop := fun x => In x L.

Lemma incl_keys_in (m : MultiSet) : incl (keys m) L -> keys_in D m.
Proof. intros H x Hx. apply H. unfold keys. now apply in_map. Qed.

Lemma count_of_congr e e' m :
  In e L -> In e' L -> incl (keys m) L -> VariantEqual e e' = true ->
  count_of e m = count_of e' m.
Proof.
  intros He He' Hm. apply incl_keys_in in Hm.
  apply lookup_congr with (D := D); auto; apply HL.
Qed.

Lemma count_of_assign e k v m :
  In e L -> In k L -> incl (keys m) L ->
  count_of e (assign VariantEqual k v m) =
  if VariantEqual e k then Some v else count_of e m.
Proof.
  intros He Hk Hm. apply incl_keys_in in Hm.
  apply lookup_assign with (D := D); auto; apply HL.
Qed.

Lemma count_of_modify e k f m :
  In e L -> In k L -> incl (keys m) L ->
  count_of e (modify VariantEqual k f m) =
  if VariantEqual e k then option_map f (count_of e m) else count_of e m.
Proof.
  intros He Hk Hm. apply incl_keys_in in Hm.
  apply lookup_modify with (D := D); auto; apply HL.
Qed.

Lemma count_of_erase e k m :
  In e L -> In k L -> incl (keys m) L -> unique_keys m = true ->
  count_of e (erase VariantEqual k m) =
  if VariantEqual e k then None else count_of e m.
Proof.
  intros He Hk Hm. apply incl_keys_in in Hm.
  apply lookup_erase with (D := D); auto; apply HL.
Qed.

Lemma assign_keys_incl k v m :
  In k L -> incl (keys m) L -> incl (keys (assign VariantEqual k v m)) L.
Proof.
  intros Hk Hm k0 Hk0. apply assign_keys_in in Hk0 as [H | ->]; auto.
Qed.

Lemma VariantEqual_sym_eq a b :
  In a L -> In b L -> VariantEqual a b = VariantEqual b a.
Proof. intros. apply key_eq_sym_eq with (D := D); auto; apply HL. Qed.

(** *** [AddElement] *)

Lemma count_of_AddElement e f m :
  In e L -> In f L -> incl (keys m) L ->
  count_of f (AddElement e m) =
  if VariantEqual f e
  then Some (match count_of e m with
             | Some c => int_wrap (c + 1)
             | None => 1
             end)
  else count_of f m.
Proof.
  intros He Hf Hm. unfold AddElement.
  destruct (find VariantEqual e m) as [[k c] |] eqn:E.
  - rewrite count_of_modify by assumption.
    destruct (VariantEqual f e) eqn:Efe; auto.
    rewrite (count_of_congr f e m Hf He Hm Efe).
    unfold count_of. rewrite (find_Some_lookup _ _ _ E). reflexivity.
  - rewrite count_of_assign by assumption.
    unfold count_of at 2. now rewrite (find_None_lookup _ _ _ E).
Qed.

(** *** [RemoveElement] *)

Lemma count_of_RemoveElement e f m :
  In e L -> In f L -> incl (keys m) L -> unique_keys m = true ->
  count_of f (fst (RemoveElement e m)) =
  if VariantEqual f e
  then match count_of e m with
       | Some c => if int_wrap (c - 1) =? 0 then None else Some (int_wrap (c - 1))
       | None => None
       end
  else count_of f m.
Proof.
  intros He Hf Hm Hu. unfold RemoveElement.
  destruct (find VariantEqual e m) as [[k c] |] eqn:E.
  - assert (Hc : count_of e m = Some c) by apply (find_Some_lookup _ _ _ E).
    rewrite Hc.
    assert (Hm1 : incl (keys (modify VariantEqual e (fun c => int_wrap (c - 1)) m)) L)
      by (unfold keys; now rewrite modify_keys).
    assert (Hmod : count_of f (modify VariantEqual e (fun c => int_wrap (c - 1)) m) =
                   if VariantEqual f e then Some (int_wrap (c - 1)) else count_of f m).
    { rewrite count_of_modify by assumption.
      destruct (VariantEqual f e) eqn:Efe; auto.
      now rewrite (count_of_congr f e m Hf He Hm Efe), Hc. }
    destruct (int_wrap (c - 1) =? 0) eqn:Ez; simpl.
    + rewrite count_of_erase; auto.
      * rewrite Hmod. now destruct (VariantEqual f e).
      * unfold unique_keys in *.
        rewrite (unique_same_keys VariantEqual _ m); auto using modify_keys.
    + exact Hmod.
  - simpl. assert (Hc : count_of e m = None) by apply (find_None_lookup _ _ _ E).
    rewrite Hc. destruct (VariantEqual f e) eqn:Efe; auto.
    now rewrite (count_of_congr f e m Hf He Hm Efe).
Qed.
End MultiSetCounts.

Lemma int_wrap_id z : in_int z -> int_wrap z = z.
Proof.
  unfold in_int, INT_MIN, INT_MAX, int_wrap. intros H.
  rewrite Z.mod_small; lia.
Qed.

Lemma count_of_positive e m c :
  positive_counts m -> count_of e m = Some c -> 1 <= c <= INT_MAX.
Proof.
  intros Hm Hc. apply lookup_Some_in in Hc as (k & Hin & _).
  unfold positive_counts in Hm. rewrite Forall_forall in Hm.
  apply (Hm _ Hin).
Qed.

Lemma fold_left_snoc {A B : Type} (f : A -> B -> A) l x a :
  fold_left f (l ++ [x]) a = f (fold_left f l a) x.
Proof. now rewrite fold_left_app. Qed.

Lemma keys_app (m1 m2 : MultiSet) : keys (m1 ++ m2) = keys m1 ++ keys m2.
Proof. apply map_app. Qed.

Section MultiSetOperators.
Variable L : list Element.
Hypothesis HL : key_equivalence L.

Lemma count_of_snoc e m x :
  count_of e (m ++ [x]) =
  match count_of e m with
  | Some c => Some c
  | None => if VariantEqual e (fst x) then Some (snd x) else None
  end.
Proof.
  unfold count_of. rewrite lookup_app. destruct x as [k v].
  now rewrite lookup_cons.
Qed.

Lemma unique_keys_snoc m x :
  incl (keys (m ++ [x])) L -> unique_keys (m ++ [x]) = true ->
  unique_keys m = true /\ count_of (fst x) m = None.
Proof.
  intros Hin Hu. apply unique_app in Hu as (Hu & _ & Hx). split; auto.
  apply lookup_None. intros y Hy. specialize (Hx y Hy).
  destruct x as [k v]. rewrite lookup_cons in Hx. simpl.
  rewrite (VariantEqual_sym_eq HL).
  - now destruct (VariantEqual (fst y) k).
  - apply Hin. unfold keys. rewrite map_app. apply in_or_app. right. now left.
  - apply Hin. unfold keys. rewrite map_app. apply in_or_app. left. now apply in_map.
Qed.

Lemma incl_keys_snoc m x :
  incl (keys (m ++ [x])) L -> incl (keys m) L /\ In (fst x) L.
Proof.
  rewrite keys_app. intros H. split.
  - intros k Hk. apply H, in_or_app. now left.
  - apply H, in_or_app. right. now left.
Qed.

(** *** Union *)

Lemma plus_step_keys R x :
  In (fst x) L -> incl (keys R) L -> incl (keys (plus_step R x)) L.
Proof.
  intros Hx HR. unfold plus_step.
  destruct (find VariantEqual (fst x) R) as [[k c] |];
    now apply assign_keys_incl.
Qed.

Lemma operator_plus_keys A B :
  incl (keys A) L -> incl (keys B) L -> incl (keys (operator_plus A B)) L.
Proof.
  unfold operator_plus. intros HA. induction B as [| x B IH] using rev_ind; auto.
  intros HB. apply incl_keys_snoc in HB as [HB Hx].
  rewrite fold_left_snoc. apply plus_step_keys; auto.
Qed.

Lemma count_of_plus_step e R x :
  In e L -> In (fst x) L -> incl (keys R) L ->
  count_of e (plus_step R x) =
  if VariantEqual e (fst x)
  then Some (match count_of (fst x) R with
             | Some c => Z.max c (snd x)
             | None => snd x
             end)
  else count_of e R.
Proof.
  intros He Hx HR. unfold plus_step.
  destruct (find VariantEqual (fst x) R) as [[k c] |] eqn:E;
    rewrite (count_of_assign HL) by assumption.
  - unfold count_of at 2. now rewrite (find_Some_lookup _ _ _ E).
  - unfold count_of at 2. now rewrite (find_None_lookup _ _ _ E).
Qed.

Lemma count_of_operator_plus A B e :
  unique_keys B = true -> In e L -> incl (keys A) L -> incl (keys B) L ->
  count_of e (operator_plus A B) =
  match count_of e A, count_of e B with
  | Some a, Some b => Some (Z.max a b)
  | Some a, None => Some a
  | None, Some b => Some b
  | None, None => None
  end.
Proof.
  intros HuB He HA. revert e He HuB.
  induction B as [| x B IH] using rev_ind; intros e He HuB HB.
  - unfold operator_plus. simpl. now destruct (count_of e A).
  - destruct (unique_keys_snoc _ _ HB HuB) as [HuB' Hxnone].
    apply incl_keys_snoc in HB as [HB Hx].
    unfold operator_plus in *. rewrite fold_left_snoc.
    rewrite count_of_plus_step; auto using operator_plus_keys.
    2: now apply operator_plus_keys.
    rewrite count_of_snoc.
    rewrite (IH (fst x)) by assumption. rewrite Hxnone.
    destruct (VariantEqual e (fst x)) eqn:Eex.
    + rewrite (count_of_congr HL e (fst x) A), (count_of_congr HL e (fst x) B), Hxnone;
        auto.
      now destruct (count_of (fst x) A).
    + rewrite IH by assumption.
      now destruct (count_of e A), (count_of e B).
Qed.

(** *** Difference *)

Lemma minus_step1_keys B R x :
  In (fst x) L -> incl (keys R) L -> incl (keys (minus_step1 B R x)) L.
Proof.
  intros Hx HR. unfold minus_step1.
  destruct (find VariantEqual (fst x) B) as [[k c] |];
    [destruct (snd x >? c) |]; auto using assign_keys_incl.
Qed.

Lemma minus_loop1_keys B A R :
  incl (keys A) L -> incl (keys R) L ->
  incl (keys (fold_left (minus_step1 B) A R)) L.
Proof.
  intros HA HR. induction A as [| x A IH] using rev_ind; auto.
  apply incl_keys_snoc in HA as [HA Hx].
  rewrite fold_left_snoc. apply minus_step1_keys; auto.
Qed.

Lemma minus_step2_keys A R x :
  In (fst x) L -> incl (keys R) L -> incl (keys (minus_step2 A R x)) L.
Proof.
  intros Hx HR. unfold minus_step2.
  destruct (find VariantEqual (fst x) A) as [[k c] |];
    auto using assign_keys_incl.
Qed.

Lemma minus_loop2_keys A B R :
  incl (keys B) L -> incl (keys R) L ->
  incl (keys (fold_left (minus_step2 A) B R)) L.
Proof.
  intros HB HR. induction B as [| x B IH] using rev_ind; auto.
  apply incl_keys_snoc in HB as [HB Hx].
  rewrite fold_left_snoc. apply minus_step2_keys; auto.
Qed.

Lemma count_of_minus_step1 B e R x :
  In e L -> In (fst x) L -> incl (keys R) L ->
  count_of e (minus_step1 B R x) =
  match count_of (fst x) B with
  | Some b =>
      if (snd x >? b) && VariantEqual e (fst x)
      then Some (int_wrap (snd x - b))
      else count_of e R
  | None => if VariantEqual e (fst x) then Some (snd x) else count_of e R
  end.
Proof.
  intros He Hx HR. unfold minus_step1, count_of at 2.
  destruct (find VariantEqual (fst x) B) as [[k b] |] eqn:E.
  - rewrite (find_Some_lookup _ _ _ E).
    destruct (snd x >? b); simpl; auto.
    now rewrite (count_of_assign HL) by assumption.
  - rewrite (find_None_lookup _ _ _ E).
    now rewrite (count_of_assign HL) by assumption.
Qed.

Lemma count_of_minus_loop1 A B e :
  incl (keys B) L -> unique_keys A = true -> In e L -> incl (keys A) L ->
  count_of e (fold_left (minus_step1 B) A []) =
  match count_of e A with
  | None => None
  | Some a =>
      match count_of e B with
      | Some b => if a >? b then Some (int_wrap (a - b)) else None
      | None => Some a
      end
  end.
Proof.
  intros HB HuA He. revert e He HuA.
  induction A as [| x A IH] using rev_ind; intros e He HuA HA; auto.
  destruct (unique_keys_snoc _ _ HA HuA) as [HuA' Hxnone].
  apply incl_keys_snoc in HA as [HA Hx].
  rewrite fold_left_snoc, count_of_minus_step1, count_of_snoc, IH;
    auto using minus_loop1_keys.
  2: apply minus_loop1_keys; auto; intros ? [].
  destruct (VariantEqual e (fst x)) eqn:Eex.
  - rewrite (count_of_congr HL e (fst x) A), Hxnone; auto.
    rewrite (count_of_congr HL e (fst x) B) by assumption.
    destruct (count_of (fst x) B) as [b |] eqn:Eb.
    + destruct (snd x >? b); reflexivity.
    + reflexivity.
  - destruct (count_of (fst x) B); [rewrite andb_false_r |];
      destruct (count_of e A); reflexivity.
Qed.

Lemma count_of_minus_step2 A e R x :
  In e L -> In (fst x) L -> incl (keys R) L ->
  count_of e (minus_step2 A R x) =
  match count_of (fst x) A with
  | None => if VariantEqual e (fst x) then Some (snd x) else count_of e R
  | Some _ => count_of e R
  end.
Proof.
  intros He Hx HR. unfold minus_step2, count_of at 2.
  destruct (find VariantEqual (fst x) A) as [[k a] |] eqn:E.
  - now rewrite (find_Some_lookup _ _ _ E).
  - rewrite (find_None_lookup _ _ _ E).
    now rewrite (count_of_assign HL) by assumption.
Qed.

Lemma count_of_minus_loop2 A B R e :
  incl (keys A) L -> incl (keys R) L ->
  unique_keys B = true -> In e L -> incl (keys B) L ->
  count_of e (fold_left (minus_step2 A) B R) =
  match count_of e A with
  | Some _ => count_of e R
  | None =>
      match count_of e B with
      | Some b => Some b
      | None => count_of e R
      end
  end.
Proof.
  intros HA HR HuB He. revert e He HuB.
  induction B as [| x B IH] using rev_ind; intros e He HuB HB.
  - simpl. now destruct (count_of e A).
  - destruct (unique_keys_snoc _ _ HB HuB) as [HuB' Hxnone].
    apply incl_keys_snoc in HB as [HB Hx].
    rewrite fold_left_snoc, count_of_minus_step2, count_of_snoc, IH;
      auto using minus_loop2_keys.
    destruct (VariantEqual e (fst x)) eqn:Eex.
    + rewrite (count_of_congr HL e (fst x) A), (count_of_congr HL e (fst x) B), Hxnone;
        auto.
      rewrite (count_of_congr HL e (fst x) R) by assumption.
      now destruct (count_of (fst x) A).
    + destruct (count_of (fst x) A), (count_of e A), (count_of e B); reflexivity.
Qed.

Lemma count_of_operator_minus A B e :
  unique_keys A = true -> unique_keys B = true ->
  In e L -> incl (keys A) L -> incl (keys B) L ->
  count_of e (operator_minus A B) =
  match count_of e A, count_of e B with
  | Some a, Some b => if a >? b then Some (int_wrap (a - b)) else None
  | Some a, None => Some a
  | None, Some b => Some b
  | None, None => None
  end.
Proof.
  intros HuA HuB He HA HB. unfold operator_minus.
  assert (HR : incl (keys (fold_left (minus_step1 B) A [])) L)
    by (apply minus_loop1_keys; auto; intros ? []).
  rewrite count_of_minus_loop2, count_of_minus_loop1 by assumption.
  destruct (count_of e A), (count_of e B); reflexivity.
Qed.
End MultiSetOperators.

Lemma key_equivalenceb_sound L : key_equivalenceb L = true -> key_equivalence L.
Proof.
  unfold key_equivalenceb. rewrite !andb_true_iff, !forallb_forall.
  intros [[Hr Hs] Ht]. constructor.
  - exact Hr.
  - intros a b Ha Hb Hab. specialize (Hs a Ha). rewrite forallb_forall in Hs.
    specialize (Hs b Hb). now rewrite Hab in Hs.
  - intros a b c Ha Hb Hc Hab Hbc. specialize (Ht a Ha).
    rewrite forallb_forall in Ht. specialize (Ht b Hb).
    rewrite forallb_forall in Ht. specialize (Ht c Hc).
    now rewrite Hab, Hbc in Ht.
Qed.

Lemma key_equivalence_incl L L' :
  incl L' L -> key_equivalence L -> key_equivalence L'.
Proof.
  intros Hi [Hr Hs Ht]. constructor.
  - intros a Ha. apply Hr; auto.
  - intros a b Ha Hb. apply Hs; auto.
  - intros a b c Ha Hb Hc. apply Ht; auto.
Qed.

(** * The claims about counts *)

(** C1.  For multisets [A], [B] and an element [e], the count of [e] in
    [A - B] is [countA - countB] when [e] is in both and [countA > countB];
    [e] is absent when it is in both and [countA <= countB]; the count is
    [countA] when [e] is in [A] only and [countB] when it is in [B] only
    (right-only elements are carried into the result). *)
Theorem operator_minus_count (A B : MultiSet) (e : Element) :
  key_equivalence (e :: keys A ++ keys B) ->
  unique_keys A = true -> unique_keys B = true ->
  positive_counts A -> positive_counts B ->
  count_of e (operator_minus A B) =
  match count_of e A, count_of e B with
  | Some countA, Some countB =>
      if countA >? countB then Some (countA - countB) else None
  | Some countA, None => Some countA
  | None, Some countB => Some countB
  | None, None => None
  end.
Proof.
  intros HL HuA HuB HpA HpB.
  rewrite (count_of_operator_minus HL); auto.
  - destruct (count_of e A) as [a |] eqn:Ea, (count_of e B) as [b |] eqn:Eb; auto.
    destruct (a >? b) eqn:Eab; auto.
    pose proof (count_of_positive e HpA Ea).
    pose proof (count_of_positive e HpB Eb).
    rewrite int_wrap_id; auto.
    unfold in_int, INT_MIN, INT_MAX in *. lia.
  - now left.
  - intros k Hk. right. apply in_or_app. now left.
  - intros k Hk. right. apply in_or_app. now right.
Qed.

Lemma operator_minus_count_witness :
  let A := [(Label "a", 3); (Nested 1 [(Label "x", 1)], 2); (Label "c", 1)] in
  let B := [(Label "a", 1); (Nested 2 [(Label "x", 1)], 5); (Label "b", 4)] in
  count_of (Label "a") (operator_minus A B) = Some 2 /\
  count_of (Nested 3 [(Label "x", 1)]) (operator_minus A B) = None /\
  count_of (Label "c") (operator_minus A B) = Some 1 /\
  count_of (Label "b") (operator_minus A B) = Some 4.
Proof.
  intros A B.
  assert (HA : positive_counts A)
    by (repeat constructor; unfold positive_count, INT_MAX; simpl; lia).
  assert (HB : positive_counts B)
    by (repeat constructor; unfold positive_count, INT_MAX; simpl; lia).
  assert (W : forall e, key_equivalenceb (e :: keys A ++ keys B) = true ->
               count_of e (operator_minus A B) =
               match count_of e A, count_of e B with
               | Some countA, Some countB =>
                   if countA >? countB then Some (countA - countB) else None
               | Some countA, None => Some countA
               | None, Some countB => Some countB
               | None, None => None
               end).
  { intros e He. apply operator_minus_count; auto using key_equivalenceb_sound. }
  split; [| split; [| split]].
  - exact (W (Label "a") eq_refl).
  - exact (W (Nested 3 [(Label "x", 1)]) eq_refl).
  - exact (W (Label "c") eq_refl).
  - exact (W (Label "b") eq_refl).
Defined.

(** C10.  For a multiset [m] and elements [e], [f] that are unequal under
    [VariantEqual], [AddElement(e)] leaves the stored count of [f] unchanged
    and adds no key other than [e]: every key of the result is a key of [m]
    or is [e] itself. *)
Theorem AddElement_frame (m : MultiSet) (e f : Element) :
  key_equivalence (e :: f :: keys m) ->
  VariantEqual e f = false ->
  count_of f (AddElement e m) = count_of f m /\
  (forall k, In k (keys (AddElement e m)) -> In k (keys m) \/ k = e).
Proof.
  intros HL Hef. split.
  - rewrite (count_of_AddElement HL).
    + rewrite (VariantEqual_sym_eq HL), Hef; simpl; auto.
    + now left.
    + right; now left.
    + intros k Hk. now do 2 right.
  - intros k. unfold AddElement, keys.
    destruct (find VariantEqual e m).
    + rewrite modify_keys. auto.
    + apply assign_keys_in.
Qed.

Lemma AddElement_frame_witness :
  let m := [(Label "a", 3); (Nested 1 [(Label "x", 1)], 2)] in
  count_of (Label "a") (AddElement (Nested 2 [(Label "x", 1)]) m) = Some 3 /\
  count_of (Nested 1 [(Label "x", 1)]) (AddElement (Label "b") m) = Some 2.
Proof.
  intros m. split.
  - refine (proj1 (@AddElement_frame m (Nested 2 [(Label "x", 1)]) (Label "a") _ _));
      [apply key_equivalenceb_sound |]; reflexivity.
  - refine (proj1 (@AddElement_frame m (Label "b") (Nested 1 [(Label "x", 1)]) _ _));
      [apply key_equivalenceb_sound |]; reflexivity.
Defined.

(** C8.  [RemoveElement(e)] throws exactly when [e] is not a key of [m]; when
    it throws, [m] is unchanged; when it returns, the count of [e] has gone
    down by 1, the entry being erased when the count reaches 0. *)
Theorem RemoveElement_NotFound (m : MultiSet) (e : Element) :
  (snd (RemoveElement e m) = runtime_error "Element does not exist in the multiset"
   <-> forall k, In k (keys m) -> VariantEqual e k = false) /\
  (snd (RemoveElement e m) <> no_exception -> fst (RemoveElement e m) = m) /\
  (key_equivalence (e :: keys m) -> unique_keys m = true -> positive_counts m ->
   snd (RemoveElement e m) = no_exception ->
   exists c, count_of e m = Some c /\
             count_of e (fst (RemoveElement e m)) =
             if c =? 1 then None else Some (c - 1)).
Proof.
  split; [| split].
  - unfold RemoveElement.
    destruct (find VariantEqual e m) as [[k c] |] eqn:E.
    + split.
      * destruct (int_wrap (c - 1) =? 0); discriminate.
      * intros H. apply find_Some_in in E as [Hin Hk]. simpl in Hk.
        rewrite (H k) in Hk; [discriminate |].
        unfold keys. now apply (in_map fst) in Hin.
    + split; auto. intros _ k Hk.
      apply find_None_lookup in E. rewrite lookup_None in E.
      unfold keys in Hk. apply in_map_iff in Hk as (x & <- & Hx). auto.
  - unfold RemoveElement.
    destruct (find VariantEqual e m) as [[k c] |]; auto.
    destruct (int_wrap (c - 1) =? 0); simpl; congruence.
  - intros HL Hu Hp Hok.
    assert (He : In e (e :: keys m)) by now left.
    assert (Hm : incl (keys m) (e :: keys m)) by (intros k Hk; now right).
    pose proof (count_of_RemoveElement HL e e m He He Hm Hu) as Hc.
    rewrite (ke_refl HL e He) in Hc.
    destruct (count_of e m) as [c |] eqn:Ec.
    + exists c. split; auto. rewrite Hc.
      pose proof (count_of_positive e Hp Ec) as Hpos.
      rewrite int_wrap_id by (unfold in_int, INT_MIN, INT_MAX in *; lia).
      destruct (c =? 1) eqn:E1, (c - 1 =? 0) eqn:E0; auto; lia.
    + exfalso. unfold RemoveElement, count_of, lookup in *.
      destruct (find VariantEqual e m) as [[k c] |]; simpl in *; discriminate.
Qed.

Lemma RemoveElement_NotFound_witness :
  let m := [(Label "a", 3); (Nested 1 [(Label "x", 1)], 1)] in
  (forall k, In k (keys m) -> VariantEqual (Label "b") k = false) /\
  fst (RemoveElement (Label "b") m) = m /\
  count_of (Label "a") (fst (RemoveElement (Label "a") m)) = Some 2 /\
  count_of (Nested 2 [(Label "x", 1)])
           (fst (RemoveElement (Nested 2 [(Label "x", 1)]) m)) = None.
Proof.
  intros m.
  assert (Hp : positive_counts m)
    by (repeat constructor; unfold positive_count, INT_MAX; simpl; lia).
  split; [| split; [| split]].
  - exact (proj1 (proj1 (RemoveElement_NotFound m (Label "b"))) eq_refl).
  - apply (proj1 (proj2 (RemoveElement_NotFound m (Label "b")))). discriminate.
  - assert (HL : key_equivalence (Label "a" :: keys m))
      by (apply key_equivalenceb_sound; reflexivity).
    destruct (proj2 (proj2 (RemoveElement_NotFound m (Label "a")))
                HL eq_refl Hp eq_refl) as (c & Hc & Hr).
    injection Hc as <-. exact Hr.
  - assert (HL : key_equivalence (Nested 2 [(Label "x", 1)] :: keys m))
      by (apply key_equivalenceb_sound; reflexivity).
    destruct (proj2 (proj2 (RemoveElement_NotFound m (Nested 2 [(Label "x", 1)])))
                HL eq_refl Hp eq_refl) as (c & Hc & Hr).
    injection Hc as <-. exact Hr.
Defined.

(** * The invariant on stored counts *)

Section CountInvariant.
Context {K : Type}.
Variable key_eq : K -> K -> bool.
Variable P : Z -> Prop.

Lemma modify_values_at k k' c f (m : list (K * Z)) :
  find key_eq k m = Some (k', c) -> P (f c) ->
  Forall (fun x => P (snd x)) m ->
  Forall (fun x => P (snd x)) (modify key_eq k f m).
Proof.
  intros Hfind Hfc Hm. revert Hfind.
  induction Hm as [| [k1 v1] m Hx Hm IH]; simpl; [discriminate |].
  destruct (key_eq k k1).
  - intros [= <- <-]. constructor; auto.
  - intros H. constructor; auto.
Qed.

Lemma erase_modify k f (m : list (K * Z)) :
  erase key_eq k (modify key_eq k f m) = erase key_eq k m.
Proof.
  induction m as [| [k1 v1] m IH]; simpl; auto.
  destruct (key_eq k k1) eqn:E; simpl; rewrite E; congruence.
Qed.

Lemma find_value k x (m : list (K * Z)) :
  find key_eq k m = Some x -> Forall (fun x => P (snd x)) m -> P (snd x).
Proof.
  intros Hf Hm. apply find_Some_in in Hf as [Hin _].
  rewrite Forall_forall in Hm. auto.
Qed.
End CountInvariant.

Lemma positive_AddElement e m :
  positive_counts m -> count0 e m < INT_MAX -> positive_counts (AddElement e m).
Proof.
  unfold positive_counts, AddElement, count0, count_of, lookup.
  intros Hm Hc.
  destruct (find VariantEqual e m) as [[k c] |] eqn:E; simpl in Hc.
  - apply (modify_values_at VariantEqual positive_count _ _ E); auto.
    pose proof (find_value VariantEqual positive_count _ E Hm) as Hpos.
    simpl in Hpos.
    rewrite int_wrap_id; unfold positive_count, in_int, INT_MIN, INT_MAX in *; lia.
  - apply assign_values; auto. unfold positive_count, INT_MAX; lia.
Qed.

Lemma positive_RemoveElement e m :
  positive_counts m -> positive_counts (fst (RemoveElement e m)).
Proof.
  unfold positive_counts, RemoveElement. intros Hm.
  destruct (find VariantEqual e m) as [[k c] |] eqn:E; auto.
  pose proof (find_value VariantEqual positive_count _ E Hm) as Hpos.
  simpl in Hpos.
  rewrite int_wrap_id by (unfold positive_count, in_int, INT_MIN, INT_MAX in *; lia).
  destruct (c - 1 =? 0) eqn:E0; simpl.
  - rewrite erase_modify. now apply erase_values.
  - apply (modify_values_at VariantEqual positive_count _ _ E); auto.
    rewrite int_wrap_id; unfold positive_count, in_int, INT_MIN, INT_MAX in *; lia.
Qed.

Lemma positive_plus_step R x :
  positive_counts R -> positive_count (snd x) -> positive_counts (plus_step R x).
Proof.
  unfold positive_counts, plus_step. intros HR Hx.
  destruct (find VariantEqual (fst x) R) as [[k c] |] eqn:E.
  - pose proof (find_value VariantEqual positive_count _ E HR) as Hc.
    simpl in Hc. apply assign_values; auto. unfold positive_count in *; lia.
  - apply assign_values; auto.
Qed.

Lemma positive_operator_plus A B :
  positive_counts A -> positive_counts B -> positive_counts (operator_plus A B).
Proof.
  unfold operator_plus. intros HA HB. revert A HA.
  induction HB as [| x B Hx HB IH]; intros A HA; simpl; auto.
  apply IH. now apply positive_plus_step.
Qed.

Lemma positive_times_step other R x :
  positive_counts other -> positive_counts R -> positive_count (snd x) ->
  positive_counts (times_step other R x).
Proof.
  unfold positive_counts, times_step. intros Ho HR Hx.
  destruct (find VariantEqual (fst x) other) as [[k c] |] eqn:E; auto.
  pose proof (find_value VariantEqual positive_count _ E Ho) as Hc.
  simpl in Hc. apply assign_values; auto. unfold positive_count in *; lia.
Qed.

Lemma positive_fold_times other A R :
  positive_counts other -> positive_counts A -> positive_counts R ->
  positive_counts (fold_left (times_step other) A R).
Proof.
  intros Ho HA. revert R.
  induction HA as [| x A Hx HA IH]; intros R HR; simpl; auto.
  apply IH. now apply positive_times_step.
Qed.

Lemma positive_operator_times A B :
  positive_counts A -> positive_counts B -> positive_counts (operator_times A B).
Proof.
  intros HA HB. apply positive_fold_times; auto. constructor.
Qed.

Lemma positive_minus_step1 other R x :
  positive_counts other -> positive_counts R -> positive_count (snd x) ->
  positive_counts (minus_step1 other R x).
Proof.
  unfold positive_counts, minus_step1. intros Ho HR Hx.
  destruct (find VariantEqual (fst x) other) as [[k c] |] eqn:E.
  - pose proof (find_value VariantEqual positive_count _ E Ho) as Hc.
    simpl in Hc. destruct (snd x >? c) eqn:Egt; auto.
    apply assign_values; auto.
    rewrite int_wrap_id; unfold positive_count, in_int, INT_MIN, INT_MAX in *; lia.
  - apply assign_values; auto.
Qed.

Lemma positive_minus_step2 this R x :
  positive_counts R -> positive_count (snd x) ->
  positive_counts (minus_step2 this R x).
Proof.
  unfold positive_counts, minus_step2. intros HR Hx.
  destruct (find VariantEqual (fst x) this); auto.
  apply assign_values; auto.
Qed.

Lemma positive_operator_minus A B :
  positive_counts A -> positive_counts B -> positive_counts (operator_minus A B).
Proof.
  unfold operator_minus. intros HA HB.
  assert (H1 : forall R, positive_counts R ->
                         positive_counts (fold_left (minus_step1 B) A R)).
  { clear - HA HB. induction HA as [| x A Hx HA IH]; intros R HR; simpl; auto.
    apply IH. now apply positive_minus_step1. }
  specialize (H1 [] (Forall_nil _)).
  revert H1. generalize (fold_left (minus_step1 B) A []).
  clear HA. induction HB as [| x B Hx HB IH]; intros R HR; simpl; auto.
  apply IH. now apply positive_minus_step2.
Qed.

Lemma positive_BuildBoolean m : positive_counts (BuildBoolean m).
Proof.
  unfold BuildBoolean.
  assert (H : forall R, positive_counts R ->
    positive_counts (fold_left (fun booleanSet element =>
       assign VariantEqual (fst element) 1 booleanSet) m R)).
  { induction m as [| x m IH]; intros R HR; simpl; auto.
    apply IH. apply assign_values; auto. unfold positive_count, INT_MAX; lia. }
  apply H. constructor.
Qed.

(** * The reader *)

(** ** A stream that is not good stays so *)

Lemma good_setstate_failbit s : good (setstate_failbit s) = false.
Proof. unfold good; simpl. apply andb_false_r. Qed.

Lemma sentry_not_good b s :
  good s = false -> sentry b s = (setstate_failbit s, false).
Proof. unfold sentry. now intros ->. Qed.

Lemma peek_not_good s : good s = false -> peek s = (setstate_failbit s, None).
Proof. intros H. unfold peek. now rewrite sentry_not_good. Qed.

Lemma ws_not_good s : good s = false -> ws s = setstate_failbit s.
Proof. intros H. unfold ws. now rewrite sentry_not_good. Qed.

Lemma extract_char_not_good s ch :
  good s = false -> extract_char s ch = (setstate_failbit s, ch).
Proof. intros H. unfold extract_char. now rewrite sentry_not_good. Qed.

Lemma label_cond_not_good s :
  good s = false -> exists s', label_cond s = (s', false) /\ good s' = false.
Proof.
  intros H. unfold label_cond.
  rewrite (peek_not_good _ H); simpl.
  rewrite (peek_not_good _ (good_setstate_failbit s)); simpl.
  rewrite (peek_not_good _ (good_setstate_failbit _)); simpl.
  eexists; split; [reflexivity | apply good_setstate_failbit].
Qed.

(** Once the stream has failed while [ch] holds a comma, the loop of the
    reader never leaves: no amount of fuel produces a result. *)
Lemma in_loop_stuck fuel uninit s heap elements multiset :
  good s = false -> in_loop fuel uninit s heap "," elements multiset = None.
Proof.
  revert s elements.
  induction fuel as [| fuel IH]; intros s elements Hs; [reflexivity |].
  simpl. rewrite (peek_not_good _ Hs). simpl.
  rewrite (ws_not_good _ (good_setstate_failbit s)).
  destruct fuel as [| fuel']; [reflexivity |].
  cbn [label_loop].
  destruct (label_cond_not_good _ (good_setstate_failbit (setstate_failbit s)))
    as (s' & -> & Hs').
  rewrite (ws_not_good _ Hs').
  rewrite (extract_char_not_good _ _ (good_setstate_failbit s')).
  cbn [Ascii.eqb negb]. simpl (Ascii.eqb _ _).
  apply IH. apply good_setstate_failbit.
Qed.

(** ** More fuel does not change a result *)

Lemma label_loop_mono fuel uninit s str r :
  label_loop fuel uninit s str = Some r ->
  label_loop (S fuel) uninit s str = Some r.
Proof.
  revert s str. induction fuel as [| fuel IH]; intros s str; [discriminate |].
  intros H. cbn [label_loop] in *.
  destruct (label_cond s) as [s1 [|]]; auto.
  destruct (get s1 uninit) as [s2 c]. now apply IH.
Qed.

Lemma operator_in_mono_step fuel :
  (forall uninit s heap multiset r,
      operator_in fuel uninit s heap multiset = Some r ->
      operator_in (S fuel) uninit s heap multiset = Some r) /\
  (forall uninit s heap ch elements multiset r,
      in_loop fuel uninit s heap ch elements multiset = Some r ->
      in_loop (S fuel) uninit s heap ch elements multiset = Some r).
Proof.
  induction fuel as [| fuel [IHo IHl]]; [split; discriminate |].
  split.
  - intros uninit s heap multiset r H.
    cbn [operator_in] in *.
    destruct (extract_char s uninit) as [s1 ch].
    destruct (negb (Ascii.eqb ch "{")); auto.
  - intros uninit s heap ch elements multiset r H.
    cbn [in_loop] in *.
    destruct (peek s) as [s1 p].
    destruct (peek_is p "{").
    + destruct (operator_in fuel uninit s1 (Pos.succ heap) []) as [[[s2 heap2] nested] |] eqn:E;
        [| discriminate].
      rewrite (IHo _ _ _ _ _ E).
      destruct (extract_char (ws s2) ch) as [s3 ch1].
      destruct (Ascii.eqb ch1 "}"); auto.
      destruct (negb (Ascii.eqb ch1 ",")); auto.
    + destruct (label_loop fuel uninit (ws s1) EmptyString) as [[s2 str] |] eqn:E;
        [| discriminate].
      rewrite (label_loop_mono _ _ _ _ E).
      destruct (extract_char (ws s2) ch) as [s3 ch1].
      destruct (Ascii.eqb ch1 "}"); auto.
      destruct (negb (Ascii.eqb ch1 ",")); auto.
Qed.

Lemma operator_in_mono fuel k uninit s heap multiset r :
  operator_in fuel uninit s heap multiset = Some r ->
  operator_in (k + fuel) uninit s heap multiset = Some r.
Proof.
  intros H. induction k as [| k IH]; auto.
  now apply (proj1 (operator_in_mono_step (k + fuel))).
Qed.

Lemma operator_in_None fuel fuel' uninit s heap multiset :
  (fuel <= fuel')%nat ->
  operator_in fuel' uninit s heap multiset = None ->
  operator_in fuel uninit s heap multiset = None.
Proof.
  intros Hle Hnone.
  destruct (operator_in fuel uninit s heap multiset) as [r |] eqn:E; auto.
  apply (@operator_in_mono fuel (fuel' - fuel)) in E.
  replace (fuel' - fuel + fuel)%nat with fuel' in E by lia. congruence.
Qed.

Lemma label_loop_mono_k fuel k uninit s str r :
  label_loop fuel uninit s str = Some r ->
  label_loop (k + fuel) uninit s str = Some r.
Proof.
  intros H. induction k as [| k IH]; auto.
  now apply label_loop_mono.
Qed.

(** Hence the result does not depend on the fuel that produced it. *)
Lemma label_loop_det fuel fuel' uninit s str r r' :
  label_loop fuel uninit s str = Some r ->
  label_loop fuel' uninit s str = Some r' -> r = r'.
Proof.
  intros H H'.
  apply (@label_loop_mono_k fuel fuel') in H.
  apply (@label_loop_mono_k fuel' fuel) in H'.
  rewrite Nat.add_comm in H'. congruence.
Qed.

Lemma operator_in_det fuel fuel' uninit s heap multiset r r' :
  operator_in fuel uninit s heap multiset = Some r ->
  operator_in fuel' uninit s heap multiset = Some r' -> r = r'.
Proof.
  intros H H'.
  apply (@operator_in_mono fuel fuel') in H.
  apply (@operator_in_mono fuel' fuel) in H'.
  rewrite Nat.add_comm in H'. congruence.
Qed.

(** ** The reader on particular inputs *)

(** C4.  On the text [{}] the reader succeeds, and the multiset it stores
    holds the empty label once: its [Size()] is 1, not 0. *)
Theorem operator_in_empty_braces (fuel : nat) (uninit : ascii) (heap : ptr)
        (multiset : MultiSet) :
  operator_in (3 + fuel) uninit (istringstream "{}") heap multiset =
    Some ({| buf := EmptyString; eofbit := false; failbit := false |},
          heap, [(Label EmptyString, 1)]) /\
  Size [(Label EmptyString, 1)] = 1 /\
  IsEmpty [(Label EmptyString, 1)] = false.
Proof.
  split; [| split; reflexivity].
  replace (3 + fuel)%nat with (fuel + 3)%nat by lia.
  apply operator_in_mono. reflexivity.
Qed.

(** C9.  On the text [{a,{{b}c}}], where [c] stands in place of a separator
    inside the nested multiset, the reader never returns: the nested call
    fails, the outer [is >> ch] extracts nothing and leaves the comma in
    [ch], and the outer loop runs on.  No amount of fuel yields a result. *)
Theorem operator_in_hangs (fuel : nat) (uninit : ascii) (heap : ptr)
        (multiset : MultiSet) :
  operator_in fuel uninit (istringstream "{a,{{b}c}}") heap multiset = None.
Proof.
  destruct fuel as [| fuel]; [reflexivity |]. simpl.
  destruct fuel as [| fuel]; [reflexivity |]. simpl.
  destruct (label_loop fuel uninit _ _) as [[s2 str] |] eqn:E; [| reflexivity].
  assert (H : (s2, str) =
              ({| buf := ",{{b}c}}"; eofbit := false; failbit := false |}, "a"%string))
    by (eapply label_loop_det; [exact E | instantiate (1 := 3%nat); reflexivity]).
  injection H as -> ->. simpl.
  destruct fuel as [| fuel]; [reflexivity |]. simpl.
  destruct (operator_in fuel uninit _ _ _) as [[[s3 heap3] nested] |] eqn:E';
    [| reflexivity].
  assert (H : (s3, heap3, nested) =
              ({| buf := "}}"; eofbit := false; failbit := true |},
               Pos.succ (Pos.succ heap), @nil (Element * Z)))
    by (eapply operator_in_det; [exact E' | instantiate (1 := 6%nat); reflexivity]).
  injection H as -> -> ->. simpl.
  apply in_loop_stuck. reflexivity.
Qed.

(** * [VariantEqual] on a sound object graph *)

Lemma VariantEqual_Nested p q m m' :
  VariantEqual (Nested p m) (Nested q m') = operator_eq m m'.
Proof. reflexivity. Qed.

Lemma variant_eq_refl a : variant_eq a a = true.
Proof. destruct a; simpl; [apply String.eqb_refl | apply Pos.eqb_refl]. Qed.

Lemma variant_eq_sound h a b :
  sound h a -> sound h b -> variant_eq a b = true -> a = b.
Proof.
  intros Ha Hb. destruct Ha as [s | p m Hp _ _], Hb as [t | q m' Hq _ _]; simpl;
    try discriminate.
  - intros H. apply String.eqb_eq in H. now subst.
  - intros H. apply Pos.eqb_eq in H. subst. reflexivity.
Qed.

Lemma same_value_refl a : same_value a a.
Proof. destruct a; simpl; auto. Qed.

Lemma same_value_sym a b : same_value a b -> same_value b a.
Proof. destruct a, b; simpl; auto. apply Permutation_sym. Qed.

Lemma same_value_trans a b c : same_value a b -> same_value b c -> same_value a c.
Proof.
  destruct a, b, c; simpl; try tauto; try congruence.
  apply Permutation_trans.
Qed.

Lemma esize_in p m x : In x m -> (esize (fst x) < esize (Nested p m))%nat.
Proof.
  simpl. induction m as [| y m IH]; simpl; [tauto |].
  intros [-> | H]; [lia | specialize (IH H); lia].
Qed.

Lemma same_value_esize a b : same_value a b -> esize a = esize b.
Proof.
  destruct a, b; simpl; try tauto.
  intros H. f_equal. apply Permutation_list_sum. now apply Permutation_map.
Qed.

Section UniqueEntries.
Context {K : Type}.
Variable key_eq : K -> K -> bool.

Lemma unique_NoDup (m : list (K * Z)) :
  unique key_eq m = true ->
  (forall x, In x m -> key_eq (fst x) (fst x) = true) ->
  NoDup m.
Proof.
  induction m as [| [k v] m IH]; intros Hu Hr; [constructor |].
  apply unique_cons in Hu as [Hnone Hu].
  constructor.
  - intros Hin. rewrite lookup_None in Hnone.
    specialize (Hnone _ Hin). specialize (Hr (k, v) (or_introl eq_refl)).
    simpl in *. congruence.
  - apply IH; auto. intros x Hx. apply Hr. now right.
Qed.

(** In a map with unique keys a lookup with a stored key finds its entry. *)
Lemma find_stored (m : list (K * Z)) x :
  unique key_eq m = true -> In x m ->
  key_eq (fst x) (fst x) = true ->
  (forall y, In y m -> key_eq (fst x) (fst y) = true ->
             key_eq (fst y) (fst x) = true) ->
  find key_eq (fst x) m = Some x.
Proof.
  intros Hu Hin Hr Hs.
  induction m as [| [k v] m IH]; [destruct Hin |].
  apply unique_cons in Hu as [Hnone Hu]. simpl.
  destruct Hin as [<- | Hin].
  - simpl in *. now rewrite Hr.
  - destruct (key_eq (fst x) k) eqn:E.
    + rewrite lookup_None in Hnone. specialize (Hnone _ Hin).
      specialize (Hs (k, v) (or_introl eq_refl) E). simpl in *. congruence.
    + apply IH; auto. intros y Hy. apply Hs. now right.
Qed.
End UniqueEntries.

Section SoundGraph.
Variable h : ptr -> MultiSet.

(** [operator==] on two maps whose keys are sound, given the
    characterisation of [VariantEqual] on the keys of the left one. *)
Lemma operator_eq_Permutation_step (m m' : MultiSet) :
  unique_keys m = true -> unique_keys m' = true ->
  (forall x, In x m -> sound h (fst x)) ->
  (forall x, In x m' -> sound h (fst x)) ->
  (forall x, In x m -> forall b, sound h b ->
             (VariantEqual (fst x) b = true <-> same_value (fst x) b)) ->
  (operator_eq m m' = true <-> Permutation m m').
Proof.
  intros Hu Hu' Hs Hs' IH.
  assert (Hrefl : forall x, In x m -> VariantEqual (fst x) (fst x) = true).
  { intros x Hx. apply (IH x Hx); auto. apply same_value_refl. }
  unfold operator_eq, unordered_map_eq.
  rewrite andb_true_iff, Nat.eqb_eq, forallb_forall. split.
  - intros [Hlen Hall].
    apply NoDup_Permutation_bis.
    + now apply unique_NoDup with (key_eq := VariantEqual).
    + now rewrite Hlen.
    + intros x Hx. specialize (Hall x Hx).
      destruct (find VariantEqual (fst x) m') as [y |] eqn:E; [| discriminate].
      apply find_Some_in in E as [Hy _].
      unfold pair_eq in Hall. apply andb_true_iff in Hall as [Hk Hc].
      apply (variant_eq_sound (Hs x Hx) (Hs' y Hy)) in Hk.
      apply Z.eqb_eq in Hc.
      destruct x, y; simpl in *; subst; exact Hy.
  - intros Hperm. split; [now apply Permutation_length |].
    intros x Hx.
    rewrite (find_stored VariantEqual m' x); auto.
    + unfold pair_eq. now rewrite variant_eq_refl, Z.eqb_refl.
    + now apply Permutation_in with m.
    + intros y Hy Hxy.
      assert (Hym : In y m) by (apply Permutation_in with m'; auto using Permutation_sym).
      apply (IH y Hym); auto.
      apply same_value_sym. apply (IH x Hx); auto.
Qed.

Lemma VariantEqual_spec_size n :
  forall a b, (esize a < n)%nat -> sound h a -> sound h b ->
              (VariantEqual a b = true <-> same_value a b).
Proof.
  induction n as [| n IH]; intros a b Hn Ha Hb; [lia |].
  destruct Ha as [s | p m Hp Hu Hk], Hb as [t | q m' Hq Hu' Hk']; simpl same_value.
  - simpl. apply String.eqb_eq.
  - simpl. split; [discriminate | tauto].
  - simpl. split; [discriminate | tauto].
  - rewrite VariantEqual_Nested.
    apply operator_eq_Permutation_step; auto.
    intros x Hx b Hb. apply IH; auto.
    pose proof (esize_in p m x Hx). lia.
Qed.

(** On sound elements [VariantEqual] holds exactly between equal labels and
    between pointers whose pointees hold the same entries. *)
Lemma VariantEqual_spec a b :
  sound h a -> sound h b -> (VariantEqual a b = true <-> same_value a b).
Proof. apply VariantEqual_spec_size with (n := S (esize a)). lia. Qed.

(** So it is an equivalence relation on them. *)
Lemma sound_key_equivalence (L : list Element) :
  (forall a, In a L -> sound h a) -> key_equivalence L.
Proof.
  intros HL. constructor.
  - intros a Ha. apply VariantEqual_spec; auto. apply same_value_refl.
  - intros a b Ha Hb Hab. apply VariantEqual_spec; auto.
    apply same_value_sym.
    exact (proj1 (VariantEqual_spec (HL a Ha) (HL b Hb)) Hab).
  - intros a b c Ha Hb Hc Hab Hbc. apply VariantEqual_spec; auto.
    apply same_value_trans with b.
    + exact (proj1 (VariantEqual_spec (HL a Ha) (HL b Hb)) Hab).
    + exact (proj1 (VariantEqual_spec (HL b Hb) (HL c Hc)) Hbc).
Qed.

(** [operator==] on sound maps: the same entries, in any order. *)
Lemma operator_eq_Permutation (m m' : MultiSet) :
  unique_keys m = true -> unique_keys m' = true ->
  (forall x, In x m -> sound h (fst x)) ->
  (forall x, In x m' -> sound h (fst x)) ->
  (operator_eq m m' = true <-> Permutation m m').
Proof.
  intros Hu Hu' Hs Hs'. apply operator_eq_Permutation_step; auto.
  intros x Hx b Hb. apply VariantEqual_spec; auto.
Qed.
End SoundGraph.

(** * Hashing *)

Lemma content_equiv_refl_size n :
  forall a, (esize a < n)%nat -> content_equiv a a.
Proof.
  induction n as [| n IH]; intros a Hn; [lia |].
  destruct a as [s | p m]; constructor.
  assert (Hm : forall x, In x m -> content_equiv (fst x) (fst x)).
  { intros x Hx. apply IH. pose proof (esize_in p m x Hx). lia. }
  clear Hn. induction m as [| [k c] m IHm]; [constructor |].
  apply (@entries_cons k k c m [] m).
  - apply (Hm (k, c)). now left.
  - apply IHm. intros x Hx. apply Hm. now right.
Qed.

Lemma content_equiv_refl a : content_equiv a a.
Proof. apply content_equiv_refl_size with (n := S (esize a)). lia. Qed.

Lemma entries_equiv_refl m : entries_equiv m m.
Proof.
  induction m as [| [k c] m IH]; [constructor |].
  apply (@entries_cons k k c m [] m); auto using content_equiv_refl.
Qed.

(** Entries in another order are structurally equal. *)
Lemma entries_equiv_Permutation m m' : Permutation m m' -> entries_equiv m m'.
Proof.
  revert m'. induction m as [| [k c] m IH]; intros m' Hp.
  - apply Permutation_nil in Hp. subst. constructor.
  - assert (Hin : In (k, c) m') by (apply (Permutation_in _ Hp); now left).
    apply in_split in Hin as (m1 & m2 & ->).
    apply entries_cons; [apply content_equiv_refl |].
    apply IH. now apply Permutation_cons_app_inv in Hp.
Qed.

Section HashFacts.
Variable hash_string : string -> Z.
Variable hash_int : Z -> Z.

Let step := hash_step hash_int (VariantHash hash_string hash_int).

Lemma hash_fold_Permutation m m' :
  Permutation m m' ->
  forall acc, fold_left step m acc = fold_left step m' acc.
Proof.
  induction 1 as [| x m m' Hp IH | x y m | m m' m'' _ IH1 _ IH2]; intros acc; simpl.
  - reflexivity.
  - apply IH.
  - f_equal. unfold step, hash_step.
    generalize (Z.lxor (VariantHash hash_string hash_int (fst x))
                       (size_t_wrap (Z.shiftl (hash_int (snd x)) 1))) as gx.
    generalize (Z.lxor (VariantHash hash_string hash_int (fst y))
                       (size_t_wrap (Z.shiftl (hash_int (snd y)) 1))) as gy.
    intros gy gx.
    now rewrite !Z.lxor_assoc, (Z.lxor_comm gy gx).
  - now rewrite IH1.
Qed.

Lemma hash_fold_xor m acc :
  fold_left step m acc =
  Z.lxor acc
    (fold_right (fun elem hash_value =>
       Z.lxor (Z.lxor (VariantHash hash_string hash_int (fst elem))
                      (size_t_wrap (Z.shiftl (hash_int (snd elem)) 1)))
              hash_value) 0 m).
Proof.
  revert acc. induction m as [| x m IH]; intros acc; simpl.
  - now rewrite Z.lxor_0_r.
  - rewrite IH. unfold step, hash_step. now rewrite Z.lxor_assoc.
Qed.

Lemma MultiSetHash_Permutation m m' :
  Permutation m m' ->
  MultiSetHash hash_string hash_int m = MultiSetHash hash_string hash_int m'.
Proof. intros H. apply (hash_fold_Permutation H). Qed.

Lemma VariantHash_same_value a b :
  same_value a b ->
  VariantHash hash_string hash_int a = VariantHash hash_string hash_int b.
Proof.
  destruct a, b; simpl; try tauto.
  - now intros ->.
  - intros H. apply (hash_fold_Permutation H).
Qed.

Lemma hash_content_equiv :
  (forall a b, content_equiv a b ->
     VariantHash hash_string hash_int a = VariantHash hash_string hash_int b) /\
  (forall m m', entries_equiv m m' ->
     forall acc, fold_left step m acc = fold_left step m' acc).
Proof.
  split.
  - apply (content_equiv_mind
             (fun a b => VariantHash hash_string hash_int a =
                         VariantHash hash_string hash_int b)
             (fun m m' => forall acc, fold_left step m acc = fold_left step m' acc));
      auto.
    + intros p q m m' _ IH. simpl. apply IH.
    + intros k k' c m m1 m2 _ Hk _ IH acc.
      rewrite (hash_fold_Permutation
                 (Permutation_sym (Permutation_middle m1 m2 (k', c)))).
      simpl. rewrite <- IH. f_equal. unfold step, hash_step. simpl. now rewrite Hk.
  - apply (entries_equiv_mind
             (fun a b => VariantHash hash_string hash_int a =
                         VariantHash hash_string hash_int b)
             (fun m m' => forall acc, fold_left step m acc = fold_left step m' acc));
      auto.
    + intros p q m m' _ IH. simpl. apply IH.
    + intros k k' c m m1 m2 _ Hk _ IH acc.
      rewrite (hash_fold_Permutation
                 (Permutation_sym (Permutation_middle m1 m2 (k', c)))).
      simpl. rewrite <- IH. f_equal. unfold step, hash_step. simpl. now rewrite Hk.
Qed.
End HashFacts.

(** C7.  The element hash is consistent with the element equality: elements
    that [VariantEqual] accepts have the same [VariantHash].  The hash of a
    multiset is an XOR-fold over its entries, so structurally equal
    multisets, and in particular the same entries met in another order,
    have the same [MultiSetHash]. *)
Theorem hash_consistent (hash_string : string -> Z) (hash_int : Z -> Z) :
  (forall h a b, sound h a -> sound h b -> VariantEqual a b = true ->
     VariantHash hash_string hash_int a = VariantHash hash_string hash_int b) /\
  (forall m m', entries_equiv m m' ->
     MultiSetHash hash_string hash_int m = MultiSetHash hash_string hash_int m') /\
  (forall m m', Permutation m m' ->
     MultiSetHash hash_string hash_int m = MultiSetHash hash_string hash_int m') /\
  (forall m, MultiSetHash hash_string hash_int m =
     fold_right (fun elem hash_value =>
       Z.lxor (Z.lxor (VariantHash hash_string hash_int (fst elem))
                      (size_t_wrap (Z.shiftl (hash_int (snd elem)) 1)))
              hash_value) 0 m).
Proof.
  split; [| split; [| split]].
  - intros h a b Ha Hb Hab. apply VariantHash_same_value.
    now apply (VariantEqual_spec Ha Hb).
  - intros m m' H. apply (proj2 (hash_content_equiv hash_string hash_int) m m' H).
  - apply MultiSetHash_Permutation.
  - intros m. unfold MultiSetHash.
    rewrite hash_fold_xor. apply Z.lxor_0_l.
Qed.

Lemma hash_consistent_witness :
  let nested_ms := [(Label "element_1", 1); (Label "element_2", 1); (Label "element_3", 1)] in
  let nested_ms2 := [(Label "element_3", 1); (Label "element_1", 1); (Label "element_2", 1)] in
  let hash_string := fun s => Z.of_nat (String.length s) in
  let hash_int := fun c : Z => c in
  VariantEqual (Nested 1 nested_ms) (Nested 2 nested_ms2) = true /\
  VariantHash hash_string hash_int (Nested 1 nested_ms) =
  VariantHash hash_string hash_int (Nested 2 nested_ms2).
Proof.
  intros nested_ms nested_ms2 hash_string hash_int.
  split; [reflexivity |].
  pose (h := fun p : ptr => if Pos.eqb p 1 then nested_ms else nested_ms2).
  apply (proj1 (hash_consistent hash_string hash_int) h).
  - apply sound_Nested; [reflexivity | reflexivity |].
    intros x [<- | [<- | [<- | []]]]; constructor.
  - apply sound_Nested; [reflexivity | reflexivity |].
    intros x [<- | [<- | [<- | []]]]; constructor.
  - reflexivity.
Defined.

(** * Equality *)

(** C2.  Two multisets that each hold one nested multiset with the single
    label [x], allocated separately: the two keys are equal under
    [VariantEqual] and the maps hold the same pairs, yet [operator==] is
    false, because [std::unordered_map::operator==] compares the keys it has
    matched with [operator==] of [std::variant], that is by address.  The
    same shows one level down as [VariantEqual] being false. *)
Theorem operator_eq_compares_addresses :
  let nested := [(Label "x", 1)] in
  let A := [(Nested 1 nested, 1)] in
  let B := [(Nested 2 nested, 1)] in
  VariantEqual (Nested 1 nested) (Nested 2 nested) = true /\
  same_pairs A B = true /\
  operator_eq A B = false /\
  VariantEqual (Nested 3 A) (Nested 4 B) = false.
Proof. repeat split. Qed.

(** * Union: counts, commutativity, idempotence *)

Section UnorderedMapUnique.
Context {K : Type}.
Variable key_eq : K -> K -> bool.
Variable D : K -> Prop.
Hypothesis key_eq_sym :
  forall a b, D a -> D b -> key_eq a b = true -> key_eq b a = true.

Lemma unique_assign k v (m : list (K * Z)) :
  D k -> keys_in D m -> unique key_eq m = true ->
  unique key_eq (assign key_eq k v m) = true.
Proof.
  intros Hk Hm Hu.
  destruct (find key_eq k m) as [x |] eqn:E.
  - rewrite (unique_same_keys key_eq _ m); auto.
    apply assign_present_keys. congruence.
  - rewrite (assign_absent _ _ _ _ E). apply unique_app.
    split; [exact Hu | split; [reflexivity |]].
    intros x Hx. rewrite lookup_cons.
    apply find_None_lookup in E. rewrite lookup_None in E.
    destruct (key_eq (fst x) k) eqn:Exk; auto.
    apply key_eq_sym in Exk; auto. rewrite (E x Hx) in Exk. discriminate.
Qed.

Lemma assign_same k x (m : list (K * Z)) :
  find key_eq k m = Some x -> assign key_eq k (snd x) m = m.
Proof.
  induction m as [| [k' v'] m IH]; simpl; [discriminate |].
  destruct (key_eq k k').
  - now intros [= <-].
  - intros H. now rewrite IH.
Qed.
End UnorderedMapUnique.

Section Union.
Variable L : list Element.
Hypothesis HL : key_equivalence L.

Let D : Element -> Prop := fun x => In x L.

Lemma In_find x (R : MultiSet) :
  unique_keys R = true -> incl (keys R) L -> In x R ->
  find VariantEqual (fst x) R = Some x.
Proof.
  intros Hu HR Hx.
  assert (Hkx : In (fst x) L) by (apply HR; unfold keys; now apply in_map).
  apply find_stored; auto.
  - now apply (ke_refl HL).
  - intros y Hy. apply (ke_sym HL); auto.
    apply HR. unfold keys. now apply in_map.
Qed.

Lemma unique_plus_step R x :
  In (fst x) L -> incl (keys R) L -> unique_keys R = true ->
  unique_keys (plus_step R x) = true.
Proof.
  intros Hx HR Hu. unfold plus_step, unique_keys.
  destruct (find VariantEqual (fst x) R) as [[k c] |];
    (apply unique_assign with (D := D);
     [apply (ke_sym HL) | exact Hx | apply incl_keys_in; exact HR | exact Hu]).
Qed.

Lemma unique_operator_plus A B :
  incl (keys A) L -> incl (keys B) L -> unique_keys A = true ->
  unique_keys (operator_plus A B) = true.
Proof.
  intros HA HB Hu. unfold operator_plus.
  induction B as [| x B IH] using rev_ind; auto.
  apply (incl_keys_snoc (L := L)) in HB as [HB Hx].
  rewrite fold_left_snoc. apply unique_plus_step; auto.
  now apply operator_plus_keys.
Qed.

Lemma operator_plus_idempotent A :
  unique_keys A = true -> incl (keys A) L -> operator_plus A A = A.
Proof.
  intros Hu HA. unfold operator_plus.
  assert (H : forall l, incl l A -> fold_left plus_step l A = A).
  { induction l as [| x l IH]; intros Hl; auto. simpl.
    assert (Hx : In x A) by (apply Hl; now left).
    unfold plus_step at 2. rewrite (In_find x A Hu HA Hx).
    destruct x as [k c]. simpl fst. simpl snd. rewrite Z.max_id.
    pose proof (assign_same VariantEqual k A (In_find (k, c) A Hu HA Hx)) as Hs.
    simpl in Hs. rewrite Hs.
    apply IH. intros y Hy. apply Hl. now right. }
  apply H. apply incl_refl.
Qed.

Lemma pairs_included_counts R R' :
  unique_keys R = true -> incl (keys R) L ->
  (forall e, In e L -> count_of e R = count_of e R') ->
  pairs_included R R' = true.
Proof.
  intros Hu HR Hc. unfold pairs_included. apply forallb_forall. intros x Hx.
  assert (Hkx : In (fst x) L) by (apply HR; unfold keys; now apply in_map).
  specialize (Hc (fst x) Hkx).
  unfold count_of, lookup in Hc. rewrite (In_find x R Hu HR Hx) in Hc. simpl in Hc.
  destruct (find VariantEqual (fst x) R') as [y |]; [| discriminate].
  simpl in Hc. injection Hc as ->. apply Z.eqb_refl.
Qed.
End Union.

Section UnionEntries.
Variable L : list Element.
Hypothesis HL : key_equivalence L.

Lemma find_congr e e' (m : MultiSet) :
  In e L -> In e' L -> incl (keys m) L -> VariantEqual e e' = true ->
  find VariantEqual e m = find VariantEqual e' m.
Proof.
  intros He He' Hm Hee'.
  induction m as [| [k v] m IH]; auto.
  assert (Hk : In k L) by (apply Hm; now left).
  assert (Hm' : incl (keys m) L) by (intros x Hx; apply Hm; now right).
  simpl.
  rewrite (@key_eq_congr_l Element VariantEqual (fun x => In x L)
             (ke_sym HL) (ke_trans HL) e e' k He He' Hk Hee').
  now rewrite IH.
Qed.

(** In a map with unique keys, equivalent keys are one and the same entry. *)
Lemma unique_entry (R : MultiSet) x y :
  unique_keys R = true -> incl (keys R) L -> In x R -> In y R ->
  VariantEqual (fst x) (fst y) = true -> x = y.
Proof.
  intros Hu HR Hx Hy Hxy.
  pose proof (In_find HL x R Hu HR Hx) as Fx.
  pose proof (In_find HL y R Hu HR Hy) as Fy.
  rewrite (find_congr (fst x) (fst y) R) in Fx; auto.
  - congruence.
  - apply HR. unfold keys. now apply in_map.
  - apply HR. unfold keys. now apply in_map.
Qed.

(** Every entry of [A + B] is an entry of [B + A] when the keys that [A]
    and [B] share are the same objects. *)
Lemma operator_plus_incl A B :
  incl (keys A) L -> incl (keys B) L ->
  unique_keys A = true -> unique_keys B = true ->
  (forall k k', In k (keys A ++ keys B) -> In k' (keys A ++ keys B) ->
                VariantEqual k k' = true -> k = k') ->
  incl (operator_plus A B) (operator_plus B A).
Proof.
  intros HA HB HuA HuB Hsame [k c] Hx.
  assert (HAB : incl (keys (operator_plus A B)) L) by now apply operator_plus_keys.
  assert (HBA : incl (keys (operator_plus B A)) L) by now apply operator_plus_keys.
  assert (Hk : In k (keys (operator_plus A B)))
    by (unfold keys; now apply (in_map fst) in Hx).
  assert (HkL : In k L) by now apply HAB.
  pose proof (In_find HL (k, c) _ (unique_operator_plus HL A B HA HB HuA) HAB Hx) as F.
  assert (Hc : count_of k (operator_plus B A) = Some c).
  { rewrite (count_of_operator_plus HL B A) by assumption.
    simpl in F. apply find_Some_lookup in F. fold (count_of k (operator_plus A B)) in F.
    rewrite (count_of_operator_plus HL A B) in F by assumption.
    destruct (count_of k A), (count_of k B); auto. now rewrite Z.max_comm. }
  unfold count_of, lookup in Hc.
  destruct (find VariantEqual k (operator_plus B A)) as [[k' c'] |] eqn:F';
    [| discriminate].
  simpl in Hc. injection Hc as ->.
  apply find_Some_in in F' as [Hin' Hkk']. simpl in Hkk'.
  assert (Hk' : In k' (keys (operator_plus B A)))
    by (unfold keys; now apply (in_map fst) in Hin').
  assert (k = k'); [| now subst].
  assert (H1 : incl (keys (operator_plus A B)) (keys A ++ keys B))
    by (apply operator_plus_keys; [apply incl_appl | apply incl_appr];
        apply incl_refl).
  assert (H2 : incl (keys (operator_plus B A)) (keys B ++ keys A))
    by (apply operator_plus_keys; [apply incl_appl | apply incl_appr];
        apply incl_refl).
  apply Hsame; auto.
  specialize (H2 k' Hk'). apply in_app_or in H2. apply in_or_app. tauto.
Qed.
End UnionEntries.

(** On sound maps whose shared keys are the same objects, [A + B == B + A]
    holds for [operator==] itself. *)
Lemma operator_plus_comm_eq h A B :
  (forall k, In k (keys A ++ keys B) -> sound h k) ->
  unique_keys A = true -> unique_keys B = true ->
  (forall k k', In k (keys A ++ keys B) -> In k' (keys A ++ keys B) ->
                VariantEqual k k' = true -> k = k') ->
  operator_eq (operator_plus A B) (operator_plus B A) = true.
Proof.
  intros Hs HuA HuB Hsame.
  pose proof (@sound_key_equivalence h (keys A ++ keys B) Hs) as HL.
  assert (HA : incl (keys A) (keys A ++ keys B)) by (apply incl_appl, incl_refl).
  assert (HB : incl (keys B) (keys A ++ keys B)) by (apply incl_appr, incl_refl).
  assert (HAB : incl (keys (operator_plus A B)) (keys A ++ keys B))
    by now apply operator_plus_keys.
  assert (HBA : incl (keys (operator_plus B A)) (keys A ++ keys B))
    by now apply operator_plus_keys.
  assert (Hsound : forall R, incl (keys R) (keys A ++ keys B) ->
                             forall x, In x R -> sound h (fst x)).
  { intros R HR x Hx. apply Hs, HR. unfold keys. now apply in_map. }
  assert (Hnodup : forall R, incl (keys R) (keys A ++ keys B) ->
                             unique_keys R = true -> NoDup R).
  { intros R HR Hu. apply unique_NoDup with (key_eq := VariantEqual); auto.
    intros x Hx. apply (ke_refl HL). apply HR. unfold keys. now apply in_map. }
  assert (HuAB : unique_keys (operator_plus A B) = true)
    by (apply (unique_operator_plus HL); auto).
  assert (HuBA : unique_keys (operator_plus B A) = true)
    by (apply (unique_operator_plus HL); auto).
  assert (Hsame' : forall k k', In k (keys B ++ keys A) -> In k' (keys B ++ keys A) ->
                                VariantEqual k k' = true -> k = k').
  { intros k k' Hk Hk'. apply Hsame; apply in_or_app;
      [apply in_app_or in Hk | apply in_app_or in Hk']; tauto. }
  apply (proj2 (@operator_eq_Permutation h _ _ HuAB HuBA
                  (Hsound _ HAB) (Hsound _ HBA))).
  apply NoDup_Permutation; [apply Hnodup; auto | apply Hnodup; auto |].
  intros x. split.
  - apply (operator_plus_incl HL); auto.
  - apply (operator_plus_incl HL); auto.
Qed.

(** The law of union: for multisets [A], [B] and an element [e], the count
    of [e] in [A + B] is [max (countA e) (countB e)], a missing element
    counting 0.  Hence [A + B] and [B + A] give every element the same count
    and hold the same (element, count) pairs, and [operator==] itself
    accepts them when the keys the operands share are the same objects
    (always so for labels); and [A + A] is [A] itself. *)
Theorem operator_plus_max (A B : MultiSet) :
  key_equivalence (keys A ++ keys B) ->
  unique_keys A = true -> unique_keys B = true ->
  positive_counts A -> positive_counts B ->
  (forall e, key_equivalence (e :: keys A ++ keys B) ->
     count0 e (operator_plus A B) = Z.max (count0 e A) (count0 e B) /\
     count_of e (operator_plus A B) = count_of e (operator_plus B A)) /\
  same_pairs (operator_plus A B) (operator_plus B A) = true /\
  (forall h,
     (forall k, In k (keys A ++ keys B) -> sound h k) ->
     (forall k k', In k (keys A ++ keys B) -> In k' (keys A ++ keys B) ->
                   VariantEqual k k' = true -> k = k') ->
     operator_eq (operator_plus A B) (operator_plus B A) = true) /\
  operator_plus A A = A.
Proof.
  intros HL HuA HuB HpA HpB.
  assert (HA : incl (keys A) (keys A ++ keys B)) by (apply incl_appl, incl_refl).
  assert (HB : incl (keys B) (keys A ++ keys B)) by (apply incl_appr, incl_refl).
  assert (Hcomm : forall L e, key_equivalence L -> In e L ->
                    incl (keys A) L -> incl (keys B) L ->
                    count_of e (operator_plus A B) = count_of e (operator_plus B A)).
  { intros L e HL' He HA' HB'.
    rewrite !(count_of_operator_plus HL'); auto.
    destruct (count_of e A), (count_of e B); auto. now rewrite Z.max_comm. }
  split; [| split; [| split]].
  - intros e He.
    assert (HA' : incl (keys A) (e :: keys A ++ keys B)) by now apply incl_tl.
    assert (HB' : incl (keys B) (e :: keys A ++ keys B)) by now apply incl_tl.
    split.
    + unfold count0. rewrite (count_of_operator_plus He); auto; [| now left].
      destruct (count_of e A) as [a |] eqn:Ea, (count_of e B) as [b |] eqn:Eb; auto.
      * pose proof (count_of_positive e HpA Ea). lia.
      * pose proof (count_of_positive e HpB Eb). lia.
    + apply (Hcomm _ e He); auto. now left.
  - unfold same_pairs. apply andb_true_iff. split.
    + apply (pairs_included_counts HL).
      * now apply (unique_operator_plus HL).
      * now apply (operator_plus_keys (L := keys A ++ keys B)).
      * intros e He. now apply (Hcomm _ e HL).
    + apply (pairs_included_counts HL).
      * now apply (unique_operator_plus HL).
      * now apply (operator_plus_keys (L := keys A ++ keys B)).
      * intros e He. symmetry. now apply (Hcomm _ e HL).
  - intros h Hs Hsame. now apply (@operator_plus_comm_eq h).
  - apply (operator_plus_idempotent (L := keys A ++ keys B)); auto.
Qed.

Lemma operator_plus_max_witness :
  let A := [(Label "a", 3); (Nested 1 [(Label "x", 1)], 2)] in
  let B := [(Nested 2 [(Label "x", 1)], 5); (Label "b", 1)] in
  count0 (Nested 3 [(Label "x", 1)]) (operator_plus A B) = 5 /\
  count0 (Label "a") (operator_plus A B) = 3 /\
  count0 (Label "c") (operator_plus A B) = 0 /\
  same_pairs (operator_plus A B) (operator_plus B A) = true /\
  operator_plus A A = A.
Proof.
  intros A B.
  assert (HA : positive_counts A)
    by (repeat constructor; unfold positive_count, INT_MAX; simpl; lia).
  assert (HB : positive_counts B)
    by (repeat constructor; unfold positive_count, INT_MAX; simpl; lia).
  assert (HL : key_equivalence (keys A ++ keys B))
    by (apply key_equivalenceb_sound; reflexivity).
  destruct (@operator_plus_max A B HL eq_refl eq_refl HA HB)
    as (Hcount & Hcomm & _ & Hidem).
  split; [| split; [| split; [| split]]].
  - apply (Hcount (Nested 3 [(Label "x", 1)])).
    apply key_equivalenceb_sound. reflexivity.
  - apply (Hcount (Label "a")). apply key_equivalenceb_sound. reflexivity.
  - apply (Hcount (Label "c")). apply key_equivalenceb_sound. reflexivity.
  - exact Hcomm.
  - exact Hidem.
Defined.

(** C5.  Union gives every element the larger of its two counts
    ([operator_plus_max]), but the test [A + B == B + A] fails on two
    multisets that each hold a separately allocated nested multiset with
    the single label [x]: [A + B] keeps the key object of [A] and [B + A]
    that of [B], the two results hold the same (element, count) pairs, and
    [operator==], which compares nested keys by address, rejects them. *)
Theorem operator_plus_commuted_by_address :
  let nested := [(Label "x", 1)] in
  let A := [(Nested 1 nested, 1)] in
  let B := [(Nested 2 nested, 1)] in
  operator_plus A B = A /\
  operator_plus B A = B /\
  count0 (Nested 3 nested) (operator_plus A B) = 1 /\
  count0 (Nested 3 nested) (operator_plus B A) = 1 /\
  same_pairs (operator_plus A B) (operator_plus B A) = true /\
  operator_eq (operator_plus A B) (operator_plus B A) = false /\
  operator_eq (operator_plus A A) A = true.
Proof. repeat split. Qed.

(** * The reader keeps counts positive *)

Lemma skip_space_length t : (String.length (skip_space t) <= String.length t)%nat.
Proof.
  induction t as [| c t IH]; simpl; auto.
  destruct (isspace c); simpl; lia.
Qed.

Lemma sentry_len b s s' ok : sentry b s = (s', ok) -> (len s' <= len s)%nat.
Proof.
  unfold sentry, len. destruct (good s); [destruct b |].
  - intros [= <- _]. auto.
  - pose proof (skip_space_length (buf s)).
    destruct (skip_space (buf s)); intros [= <- _]; simpl in *; lia.
  - intros [= <- _]. auto.
Qed.

Lemma sentry_ok b s s' : sentry b s = (s', true) -> good s' = true.
Proof.
  unfold sentry. destruct (good s) eqn:G; [destruct b |].
  - intros H. inversion H. now subst.
  - destruct (skip_space (buf s)); intros H; inversion H. exact G.
  - discriminate.
Qed.

Lemma sentry_fail b s s' : sentry b s = (s', false) -> good s' = false.
Proof.
  unfold sentry. destruct (good s) eqn:G; [destruct b |].
  - discriminate.
  - destruct (skip_space (buf s)); intros H; inversion H.
    apply good_setstate_failbit.
  - intros H. inversion H. apply good_setstate_failbit.
Qed.

(** [is >> ch] either extracts nothing, leaving [ch] alone and the stream
    not good, or consumes at least one character and leaves the stream good. *)
Lemma extract_char_cases s ch s' ch' :
  extract_char s ch = (s', ch') ->
  (good s' = false /\ ch' = ch) \/ (good s' = true /\ (len s' < len s)%nat).
Proof.
  unfold extract_char.
  destruct (sentry false s) as [s1 [|]] eqn:E.
  - pose proof (sentry_len _ _ E) as Hlen.
    pose proof (sentry_ok _ _ E) as Hgood.
    destruct (buf s1) as [| c rest] eqn:Eb.
    + intros [= <- <-]. left. split; [apply good_setstate_failbit | reflexivity].
    + intros [= <- <-]. right. split; [exact Hgood |].
      unfold len in *. rewrite Eb in Hlen. simpl in *. lia.
  - intros [= <- <-]. left. split; [apply (sentry_fail _ _ E) | reflexivity].
Qed.

Lemma ws_len s : (len (ws s) <= len s)%nat.
Proof.
  unfold ws. destruct (sentry true s) as [s1 [|]] eqn:E.
  - pose proof (sentry_len _ _ E) as Hlen.
    pose proof (skip_space_length (buf s1)).
    unfold len in *. destruct (skip_space (buf s1)); simpl in *; lia.
  - apply (sentry_len _ _ E).
Qed.

Lemma peek_len s s' p : peek s = (s', p) -> (len s' <= len s)%nat.
Proof.
  unfold peek. destruct (sentry true s) as [s1 [|]] eqn:E.
  - pose proof (sentry_len _ _ E) as Hlen.
    destruct (buf s1) eqn:Eb; intros [= <- _]; auto.
  - intros [= <- _]. apply (sentry_len _ _ E).
Qed.

Lemma get_len s c s' c' : get s c = (s', c') -> (len s' <= len s)%nat.
Proof.
  unfold get. destruct (sentry true s) as [s1 [|]] eqn:E;
    pose proof (sentry_len _ _ E) as Hlen.
  - unfold len in *. destruct (buf s1) eqn:Eb; intros H; inversion H; subst;
      simpl in *; rewrite ?Eb; simpl; lia.
  - intros H; inversion H; subst. exact Hlen.
Qed.

Lemma extract_char_len s ch s' ch' :
  extract_char s ch = (s', ch') -> (len s' <= len s)%nat.
Proof.
  unfold extract_char. destruct (sentry false s) as [s1 [|]] eqn:E;
    pose proof (sentry_len _ _ E) as Hlen.
  - unfold len in *. destruct (buf s1) eqn:Eb; intros H; inversion H; subst;
      simpl in *; rewrite ?Eb; simpl; lia.
  - intros H; inversion H; subst. exact Hlen.
Qed.

Lemma label_cond_len s s' b : label_cond s = (s', b) -> (len s' <= len s)%nat.
Proof.
  unfold label_cond.
  destruct (peek s) as [s1 p1] eqn:E1. pose proof (peek_len _ E1).
  destruct (peek_is p1 ","); [intros [= <- _]; auto |].
  destruct (peek s1) as [s2 p2] eqn:E2. pose proof (peek_len _ E2).
  destruct (peek_is p2 "}"); [intros [= <- _]; lia |].
  destruct (peek s2) as [s3 p3] eqn:E3. pose proof (peek_len _ E3).
  destruct p3; intros [= <- _]; lia.
Qed.

Lemma label_loop_len fuel uninit s str s' str' :
  label_loop fuel uninit s str = Some (s', str') -> (len s' <= len s)%nat.
Proof.
  revert s str. induction fuel as [| fuel IH]; intros s str; [discriminate |].
  cbn [label_loop].
  destruct (label_cond s) as [s1 b] eqn:E1. pose proof (label_cond_len _ E1).
  destruct b.
  - destruct (get s1 uninit) as [s2 c] eqn:E2. pose proof (get_len _ _ E2).
    intros H'. apply IH in H'. lia.
  - intros [= <- _]. auto.
Qed.

Lemma operator_in_len fuel :
  (forall uninit s heap multiset s' heap' m',
      operator_in fuel uninit s heap multiset = Some (s', heap', m') ->
      (len s' <= len s)%nat) /\
  (forall uninit s heap ch elements multiset s' heap' m',
      in_loop fuel uninit s heap ch elements multiset = Some (s', heap', m') ->
      (len s' <= len s)%nat).
Proof.
  induction fuel as [| fuel [IHo IHl]]; [split; discriminate |].
  assert (Hparsed : forall uninit s1 heap r s2 heap2 element,
    (if peek_is r "{"
     then match operator_in fuel uninit s1 (Pos.succ heap) [] with
          | Some (s2, heap2, nested_multiset) =>
              Some (s2, heap2, Nested heap nested_multiset)
          | None => None
          end
     else match label_loop fuel uninit (ws s1) EmptyString with
          | Some (s2, str_element) => Some (s2, heap, Label str_element)
          | None => None
          end) = Some (s2, heap2, element) ->
    (len s2 <= len s1)%nat).
  { intros uninit s1 heap r s2 heap2 element.
    destruct (peek_is r "{").
    - destruct (operator_in fuel uninit s1 (Pos.succ heap) [])
        as [[[s2' heap2'] nested] |] eqn:E; [| discriminate].
      intros [= <- _ _]. apply (IHo _ _ _ _ _ _ _ E).
    - destruct (label_loop fuel uninit (ws s1) EmptyString)
        as [[s2' str] |] eqn:E; [| discriminate].
      intros [= <- _ _]. pose proof (label_loop_len _ _ _ _ E).
      pose proof (ws_len s1). lia. }
  split.
  - intros uninit s heap multiset s' heap' m'. cbn [operator_in].
    destruct (extract_char s uninit) as [s1 ch] eqn:E.
    pose proof (extract_char_len _ _ E).
    destruct (negb (Ascii.eqb ch "{")).
    + intros [= <- _ _]. unfold len in *. simpl. lia.
    + intros H'. apply IHl in H'. lia.
  - intros uninit s heap ch elements multiset s' heap' m'. cbn [in_loop].
    destruct (peek s) as [s1 p] eqn:Ep. pose proof (peek_len _ Ep).
    match goal with
    | |- match ?X with _ => _ end = _ -> _ =>
        destruct X as [[[s2 heap2] element] |] eqn:Eparsed; [| discriminate]
    end.
    pose proof (Hparsed _ _ _ _ _ _ _ Eparsed).
    destruct (extract_char (ws s2) ch) as [s3 ch1] eqn:E.
    pose proof (extract_char_len _ _ E). pose proof (ws_len s2).
    destruct (Ascii.eqb ch1 "}").
    + intros [= <- _ _]. lia.
    + destruct (negb (Ascii.eqb ch1 ",")).
      * intros [= <- _ _]. unfold len in *. simpl. lia.
      * intros H'. apply IHl in H'. lia.
Qed.

Lemma modify_values_weaken {K : Type} (key_eq : K -> K -> bool)
      (P P' : Z -> Prop) k f (m : list (K * Z)) :
  (forall v, P v -> P' v) -> (forall v, P v -> P' (f v)) ->
  Forall (fun x => P (snd x)) m ->
  Forall (fun x => P' (snd x)) (modify key_eq k f m).
Proof.
  intros H1 H2. induction 1 as [| [k' v'] m Hx Hm IH]; simpl.
  - constructor.
  - destruct (key_eq k k'); constructor; simpl; auto.
    apply Forall_impl with (P := fun x => P (snd x)); auto.
Qed.

Lemma subscript_incr_within n n' e elements :
  (n' < n)%nat -> Z.of_nat n <= INT_MAX ->
  Forall (fun x => within n (snd x)) elements ->
  Forall (fun x => within n' (snd x)) (subscript_incr VariantEqual e elements).
Proof.
  intros Hn Hmax Hall. unfold subscript_incr.
  destruct (find VariantEqual e elements).
  - apply modify_values_weaken with (P := within n); auto.
    + unfold within. intros v [H1 H2]. lia.
    + unfold within. intros v [H1 H2].
      rewrite int_wrap_id; unfold in_int, INT_MIN, INT_MAX in *; lia.
  - apply Forall_app. split.
    + apply Forall_impl with (P := fun x => within n (snd x)); auto.
      unfold within. intros x [H1 H2]. lia.
    + constructor; [| constructor]. unfold within. simpl snd.
      rewrite int_wrap_id; unfold in_int, INT_MIN, INT_MAX in *; lia.
Qed.

Lemma within_positive n m :
  Forall (fun x => within n (snd x)) m -> positive_counts m.
Proof.
  apply Forall_impl. unfold within, positive_count. intros x [H1 H2]. lia.
Qed.

Lemma operator_in_positive fuel :
  (forall uninit s heap multiset s' heap' m',
      operator_in fuel uninit s heap multiset = Some (s', heap', m') ->
      positive_counts multiset -> Z.of_nat (len s) <= INT_MAX ->
      positive_counts m') /\
  (forall uninit s heap ch elements multiset s' heap' m',
      in_loop fuel uninit s heap ch elements multiset = Some (s', heap', m') ->
      ch <> "}"%char ->
      positive_counts multiset -> Z.of_nat (len s) <= INT_MAX ->
      Forall (fun x => within (len s) (snd x)) elements ->
      positive_counts m').
Proof.
  induction fuel as [| fuel [IHo IHl]]; [split; discriminate |].
  split.
  - intros uninit s heap multiset s' heap' m'. cbn [operator_in].
    destruct (extract_char s uninit) as [s1 ch] eqn:E.
    pose proof (extract_char_len _ _ E).
    destruct (Ascii.eqb ch "{") eqn:Ech; simpl.
    + intros H' Hp Hlen. apply (IHl _ _ _ _ _ _ _ _ _ H'); auto; [| lia].
      apply Ascii.eqb_eq in Ech. subst. discriminate.
    + now intros [= _ _ <-].
  - intros uninit s heap ch elements multiset s' heap' m'. cbn [in_loop].
    destruct (peek s) as [s1 p] eqn:Ep. pose proof (peek_len _ Ep).
    match goal with
    | |- match ?X with _ => _ end = _ -> _ =>
        destruct X as [[[s2 heap2] element] |] eqn:Eparsed; [| discriminate]
    end.
    assert (Hs2 : (len s2 <= len s1)%nat).
    { destruct (peek_is p "{").
      - destruct (operator_in fuel uninit s1 (Pos.succ heap) [])
          as [[[s2' heap2'] nested] |] eqn:E; [| discriminate].
        injection Eparsed as <- _ _.
        apply (proj1 (operator_in_len fuel) _ _ _ _ _ _ _ E).
      - destruct (label_loop fuel uninit (ws s1) EmptyString)
          as [[s2' str] |] eqn:E; [| discriminate].
        injection Eparsed as <- _ _. pose proof (label_loop_len _ _ _ _ E).
        pose proof (ws_len s1). lia. }
    clear Eparsed.
    destruct (extract_char (ws s2) ch) as [s3 ch1] eqn:E.
    pose proof (ws_len s2).
    intros Hres Hch Hp Hlen Hall.
    destruct (extract_char_cases _ _ E) as [[Hbad ->] | [Hgood Hlt]].
    + destruct (Ascii.eqb ch "}") eqn:E1;
        [apply Ascii.eqb_eq in E1; contradiction |].
      destruct (Ascii.eqb ch ",") eqn:E2; simpl in Hres.
      * apply Ascii.eqb_eq in E2. subst ch.
        rewrite in_loop_stuck in Hres by assumption. discriminate.
      * now injection Hres as _ _ <-.
    + assert (Hall1 : Forall (fun x => within (len s3) (snd x))
                             (subscript_incr VariantEqual element elements))
        by (apply subscript_incr_within with (n := len s); auto; lia).
      destruct (Ascii.eqb ch1 "}") eqn:E1.
      * injection Hres as _ _ <-. unfold SetElements.
        apply (within_positive Hall1).
      * destruct (Ascii.eqb ch1 ",") eqn:E2; simpl in Hres.
        -- apply (IHl _ _ _ _ _ _ _ _ _ Hres); auto; [| lia].
           apply Ascii.eqb_eq in E2. subst. discriminate.
        -- now injection Hres as _ _ <-.
Qed.

(** ** A failed read leaves the target alone *)

Lemma good_not_fail s : good s = true -> fail s = false.
Proof.
  unfold good, fail. destruct (eofbit s), (failbit s); simpl; congruence.
Qed.

Lemma operator_in_failed fuel :
  (forall uninit s heap multiset s' heap' m',
      operator_in fuel uninit s heap multiset = Some (s', heap', m') ->
      fail s' = true -> m' = multiset) /\
  (forall uninit s heap ch elements multiset s' heap' m',
      in_loop fuel uninit s heap ch elements multiset = Some (s', heap', m') ->
      ch <> "}"%char -> fail s' = true -> m' = multiset).
Proof.
  induction fuel as [| fuel [IHo IHl]]; [split; discriminate |].
  split.
  - intros uninit s heap multiset s' heap' m'. cbn [operator_in].
    destruct (extract_char s uninit) as [s1 ch] eqn:E.
    destruct (Ascii.eqb ch "{") eqn:Ech; simpl.
    + intros H' Hf. apply (IHl _ _ _ _ _ _ _ _ _ H'); auto.
      apply Ascii.eqb_eq in Ech. subst. discriminate.
    + now intros [= _ _ <-].
  - intros uninit s heap ch elements multiset s' heap' m'. cbn [in_loop].
    destruct (peek s) as [s1 p].
    match goal with
    | |- match ?X with _ => _ end = _ -> _ =>
        destruct X as [[[s2 heap2] element] |]; [| discriminate]
    end.
    destruct (extract_char (ws s2) ch) as [s3 ch1] eqn:E.
    intros Hres Hch Hf.
    destruct (extract_char_cases _ _ E) as [[Hbad ->] | [Hgood Hlt]].
    + destruct (Ascii.eqb ch "}") eqn:E1;
        [apply Ascii.eqb_eq in E1; contradiction |].
      destruct (Ascii.eqb ch ",") eqn:E2; simpl in Hres.
      * apply Ascii.eqb_eq in E2. subst ch.
        rewrite in_loop_stuck in Hres by assumption. discriminate.
      * now injection Hres as _ _ <-.
    + destruct (Ascii.eqb ch1 "}") eqn:E1.
      * injection Hres as <- _ _. rewrite (good_not_fail _ Hgood) in Hf.
        discriminate.
      * destruct (Ascii.eqb ch1 ",") eqn:E2; simpl in Hres.
        -- apply (IHl _ _ _ _ _ _ _ _ _ Hres); auto.
           apply Ascii.eqb_eq in E2. subst. discriminate.
        -- now injection Hres as _ _ <-.
Qed.

(** Whenever the reader returns with the stream failed, the target multiset
    is the one it was given: no partial multiset is stored. *)
Theorem operator_in_no_partial_result fuel uninit s heap multiset s' heap' m' :
  operator_in fuel uninit s heap multiset = Some (s', heap', m') ->
  fail s' = true -> m' = multiset.
Proof. apply (proj1 (operator_in_failed fuel)). Qed.

Lemma operator_in_no_partial_result_witness :
  match operator_in 20 " " (istringstream "{{a}b}") 1 [(Label "old", 5)] with
  | Some (s', _, m') => fail s' = true /\ m' = [(Label "old", 5)]
  | None => False
  end.
Proof.
  destruct (operator_in 20 " " (istringstream "{{a}b}") 1 [(Label "old", 5)])
    as [[[s' heap'] m'] |] eqn:E.
  - assert (Hf : fail s' = true)
      by (vm_compute in E; injection E as <- _ _; reflexivity).
    split; [exact Hf |].
    eapply operator_in_no_partial_result; [exact E | exact Hf].
  - vm_compute in E. discriminate E.
Defined.

(** * C6: the invariant on stored counts *)

(** C6, as stated, fails: [SetElements] stores whatever map it is given,
    here one with a count of 0. *)
Lemma SetElements_stores_zero_count :
  positive_counts [] /\
  SetElements [(Label "a", 0)] [] = [(Label "a", 0)] /\
  ~ positive_counts (SetElements [(Label "a", 0)] []).
Proof.
  split; [constructor | split; [reflexivity |]].
  intros H. inversion H as [| x l Hx Hl]. unfold positive_count in Hx.
  simpl in Hx. lia.
Qed.

(** C6, amended.  Starting from multisets whose counts all lie in
    [1, INT_MAX]: [AddElement] (of an element whose count is below
    [INT_MAX]), [RemoveElement], the operators [+], [*], [-] with their
    compound forms, [BuildBoolean] and a successful or failed parse (of a
    text of at most [INT_MAX] characters) leave no count below 1.
    [SetElements] installs the map it is given unchanged, so after it the
    invariant holds exactly when that map satisfies it. *)
Theorem counts_stay_positive (A B : MultiSet) (e : Element) :
  positive_counts A -> positive_counts B ->
  (count0 e A < INT_MAX -> positive_counts (AddElement e A)) /\
  positive_counts (fst (RemoveElement e A)) /\
  positive_counts (operator_plus A B) /\
  positive_counts (operator_plus_assign A B) /\
  positive_counts (operator_times A B) /\
  positive_counts (operator_times_assign A B) /\
  positive_counts (operator_minus A B) /\
  positive_counts (operator_minus_assign A B) /\
  positive_counts (BuildBoolean A) /\
  (forall elements,
      positive_counts (SetElements elements A) <-> positive_counts elements) /\
  (forall fuel uninit text heap s' heap' A',
      Z.of_nat (String.length text) <= INT_MAX ->
      operator_in fuel uninit (istringstream text) heap A = Some (s', heap', A') ->
      positive_counts A').
Proof.
  intros HA HB. repeat split.
  - now apply positive_AddElement.
  - now apply positive_RemoveElement.
  - now apply positive_operator_plus.
  - now apply positive_operator_plus.
  - now apply positive_operator_times.
  - now apply positive_operator_times.
  - now apply positive_operator_minus.
  - now apply positive_operator_minus.
  - apply positive_BuildBoolean.
  - auto.
  - auto.
  - intros fuel uninit text heap s' heap' A' Hlen Hres.
    apply (proj1 (operator_in_positive fuel) _ _ _ _ _ _ _ Hres); auto.
Qed.

Lemma counts_stay_positive_witness :
  let A := [(Label "a", 1); (Nested 1 [(Label "x", 1)], 2)] in
  let B := [(Label "a", 3); (Label "b", 1)] in
  positive_counts (AddElement (Label "a") A) /\
  positive_counts (fst (RemoveElement (Label "a") A)) /\
  positive_counts (operator_minus A B) /\
  (forall s' heap' A',
      operator_in 20 " " (istringstream "{a, a, {b}}") 2 A = Some (s', heap', A') ->
      positive_counts A').
Proof.
  intros A B.
  assert (HA : positive_counts A)
    by (repeat constructor; unfold positive_count, INT_MAX; simpl; lia).
  assert (HB : positive_counts B)
    by (repeat constructor; unfold positive_count, INT_MAX; simpl; lia).
  pose proof (@counts_stay_positive A B (Label "a") HA HB)
    as (Hadd & Hremove & _ & _ & _ & _ & Hminus & _ & _ & _ & Hparse).
  split; [| split; [| split]].
  - apply Hadd. reflexivity.
  - exact Hremove.
  - exact Hminus.
  - intros s' heap' A'. apply Hparse. vm_compute. discriminate.
Defined.

(** * Round trip through the text form *)

Unset Implicit Arguments.

Lemma append_nil_r (s : string) : (s ++ EmptyString)%string = s.
Proof. induction s as [| c s IH]; simpl; congruence. Qed.

Lemma append_assoc (s t u : string) : ((s ++ t) ++ u)%string = (s ++ (t ++ u))%string.
Proof. induction s as [| c s IH]; simpl; congruence. Qed.

Lemma append_length (s t : string) :
  String.length (s ++ t) = (String.length s + String.length t)%nat.
Proof. induction s as [| c s IH]; simpl; congruence. Qed.

Section ReadLabels.
Variable uninit : ascii.

Lemma label_cond_stop c tl :
  c = ","%char \/ c = "}"%char ->
  label_cond (istringstream (String c tl)) = (istringstream (String c tl), false).
Proof. intros [-> | ->]; reflexivity. Qed.

Lemma label_cond_go c tl :
  plain_char c = true ->
  label_cond (istringstream (String c tl)) = (istringstream (String c tl), true).
Proof.
  unfold plain_char. rewrite andb_true_iff, !negb_true_iff. intros [H1 H2].
  unfold label_cond, peek, sentry, peek_is. simpl. now rewrite H1, H2.
Qed.

Lemma label_loop_reads s : forall str c tl fuel,
  all_plain s = true -> c = ","%char \/ c = "}"%char ->
  (String.length s < fuel)%nat ->
  label_loop fuel uninit (istringstream (s ++ String c tl)) str =
  Some (istringstream (String c tl), (str ++ s)%string).
Proof.
  induction s as [| a s IH]; intros str c tl fuel Hs Hc Hfuel;
    (destruct fuel as [| fuel]; [simpl in Hfuel; lia |]); cbn [label_loop].
  - simpl append. rewrite (label_cond_stop c tl Hc). now rewrite append_nil_r.
  - simpl in Hs. apply andb_true_iff in Hs as [Ha Hs].
    change (String a s ++ String c tl)%string with (String a (s ++ String c tl)).
    rewrite (label_cond_go a _ Ha).
    change (get (istringstream (String a (s ++ String c tl))) uninit)
      with (istringstream (s ++ String c tl), a).
    cbv iota beta.
    rewrite IH; auto; [| simpl in Hfuel; lia].
    now rewrite append_assoc.
Qed.
End ReadLabels.

Section ReadLoop.
Variable uninit : ascii.
Variable heap : ptr.
Variable multiset : MultiSet.

Lemma separator_facts c :
  c = ","%char \/ c = "}"%char ->
  isspace c = false /\ Ascii.eqb c "{" = false.
Proof. intros [-> | ->]; split; reflexivity. Qed.

(** The text in front of the reader at the start of a round: an optional
    space, the label, the separator.  It starts with a character other than
    ['{'], and skipping white space leaves the label in front. *)
Lemma round_text pre s c tl :
  pre = EmptyString \/ pre = " "%string -> plain_label s = true ->
  c = ","%char \/ c = "}"%char ->
  exists h X,
    (pre ++ s ++ String c tl)%string = String h X /\
    Ascii.eqb h "{" = false /\
    exists a Y, skip_space (String h X) = String a Y /\
                String a Y = (s ++ String c tl)%string.
Proof.
  intros Hpre Hs Hc. destruct (separator_facts c Hc) as [Hsp Hbr].
  unfold plain_label in Hs. apply andb_true_iff in Hs as [_ Hs].
  assert (Hskip : exists a Y, skip_space (s ++ String c tl) = String a Y /\
                               String a Y = (s ++ String c tl)%string).
  { destruct s as [| a s]; simpl.
    - rewrite Hsp. eauto.
    - apply andb_true_iff in Hs as [Ha _]. apply negb_true_iff in Ha.
      rewrite Ha. eauto. }
  destruct Hpre as [-> | ->].
  - destruct s as [| a s].
    + exists c, tl. split; [reflexivity | split; [exact Hbr | exact Hskip]].
    + exists a, (s ++ String c tl)%string.
      split; [reflexivity | split; [| exact Hskip]].
      apply andb_true_iff in Hs as [_ Ha]. now apply negb_true_iff in Ha.
  - exists " "%char, (s ++ String c tl)%string.
    split; [reflexivity | split; [reflexivity | exact Hskip]].
Qed.

Lemma peek_istringstream h X :
  peek (istringstream (String h X)) = (istringstream (String h X), Some h).
Proof. reflexivity. Qed.

Lemma ws_istringstream t a Y :
  skip_space t = String a Y -> ws (istringstream t) = istringstream (String a Y).
Proof. intros H. unfold ws. simpl. now rewrite H. Qed.

Lemma extract_char_separator c tl ch :
  c = ","%char \/ c = "}"%char ->
  extract_char (ws (istringstream (String c tl))) ch = (istringstream tl, c).
Proof. intros [-> | ->]; reflexivity. Qed.

(** One round of the reader's loop on a label. *)
Lemma in_loop_label_round fuel pre s c tl ch elements :
  pre = EmptyString \/ pre = " "%string -> plain_label s = true ->
  c = ","%char \/ c = "}"%char ->
  (String.length s < fuel)%nat ->
  in_loop (S fuel) uninit (istringstream (pre ++ s ++ String c tl)) heap ch
          elements multiset =
  if Ascii.eqb c "}"
  then Some (istringstream tl, heap, subscript_incr VariantEqual (Label s) elements)
  else in_loop fuel uninit (istringstream tl) heap ","
               (subscript_incr VariantEqual (Label s) elements) multiset.
Proof.
  intros Hpre Hs Hc Hfuel.
  destruct (round_text pre s c tl Hpre Hs Hc)
    as (h & X & -> & Hh & a & Y & Hskip & HaY).
  cbn [in_loop]. rewrite peek_istringstream. cbv beta iota zeta.
  unfold peek_is at 1. rewrite Hh.
  rewrite (ws_istringstream _ a Y Hskip), HaY.
  unfold plain_label in Hs. apply andb_true_iff in Hs as [Hplain _].
  rewrite (label_loop_reads uninit s EmptyString c tl fuel Hplain Hc Hfuel).
  cbv beta iota zeta. simpl (EmptyString ++ s)%string.
  rewrite (extract_char_separator c tl ch Hc).
  destruct Hc as [-> | ->]; reflexivity.
Qed.

Lemma sep_text_cons_tail s' l T :
  (sep_text false (s' :: l) ++ T)%string =
  String "," (" " ++ s' ++ sep_text false l ++ T)%string.
Proof. simpl. now rewrite append_assoc. Qed.

(** The loop on a whole list of labels. *)
Lemma in_loop_labels l : forall s pre elements fuel ch rest,
  pre = EmptyString \/ pre = " "%string ->
  plain_label s = true -> Forall (fun t => plain_label t = true) l ->
  (String.length (pre ++ s ++ sep_text false l ++ "}" ++ rest) < fuel)%nat ->
  in_loop fuel uninit
          (istringstream (pre ++ s ++ sep_text false l ++ "}" ++ rest)) heap ch
          elements multiset =
  Some (istringstream rest, heap, count_labels (s :: l) elements).
Proof.
  induction l as [| s' l IH]; intros s pre elements fuel ch rest Hpre Hs Hl Hfuel;
    (destruct fuel as [| fuel]; [lia |]).
  - simpl sep_text. simpl (EmptyString ++ _)%string.
    rewrite !append_length in Hfuel. simpl in Hfuel.
    rewrite (in_loop_label_round fuel pre s "}" rest ch elements); auto.
    lia.
  - inversion Hl as [| ? ? Hs' Hl']; subst.
    rewrite sep_text_cons_tail in *.
    rewrite (in_loop_label_round fuel pre s ","
               (" " ++ s' ++ sep_text false l ++ "}" ++ rest)%string ch elements);
      auto.
    + change (Ascii.eqb "," "}") with false. cbv iota.
      rewrite (IH s' " "%string); auto.
      rewrite !append_length in Hfuel. simpl in Hfuel.
      rewrite !append_length in Hfuel. simpl in Hfuel.
      rewrite !append_length. simpl. lia.
    + rewrite !append_length in Hfuel. simpl in Hfuel. lia.
Qed.
End ReadLoop.

(** ** What the writer emits for a multiset of labels *)

Lemma emit_sep_text l : forall os first,
  emit l (os, first) = ((os ++ sep_text first l)%string, first && is_nil l).
Proof.
  induction l as [| s l IH]; intros os first; simpl.
  - now rewrite append_nil_r, andb_true_r.
  - unfold emit in IH. rewrite IH. rewrite andb_false_r. f_equal.
    destruct first; simpl; now rewrite !append_assoc.
Qed.

Lemma emit_repeat s c n st :
  Nat.iter n (out_occurrence out_variant (Label s, c)) st = emit (repeat s n) st.
Proof.
  revert st. induction n as [| n IH]; intros st; [reflexivity |].
  rewrite Nat.iter_succ_r, IH. reflexivity.
Qed.

Lemma plain_labels_only_cons x m :
  plain_labels_only (x :: m) = true ->
  (exists s, fst x = Label s /\ plain_label s = true) /\
  plain_labels_only m = true.
Proof.
  unfold plain_labels_only. simpl. rewrite andb_true_iff. intros [Hx Hm].
  split; auto. destruct (fst x) as [s | p n]; [eauto | discriminate].
Qed.

Lemma out_entries_labels m : forall st,
  plain_labels_only m = true ->
  out_entries out_variant m st = emit (occurrences m) st.
Proof.
  induction m as [| [k c] m IH]; intros st Hm; [reflexivity |].
  apply plain_labels_only_cons in Hm as [(s & Hk & _) Hm]. simpl in Hk. subst k.
  unfold out_entries in *. simpl fold_left. rewrite IH by assumption.
  unfold occurrences. simpl flat_map. unfold emit at 2. rewrite fold_left_app.
  fold (emit (repeat s (Z.to_nat c)) st). now rewrite emit_repeat.
Qed.

Lemma operator_out_labels m :
  plain_labels_only m = true ->
  operator_out EmptyString m =
  String "{" (sep_text true (occurrences m) ++ "}")%string.
Proof.
  intros Hm. unfold operator_out, GetElements.
  rewrite (out_entries_labels m _ Hm), emit_sep_text. reflexivity.
Qed.

Lemma occurrences_plain m :
  plain_labels_only m = true ->
  Forall (fun t => plain_label t = true) (occurrences m).
Proof.
  induction m as [| [k c] m IH]; intros Hm; [constructor |].
  apply plain_labels_only_cons in Hm as [(s & Hk & Hs) Hm]. simpl in Hk. subst k.
  unfold occurrences. simpl flat_map. apply Forall_app. split; auto.
  apply Forall_forall. intros t Ht. apply repeat_spec in Ht. now subst.
Qed.

(** ** Counting the labels read back *)

Lemma VariantEqual_Label_sym s k :
  VariantEqual (Label s) k = VariantEqual k (Label s).
Proof. destruct k; simpl; auto. apply String.eqb_sym. Qed.

Lemma find_app_absent {K : Type} (key_eq : K -> K -> bool) k (m1 m2 : list (K * Z)) :
  find key_eq k m1 = None -> find key_eq k (m1 ++ m2) = find key_eq k m2.
Proof.
  induction m1 as [| [k' v] m1 IH]; simpl; auto.
  destruct (key_eq k k'); [discriminate | auto].
Qed.

Lemma modify_app_absent {K : Type} (key_eq : K -> K -> bool) k f
      (m1 m2 : list (K * Z)) :
  find key_eq k m1 = None ->
  modify key_eq k f (m1 ++ m2) = m1 ++ modify key_eq k f m2.
Proof.
  induction m1 as [| [k' v] m1 IH]; simpl; auto.
  destruct (key_eq k k'); [discriminate |].
  intros H. now rewrite IH.
Qed.

Lemma count_labels_app l1 l2 elements :
  count_labels (l1 ++ l2) elements = count_labels l2 (count_labels l1 elements).
Proof. unfold count_labels. apply fold_left_app. Qed.

Lemma count_labels_repeat s n m1 :
  find VariantEqual (Label s) m1 = None ->
  Z.of_nat (S n) <= INT_MAX ->
  count_labels (repeat s (S n)) m1 = m1 ++ [(Label s, Z.of_nat (S n))].
Proof.
  intros Hnone. induction n as [| n IH]; intros Hmax.
  - unfold count_labels. simpl. unfold subscript_incr. now rewrite Hnone.
  - change (repeat s (S (S n))) with (s :: repeat s (S n)).
    rewrite repeat_cons, count_labels_app, IH by lia.
    unfold count_labels. simpl fold_left. unfold subscript_incr.
    rewrite (find_app_absent VariantEqual _ _ _ Hnone). simpl find.
    rewrite String.eqb_refl.
    rewrite (modify_app_absent VariantEqual _ _ _ _ Hnone). simpl modify.
    rewrite String.eqb_refl. do 3 f_equal.
    rewrite int_wrap_id; unfold in_int, INT_MIN, INT_MAX in *; lia.
Qed.

Lemma count_labels_occurrences m2 : forall m1,
  unique_keys (m1 ++ m2) = true -> plain_labels_only m2 = true ->
  positive_counts m2 ->
  count_labels (occurrences m2) m1 = m1 ++ m2.
Proof.
  induction m2 as [| [k c] m2 IH]; intros m1 Hu Hl Hp.
  - simpl. now rewrite app_nil_r.
  - apply plain_labels_only_cons in Hl as [(s & Hk & _) Hl]. simpl in Hk. subst k.
    inversion Hp as [| ? ? Hc Hp']; subst. unfold positive_count in Hc. simpl in Hc.
    unfold occurrences. simpl flat_map. rewrite count_labels_app.
    fold (occurrences m2).
    destruct (Z.to_nat c) as [| n] eqn:En; [lia |].
    rewrite count_labels_repeat.
    + rewrite <- En, Z2Nat.id by lia.
      rewrite IH; auto.
      * now rewrite <- app_assoc.
      * now rewrite <- app_assoc.
    + unfold unique_keys in Hu. apply unique_app in Hu as (_ & _ & Hx).
      apply find_lookup. apply lookup_None. intros x Hin.
      specialize (Hx x Hin). rewrite lookup_cons in Hx.
      rewrite VariantEqual_Label_sym.
      destruct (VariantEqual (fst x) (Label s)); [discriminate | reflexivity].
    + rewrite <- En, Z2Nat.id by lia. lia.
Qed.

Lemma sound_label_entries h m :
  plain_labels_only m = true -> forall x, In x m -> sound h (fst x).
Proof.
  unfold plain_labels_only. rewrite forallb_forall. intros H x Hx.
  specialize (H x Hx). destruct (fst x); [constructor | discriminate].
Qed.

Lemma operator_eq_refl_labels m :
  plain_labels_only m = true -> unique_keys m = true -> operator_eq m m = true.
Proof.
  intros Hl Hu.
  apply (@operator_eq_Permutation (fun _ => []) m m Hu Hu); auto.
  - now apply sound_label_entries.
  - now apply sound_label_entries.
Qed.

(** ** C3 *)

(** C3, as stated, fails.  The text form has no escape: a label with a
    comma in it reads back as two labels, and white space in front of a
    label is skipped.  Besides, the empty multiset is written as [{}], which
    reads back as the multiset holding the empty label once; and a nested
    multiset that is not the first element is written after a comma and a
    space, and the reader, which looks for ['{'] before it skips white
    space, reads it back as a label. *)
Lemma roundtrip_fails :
  (let m := [(Label "a,b", 1)] in
   operator_out EmptyString m = "{a,b}"%string /\
   operator_in 9 " " (istringstream "{a,b}") 1 [] =
     Some (istringstream EmptyString, 1%positive, [(Label "a", 1); (Label "b", 1)]) /\
   operator_eq [(Label "a", 1); (Label "b", 1)] m = false /\
   same_pairs [(Label "a", 1); (Label "b", 1)] m = false) /\
  (let m := [(Label " a", 1)] in
   operator_out EmptyString m = "{ a}"%string /\
   operator_in 9 " " (istringstream "{ a}") 1 [] =
     Some (istringstream EmptyString, 1%positive, [(Label "a", 1)]) /\
   operator_eq [(Label "a", 1)] m = false /\
   same_pairs [(Label "a", 1)] m = false) /\
  (operator_out EmptyString [] = "{}"%string /\
   (forall fuel r,
       operator_in fuel " " (istringstream "{}") 1 [] = Some r ->
       r = (istringstream EmptyString, 1%positive, [(Label EmptyString, 1)])) /\
   operator_in 3 " " (istringstream "{}") 1 [] =
     Some (istringstream EmptyString, 1%positive, [(Label EmptyString, 1)]) /\
   operator_eq [(Label EmptyString, 1)] [] = false /\
   same_pairs [(Label EmptyString, 1)] [] = false) /\
  (let m := [(Label "a", 1); (Nested 1 [(Label "b", 1)], 1)] in
   operator_out EmptyString m = "{a, {b}}"%string /\
   operator_in 9 " " (istringstream "{a, {b}}") 2 [] =
     Some (istringstream "}", 2%positive, [(Label "a", 1); (Label "{b", 1)]) /\
   operator_eq [(Label "a", 1); (Label "{b", 1)] m = false /\
   same_pairs [(Label "a", 1); (Label "{b", 1)] m = false).
Proof.
  split; [repeat split | split; [repeat split | split; [| repeat split]]].
  split; [reflexivity | split; [| repeat split]].
  intros fuel r Hr.
  eapply operator_in_det; [exact Hr | instantiate (1 := 3%nat); reflexivity].
Qed.

(** C3, amended.  For a non-empty multiset that holds only labels, each
    free of [','] and ['}'] and starting with neither white space nor
    ['{'], with unique keys and counts in [1, INT_MAX]: reading the text
    written for it succeeds, given fuel beyond the length of the text, and
    yields a multiset equal to it under [operator==]. *)
Theorem roundtrip_labels (m : MultiSet) (uninit : ascii) (heap : ptr)
        (target : MultiSet) (fuel : nat) :
  m <> [] -> plain_labels_only m = true -> unique_keys m = true ->
  positive_counts m ->
  (String.length (operator_out EmptyString m) < fuel)%nat ->
  exists s' m',
    operator_in fuel uninit (istringstream (operator_out EmptyString m)) heap target =
      Some (s', heap, m') /\
    fail s' = false /\ operator_eq m' m = true.
Proof.
  intros Hne Hl Hu Hp Hfuel.
  exists (istringstream EmptyString), m.
  split; [| split; [reflexivity | now apply operator_eq_refl_labels]].
  rewrite (operator_out_labels m Hl) in *.
  pose proof (occurrences_plain m Hl) as Hplain.
  pose proof (count_labels_occurrences m [] Hu Hl Hp) as Hcount.
  destruct (occurrences m) as [| s l] eqn:Eocc.
  - exfalso. destruct m as [| [k c] m]; [congruence |].
    inversion Hp as [| ? ? Hc _]; subst. unfold positive_count in Hc. simpl in Hc.
    unfold occurrences in Eocc. simpl in Eocc.
    destruct (Z.to_nat c) eqn:En; [lia | discriminate].
  - inversion Hplain as [| ? ? Hs Hl']; subst.
    destruct fuel as [| fuel]; [lia |].
    cbn [operator_in].
    change (extract_char (istringstream (String "{" (sep_text true (s :: l) ++ "}"))) uninit)
      with (istringstream (sep_text true (s :: l) ++ "}"), "{"%char).
    cbv beta iota. change (negb (Ascii.eqb "{" "{")) with false. cbv iota.
    assert (Htext : (sep_text true (s :: l) ++ "}")%string =
                    (EmptyString ++ s ++ sep_text false l ++ "}" ++ EmptyString)%string).
    { simpl. now rewrite append_assoc. }
    rewrite Htext in *.
    rewrite (in_loop_labels uninit heap target l s EmptyString [] fuel "{" EmptyString);
      auto.
    + unfold SetElements. now rewrite Hcount.
    + simpl in Hfuel. simpl. lia.
Qed.

Lemma roundtrip_labels_witness :
  let m := [(Label "element1", 2); (Label "b c", 1); (Label EmptyString, 1)] in
  operator_out EmptyString m = "{element1, element1, b c, }"%string /\
  exists s' m',
    operator_in 40 " " (istringstream (operator_out EmptyString m)) 1 [] =
      Some (s', 1%positive, m') /\
    fail s' = false /\ operator_eq m' m = true.
Proof.
  intros m. split; [reflexivity |].
  apply roundtrip_labels.
  - discriminate.
  - reflexivity.
  - reflexivity.
  - repeat constructor; unfold positive_count, INT_MAX; simpl; lia.
  - vm_compute. lia.
Defined.

(** * Membership, size and the boolean multiset *)

Section UnorderedMapUpdates.
Context {K : Type}.
Variable key_eq : K -> K -> bool.

Lemma find_modify k f (m : list (K * Z)) :
  find key_eq k (modify key_eq k f m) =
  option_map (fun x => (fst x, f (snd x))) (find key_eq k m).
Proof.
  induction m as [| [k' v] m IH]; simpl; auto.
  destruct (key_eq k k') eqn:E; simpl; rewrite E; auto.
Qed.

Lemma modify_modify k f g (m : list (K * Z)) :
  modify key_eq k g (modify key_eq k f m) = modify key_eq k (fun v => g (f v)) m.
Proof.
  induction m as [| [k' v] m IH]; simpl; auto.
  destruct (key_eq k k') eqn:E; simpl; rewrite E; congruence.
Qed.

Lemma modify_fixed k k' c f (m : list (K * Z)) :
  find key_eq k m = Some (k', c) -> f c = c -> modify key_eq k f m = m.
Proof.
  induction m as [| [k0 v] m IH]; simpl; [discriminate |].
  destruct (key_eq k k0).
  - intros [= -> ->] ->. reflexivity.
  - intros H1 H2. now rewrite IH.
Qed.

Lemma erase_app_absent k (m1 m2 : list (K * Z)) :
  find key_eq k m1 = None ->
  erase key_eq k (m1 ++ m2) = m1 ++ erase key_eq k m2.
Proof.
  induction m1 as [| [k' v] m1 IH]; simpl; auto.
  destruct (key_eq k k'); [discriminate |].
  intros H. now rewrite IH.
Qed.

Lemma erase_keys k (m : list (K * Z)) :
  incl (map fst (erase key_eq k m)) (map fst m).
Proof.
  induction m as [| [k' v] m IH]; simpl; [apply incl_refl |].
  destruct (key_eq k k').
  - apply incl_tl, incl_refl.
  - simpl. intros a [<- | Ha]; [now left | right; now apply IH].
Qed.

End UnorderedMapUpdates.

Lemma IsContains_count_of e m :
  IsContains e m = match count_of e m with Some _ => true | None => false end.
Proof.
  unfold IsContains, count_of, lookup.
  now destruct (find VariantEqual e m).
Qed.

Lemma count0_count_of e m c : count_of e m = Some c -> count0 e m = c.
Proof. unfold count0. now intros ->. Qed.

(** Membership after an insertion and after a removal: [AddElement e] makes
    exactly the elements equal to [e] present besides those that were, and
    [RemoveElement e] makes them absent exactly when the count was 1. *)
Theorem IsContains_after_update (m : MultiSet) (e f : Element) :
  key_equivalence (e :: f :: keys m) ->
  unique_keys m = true -> positive_counts m ->
  IsContains f (AddElement e m) = VariantEqual f e || IsContains f m /\
  IsContains f (fst (RemoveElement e m)) =
    (if VariantEqual f e then 1 <? count0 e m else IsContains f m).
Proof.
  intros HL Hu Hp.
  assert (He : In e (e :: f :: keys m)) by now left.
  assert (Hf : In f (e :: f :: keys m)) by (right; now left).
  assert (Hm : incl (keys m) (e :: f :: keys m)) by (do 2 apply incl_tl; apply incl_refl).
  split.
  - rewrite !IsContains_count_of, (count_of_AddElement HL e f m He Hf Hm).
    now destruct (VariantEqual f e).
  - rewrite !IsContains_count_of, (count_of_RemoveElement HL e f m He Hf Hm Hu).
    destruct (VariantEqual f e); auto.
    unfold count0. destruct (count_of e m) as [c |] eqn:Ec; auto.
    pose proof (count_of_positive e Hp Ec) as Hc. unfold INT_MAX in Hc.
    rewrite int_wrap_id by (unfold in_int, INT_MIN, INT_MAX; lia).
    destruct (c - 1 =? 0) eqn:Ez.
    + apply Z.eqb_eq in Ez. symmetry. apply Z.ltb_ge. lia.
    + apply Z.eqb_neq in Ez. symmetry. apply Z.ltb_lt. lia.
Qed.

Lemma IsContains_after_update_witness :
  let m := [(Label "a", 1); (Nested 1 [(Label "x", 1)], 2)] in
  IsContains (Label "b") (AddElement (Label "b") m) = true /\
  IsContains (Label "a") (fst (RemoveElement (Label "a") m)) = false /\
  IsContains (Nested 2 [(Label "x", 1)])
             (fst (RemoveElement (Nested 3 [(Label "x", 1)]) m)) = true.
Proof.
  intros m.
  assert (Hp : positive_counts m)
    by (repeat constructor; unfold positive_count, INT_MAX; simpl; lia).
  split; [| split].
  - apply (proj1 (IsContains_after_update m (Label "b") (Label "b")
                    (key_equivalenceb_sound (Label "b" :: Label "b" :: keys m) eq_refl)
                    eq_refl Hp)).
  - apply (proj2 (IsContains_after_update m (Label "a") (Label "a")
                    (key_equivalenceb_sound (Label "a" :: Label "a" :: keys m) eq_refl)
                    eq_refl Hp)).
  - apply (proj2 (IsContains_after_update m (Nested 3 [(Label "x", 1)])
                    (Nested 2 [(Label "x", 1)])
                    (key_equivalenceb_sound
                       (Nested 3 [(Label "x", 1)] :: Nested 2 [(Label "x", 1)] :: keys m)
                       eq_refl)
                    eq_refl Hp)).
Defined.

(** Removing an element right after adding it gives back the very same
    map, and raises nothing; adding an element back after removing it
    gives every element the count it had. *)
Theorem RemoveElement_AddElement (m : MultiSet) (e : Element) :
  positive_counts m -> count0 e m < INT_MAX ->
  (VariantEqual e e = true ->
   RemoveElement e (AddElement e m) = (m, no_exception)) /\
  (forall f, key_equivalence (e :: f :: keys m) -> unique_keys m = true ->
             IsContains e m = true ->
             count_of f (AddElement e (fst (RemoveElement e m))) = count_of f m).
Proof.
  intros Hp Hmax. split.
  - intros Hrefl. unfold AddElement, count0, count_of in *.
    destruct (find VariantEqual e m) as [[k c] |] eqn:E.
    + pose proof (find_value VariantEqual positive_count e E Hp) as Hc.
      unfold positive_count, INT_MAX in Hc. simpl in Hc.
      rewrite (find_Some_lookup _ _ _ E) in Hmax. unfold INT_MAX in Hmax.
      unfold RemoveElement. rewrite find_modify, E. simpl.
      rewrite modify_modify.
      assert (Hw : int_wrap (int_wrap (c + 1) - 1) = c).
      { rewrite (@int_wrap_id (c + 1)) by (unfold in_int, INT_MIN, INT_MAX; lia).
        rewrite int_wrap_id by (unfold in_int, INT_MIN, INT_MAX; lia). lia. }
      rewrite (@int_wrap_id (c + 1)) by (unfold in_int, INT_MIN, INT_MAX; lia).
      replace (c + 1 - 1) with c by lia.
      rewrite int_wrap_id by (unfold in_int, INT_MIN, INT_MAX; lia).
      destruct (c =? 0) eqn:Ez; [apply Z.eqb_eq in Ez; lia |].
      now rewrite (modify_fixed VariantEqual e k c _ m E Hw).
    + rewrite (assign_absent VariantEqual e 1 m E).
      unfold RemoveElement.
      rewrite (find_app_absent VariantEqual e m _ E). simpl. rewrite Hrefl.
      change (int_wrap (1 - 1) =? 0) with true. cbv iota.
      rewrite erase_modify, (erase_app_absent VariantEqual e m _ E). simpl.
      rewrite Hrefl. now rewrite app_nil_r.
  - intros f HL Hu Hin.
    assert (He : In e (e :: f :: keys m)) by now left.
    assert (Hf : In f (e :: f :: keys m)) by (right; now left).
    assert (Hm : incl (keys m) (e :: f :: keys m))
      by (do 2 apply incl_tl; apply incl_refl).
    assert (Hm' : incl (keys (fst (RemoveElement e m))) (e :: f :: keys m)).
    { unfold RemoveElement.
      destruct (find VariantEqual e m) as [[k c] |]; simpl; auto.
      assert (Hk : keys (modify VariantEqual e (fun c => int_wrap (c - 1)) m) = keys m)
        by apply modify_keys.
      destruct (int_wrap (c - 1) =? 0); simpl.
      - intros a Ha. apply Hm. rewrite <- Hk. revert a Ha. apply erase_keys.
      - now rewrite Hk. }
    rewrite (count_of_AddElement HL e f _ He Hf Hm').
    rewrite (count_of_RemoveElement HL e e m He He Hm Hu).
    rewrite (ke_refl HL e He).
    rewrite IsContains_count_of in Hin.
    destruct (count_of e m) as [c |] eqn:Ec; [| discriminate].
    pose proof (count_of_positive e Hp Ec) as Hc. unfold INT_MAX in Hc.
    rewrite (@int_wrap_id (c - 1)) by (unfold in_int, INT_MIN, INT_MAX; lia).
    destruct (VariantEqual f e) eqn:Efe.
    + rewrite (count_of_congr HL f e m Hf He Hm Efe), Ec. f_equal.
      destruct (c - 1 =? 0) eqn:Ez.
      * apply Z.eqb_eq in Ez. lia.
      * rewrite int_wrap_id by (unfold in_int, INT_MIN, INT_MAX; lia). lia.
    + rewrite (count_of_RemoveElement HL e f m He Hf Hm Hu), Efe. reflexivity.
Qed.

Lemma RemoveElement_AddElement_witness :
  let m := [(Label "a", 1); (Nested 1 [(Label "x", 1)], 2)] in
  RemoveElement (Label "b") (AddElement (Label "b") m) = (m, no_exception) /\
  RemoveElement (Nested 2 [(Label "x", 1)]) (AddElement (Nested 2 [(Label "x", 1)]) m)
    = (m, no_exception) /\
  count_of (Label "a") (AddElement (Label "a") (fst (RemoveElement (Label "a") m)))
    = count_of (Label "a") m.
Proof.
  intros m.
  assert (Hp : positive_counts m)
    by (repeat constructor; unfold positive_count, INT_MAX; simpl; lia).
  split; [| split].
  - apply (proj1 (RemoveElement_AddElement m (Label "b") Hp eq_refl)). reflexivity.
  - apply (proj1 (RemoveElement_AddElement m (Nested 2 [(Label "x", 1)]) Hp eq_refl)).
    reflexivity.
  - apply (proj2 (RemoveElement_AddElement m (Label "a") Hp eq_refl) (Label "a")).
    + apply key_equivalenceb_sound. reflexivity.
    + reflexivity.
    + reflexivity.
Defined.

(** ** [Size] *)

Lemma size_t_wrap_plus a b : size_t_wrap (size_t_wrap a + b) = size_t_wrap (a + b).
Proof. unfold size_t_wrap. apply Zplus_mod_idemp_l. Qed.

Lemma Size_fold m : forall acc,
  fold_left (fun res element => size_t_wrap (res + snd element)) m (size_t_wrap acc) =
  size_t_wrap (acc + total m).
Proof.
  induction m as [| x m IH]; intros acc; simpl.
  - now rewrite Z.add_0_r.
  - rewrite size_t_wrap_plus, IH. f_equal. lia.
Qed.

Lemma Size_total m : Size m = size_t_wrap (total m).
Proof. unfold Size. apply (Size_fold m 0). Qed.

Lemma total_app m1 m2 : total (m1 ++ m2) = total m1 + total m2.
Proof. induction m1 as [| x m1 IH]; simpl; lia. Qed.

Lemma total_modify e k c f m :
  find VariantEqual e m = Some (k, c) ->
  total (modify VariantEqual e f m) = total m - c + f c.
Proof.
  induction m as [| [k' v] m IH]; simpl; [discriminate |].
  destruct (VariantEqual e k').
  - intros [= -> ->]. simpl. lia.
  - intros H. simpl. rewrite (IH H). lia.
Qed.

Lemma total_erase e k c m :
  find VariantEqual e m = Some (k, c) ->
  total (erase VariantEqual e m) = total m - c.
Proof.
  induction m as [| [k' v] m IH]; simpl; [discriminate |].
  destruct (VariantEqual e k').
  - intros [= -> ->]. lia.
  - intros H. simpl. rewrite (IH H). lia.
Qed.

Lemma total_positive m : positive_counts m -> Z.of_nat (List.length m) <= total m.
Proof.
  induction 1 as [| x m Hx Hm IH]; simpl List.length; simpl total; [lia |].
  unfold positive_count in Hx. lia.
Qed.

(** [Size] is the sum of the stored counts, reduced modulo [2^64].  As long
    as the sum fits a [size_t], a multiset whose counts are positive has
    [Size() == 0] exactly when [IsEmpty()], and its size is at least the
    number of its distinct elements. *)
Theorem Size_sums_counts (m : MultiSet) :
  Size m = size_t_wrap (total m) /\
  (positive_counts m -> total m < 18446744073709551616 ->
   Size m = total m /\
   (Size m = 0 <-> IsEmpty m = true) /\
   Z.of_nat (List.length m) <= Size m).
Proof.
  split; [apply Size_total |].
  intros Hp Hmax. pose proof (total_positive m Hp) as Hlen.
  assert (Hs : Size m = total m).
  { rewrite Size_total. unfold size_t_wrap. apply Z.mod_small. lia. }
  rewrite Hs. split; [reflexivity | split; [| exact Hlen]].
  destruct m as [| x m]; simpl IsEmpty.
  - simpl. tauto.
  - simpl List.length in Hlen. split; [lia | discriminate].
Qed.

Lemma Size_sums_counts_witness :
  let m := [(Label "a", 3); (Nested 1 [(Label "x", 1)], 2)] in
  Size m = 5 /\ (Size m = 0 <-> IsEmpty m = true).
Proof.
  intros m.
  assert (Hp : positive_counts m)
    by (repeat constructor; unfold positive_count, INT_MAX; simpl; lia).
  destruct (proj2 (Size_sums_counts m) Hp eq_refl) as (Hs & He & _).
  split; [exact Hs | exact He].
Defined.

(** [AddElement] makes [Size] one larger and a [RemoveElement] that finds
    its element makes it one smaller, in the arithmetic of [size_t]. *)
Theorem Size_after_update (m : MultiSet) (e : Element) :
  positive_counts m ->
  (count0 e m < INT_MAX -> Size (AddElement e m) = size_t_wrap (Size m + 1)) /\
  (IsContains e m = true ->
   Size (fst (RemoveElement e m)) = size_t_wrap (Size m - 1)).
Proof.
  intros Hp. split.
  - intros Hmax. rewrite !Size_total, size_t_wrap_plus. f_equal.
    unfold AddElement, count0, count_of in *.
    destruct (find VariantEqual e m) as [[k c] |] eqn:E.
    + pose proof (find_value VariantEqual positive_count e E Hp) as Hc.
      unfold positive_count, INT_MAX in Hc. simpl in Hc.
      rewrite (find_Some_lookup _ _ _ E) in Hmax. unfold INT_MAX in Hmax.
      rewrite (total_modify e k c _ m E).
      rewrite int_wrap_id by (unfold in_int, INT_MIN, INT_MAX; lia). lia.
    + rewrite (assign_absent VariantEqual e 1 m E), total_app. simpl. lia.
  - intros Hin. rewrite !Size_total.
    replace (size_t_wrap (total m) - 1) with (size_t_wrap (total m) + (- 1)) by lia.
    rewrite size_t_wrap_plus. f_equal.
    unfold IsContains in Hin. unfold RemoveElement.
    destruct (find VariantEqual e m) as [[k c] |] eqn:E; [| discriminate].
    pose proof (find_value VariantEqual positive_count e E Hp) as Hc.
    unfold positive_count, INT_MAX in Hc. simpl in Hc.
    rewrite int_wrap_id by (unfold in_int, INT_MIN, INT_MAX; lia).
    destruct (c - 1 =? 0) eqn:Ez; simpl.
    + apply Z.eqb_eq in Ez. rewrite erase_modify, (total_erase e k c m E). lia.
    + rewrite (total_modify e k c _ m E).
      rewrite int_wrap_id by (unfold in_int, INT_MIN, INT_MAX; lia). lia.
Qed.

Lemma Size_after_update_witness :
  let m := [(Label "a", 1); (Nested 1 [(Label "x", 1)], 2)] in
  Size (AddElement (Nested 2 [(Label "x", 1)]) m) = 4 /\
  Size (AddElement (Label "b") m) = 4 /\
  Size (fst (RemoveElement (Label "a") m)) = 2.
Proof.
  intros m.
  assert (Hp : positive_counts m)
    by (repeat constructor; unfold positive_count, INT_MAX; simpl; lia).
  split; [| split].
  - apply (proj1 (Size_after_update m (Nested 2 [(Label "x", 1)]) Hp)). reflexivity.
  - apply (proj1 (Size_after_update m (Label "b") Hp)). reflexivity.
  - apply (proj2 (Size_after_update m (Label "a") Hp)). reflexivity.
Defined.

(** ** [BuildBoolean] *)

Section Boolean.
Variable L : list Element.
Hypothesis HL : key_equivalence L.

End Boolean.





(** * Intersection *)

Section Intersection.
Variable L : list Element.
Hypothesis HL : key_equivalence L.

Lemma times_step_keys B R x :
  In (fst x) L -> incl (keys R) L -> incl (keys (times_step B R x)) L.
Proof.
  intros Hx HR. unfold times_step.
  destruct (find VariantEqual (fst x) B) as [[k c] |]; auto using assign_keys_incl.
Qed.

Lemma times_loop_keys B A R :
  incl (keys A) L -> incl (keys R) L ->
  incl (keys (fold_left (times_step B) A R)) L.
Proof.
  intros HA HR. induction A as [| x A IH] using rev_ind; auto.
  apply incl_keys_snoc in HA as [HA Hx].
  rewrite fold_left_snoc. apply times_step_keys; auto.
Qed.

Lemma operator_times_keys A B :
  incl (keys A) L -> incl (keys (operator_times A B)) L.
Proof. intros HA. apply times_loop_keys; auto. intros ? []. Qed.

Lemma count_of_times_step B e R x :
  In e L -> In (fst x) L -> incl (keys R) L ->
  count_of e (times_step B R x) =
  match count_of (fst x) B with
  | Some b => if VariantEqual e (fst x) then Some (Z.min (snd x) b) else count_of e R
  | None => count_of e R
  end.
Proof.
  intros He Hx HR. unfold times_step, count_of at 2.
  destruct (find VariantEqual (fst x) B) as [[k b] |] eqn:E.
  - rewrite (find_Some_lookup _ _ _ E).
    now rewrite (count_of_assign HL) by assumption.
  - now rewrite (find_None_lookup _ _ _ E).
Qed.

Lemma count_of_operator_times A B e :
  unique_keys A = true -> In e L -> incl (keys A) L -> incl (keys B) L ->
  count_of e (operator_times A B) =
  match count_of e A, count_of e B with
  | Some a, Some b => Some (Z.min a b)
  | _, _ => None
  end.
Proof.
  intros HuA He HA HB. unfold operator_times. revert e He HuA.
  induction A as [| x A IH] using rev_ind; intros e He HuA; auto.
  destruct (unique_keys_snoc HL A x HA HuA) as [HuA' Hxnone].
  apply incl_keys_snoc in HA as [HA Hx].
  rewrite fold_left_snoc, count_of_times_step, count_of_snoc, IH; auto.
  2: apply times_loop_keys; auto; intros ? [].
  destruct (VariantEqual e (fst x)) eqn:Eex.
  - rewrite (count_of_congr HL e (fst x) A), Hxnone by assumption.
    rewrite (count_of_congr HL e (fst x) B) by assumption.
    now destruct (count_of (fst x) B).
  - destruct (count_of (fst x) B), (count_of e A); reflexivity.
Qed.

Lemma unique_times_step B R x :
  In (fst x) L -> incl (keys R) L -> unique_keys R = true ->
  unique_keys (times_step B R x) = true.
Proof.
  intros Hx HR Hu. unfold times_step, unique_keys.
  destruct (find VariantEqual (fst x) B) as [[k c] |]; auto.
  apply unique_assign with (D := fun a => In a L); auto.
  - apply (ke_sym HL).
  - now apply (incl_keys_in (L := L)).
Qed.

Lemma unique_operator_times A B :
  incl (keys A) L -> unique_keys (operator_times A B) = true.
Proof.
  intros HA. unfold operator_times.
  induction A as [| x A IH] using rev_ind; auto.
  apply incl_keys_snoc in HA as [HA Hx].
  rewrite fold_left_snoc. apply unique_times_step; auto.
  apply times_loop_keys; auto. intros ? [].
Qed.

End Intersection.




(** * How union and intersection combine *)

(** Union and intersection absorb each other, and together they keep the
    counts of their operands: for every element, the counts in [A + B] and
    in [A * B] add up to the counts in [A] and in [B]. *)
Theorem operator_plus_times_absorb (A B : MultiSet) (e : Element) :
  key_equivalence (e :: keys A ++ keys B) ->
  unique_keys A = true -> unique_keys B = true ->
  positive_counts A -> positive_counts B ->
  count_of e (operator_times A (operator_plus A B)) = count_of e A /\
  count_of e (operator_plus A (operator_times A B)) = count_of e A /\
  count0 e (operator_plus A B) + count0 e (operator_times A B) =
    count0 e A + count0 e B.
Proof.
  intros HL HuA HuB HpA HpB.
  assert (He : In e (e :: keys A ++ keys B)) by now left.
  assert (HA : incl (keys A) (e :: keys A ++ keys B))
    by (apply incl_tl, incl_appl, incl_refl).
  assert (HB : incl (keys B) (e :: keys A ++ keys B))
    by (apply incl_tl, incl_appr, incl_refl).
  assert (Hplus := count_of_operator_plus HL A B e HuB He HA HB).
  assert (Htimes := count_of_operator_times _ HL A B e HuA He HA HB).
  split; [| split].
  - rewrite (count_of_operator_times _ HL); auto.
    + rewrite Hplus.
      destruct (count_of e A) as [a |], (count_of e B) as [b |]; auto;
        f_equal; lia.
    + now apply operator_plus_keys.
  - rewrite (count_of_operator_plus HL); auto.
    + rewrite Htimes.
      destruct (count_of e A) as [a |], (count_of e B) as [b |]; auto;
        f_equal; lia.
    + now apply (unique_operator_times _ HL).
    + now apply operator_times_keys.
  - unfold count0. rewrite Hplus, Htimes.
    destruct (count_of e A) as [a |], (count_of e B) as [b |]; lia.
Qed.

Lemma operator_plus_times_absorb_witness :
  let A := [(Label "a", 3); (Nested 1 [(Label "x", 1)], 2)] in
  let B := [(Nested 2 [(Label "x", 1)], 5); (Label "a", 1); (Label "b", 4)] in
  let e := Nested 3 [(Label "x", 1)] in
  count_of e (operator_times A (operator_plus A B)) = Some 2 /\
  count_of e (operator_plus A (operator_times A B)) = Some 2 /\
  count0 e (operator_plus A B) + count0 e (operator_times A B) = 7.
Proof.
  intros A B e.
  assert (HA : positive_counts A)
    by (repeat constructor; unfold positive_count, INT_MAX; simpl; lia).
  assert (HB : positive_counts B)
    by (repeat constructor; unfold positive_count, INT_MAX; simpl; lia).
  exact (operator_plus_times_absorb A B e
           (key_equivalenceb_sound (e :: keys A ++ keys B) eq_refl)
           eq_refl eq_refl HA HB).
Defined.

(** * Operators with an empty operand, and the difference of a multiset
      with itself *)

Section Rebuild.
Variable L : list Element.
Hypothesis HL : key_equivalence L.


End Rebuild.



(** * What [VariantEqual] and [operator==] decide *)

(** On well-formed elements [VariantEqual] is an equivalence relation.  It
    holds between two labels exactly when they are the same string, and
    between two nested multisets exactly when their maps hold the same
    entries in some order, the nested keys of those entries being the same
    pointers; a label is never equal to a nested multiset. *)
Theorem VariantEqual_by_content (h : ptr -> MultiSet) (a b : Element) :
  sound h a -> sound h b ->
  (VariantEqual a b = true <-> same_value a b) /\
  VariantEqual a a = true /\
  VariantEqual a b = VariantEqual b a /\
  (forall c, sound h c -> VariantEqual a b = true -> VariantEqual b c = true ->
             VariantEqual a c = true) /\
  (is_label a -> ~ is_label b -> VariantEqual a b = false).
Proof.
  intros Ha Hb.
  assert (HL : forall c, sound h c -> key_equivalence [a; b; c]).
  { intros c Hc. apply (@sound_key_equivalence h).
    intros x [<- | [<- | [<- | []]]]; assumption. }
  split; [apply (VariantEqual_spec Ha Hb) | split; [| split; [| split]]].
  - apply (ke_refl (HL a Ha)). now left.
  - apply (VariantEqual_sym_eq (HL a Ha)); [now left | right; now left].
  - intros c Hc. apply (ke_trans (HL c Hc)); simpl; auto.
  - destruct a, b; simpl; tauto.
Qed.

Lemma VariantEqual_by_content_witness :
  let n1 := [(Label "x", 1); (Label "y", 2)] in
  let n2 := [(Label "y", 2); (Label "x", 1)] in
  same_value (Nested 1 n1) (Nested 2 n2) /\
  VariantEqual (Nested 1 n1) (Nested 2 n2) = true /\
  VariantEqual (Nested 1 n1) (Nested 2 n2) = VariantEqual (Nested 2 n2) (Nested 1 n1).
Proof.
  intros n1 n2.
  pose (h := fun p : ptr => if Pos.eqb p 1 then n1 else n2).
  assert (H1 : sound h (Nested 1 n1)).
  { apply sound_Nested; [reflexivity | reflexivity |].
    intros x [<- | [<- | []]]; constructor. }
  assert (H2 : sound h (Nested 2 n2)).
  { apply sound_Nested; [reflexivity | reflexivity |].
    intros x [<- | [<- | []]]; constructor. }
  destruct (VariantEqual_by_content h (Nested 1 n1) (Nested 2 n2) H1 H2)
    as (Hspec & _ & Hsym & _).
  assert (Hsame : same_value (Nested 1 n1) (Nested 2 n2)) by apply perm_swap.
  split; [exact Hsame | split; [exact (proj2 Hspec Hsame) | exact Hsym]].
Defined.

(** [operator==] on well-formed multisets: it accepts two maps exactly when
    they hold the same entries in some order (the same key objects with the
    same counts), so it does not depend on the iteration order, and it is
    reflexive, symmetric and transitive; [operator!=] is its negation. *)
Theorem operator_eq_same_entries (h : ptr -> MultiSet) (m m' : MultiSet) :
  unique_keys m = true -> unique_keys m' = true ->
  (forall x, In x m -> sound h (fst x)) ->
  (forall x, In x m' -> sound h (fst x)) ->
  (operator_eq m m' = true <-> Permutation m m') /\
  (operator_ne m m' = true <-> ~ Permutation m m') /\
  operator_eq m m = true /\
  operator_eq m m' = operator_eq m' m /\
  (forall m'', unique_keys m'' = true -> (forall x, In x m'' -> sound h (fst x)) ->
               operator_eq m m' = true -> operator_eq m' m'' = true ->
               operator_eq m m'' = true).
Proof.
  intros Hu Hu' Hs Hs'.
  pose proof (operator_eq_Permutation m m' Hu Hu' Hs Hs') as H.
  split; [exact H | split; [| split; [| split]]].
  - unfold operator_ne. rewrite negb_true_iff, <- H.
    destruct (operator_eq m m'); split; congruence.
  - apply (operator_eq_Permutation m m Hu Hu Hs Hs). apply Permutation_refl.
  - pose proof (operator_eq_Permutation m' m Hu' Hu Hs' Hs) as H'.
    apply Bool.eq_iff_eq_true. rewrite H, H'. split; apply Permutation_sym.
  - intros m'' Hu'' Hs'' H1 H2.
    apply (operator_eq_Permutation m m'' Hu Hu'' Hs Hs'').
    apply Permutation_trans with m'.
    + now apply H.
    + now apply (operator_eq_Permutation m' m'' Hu' Hu'' Hs' Hs'').
Qed.

Lemma operator_eq_same_entries_witness :
  let n := [(Label "x", 1)] in
  let m := [(Label "a", 2); (Nested 1 n, 1)] in
  let m' := [(Nested 1 n, 1); (Label "a", 2)] in
  Permutation m m' /\ operator_eq m m' = true /\ operator_eq m' m = true.
Proof.
  intros n m m'.
  pose (h := fun _ : ptr => n).
  assert (Hn : sound h (Nested 1 n)).
  { apply sound_Nested; [reflexivity | reflexivity |].
    intros x [<- | []]; constructor. }
  assert (Hs : forall x, In x m -> sound h (fst x)).
  { intros x [<- | [<- | []]]; [constructor | exact Hn]. }
  assert (Hs' : forall x, In x m' -> sound h (fst x)).
  { intros x [<- | [<- | []]]; [exact Hn | constructor]. }
  destruct (operator_eq_same_entries h m m' eq_refl eq_refl Hs Hs')
    as (Hperm & _ & _ & Hsym & _).
  assert (P : Permutation m m') by apply perm_swap.
  split; [exact P | split; [exact (proj2 Hperm P) |]].
  rewrite <- Hsym. exact (proj2 Hperm P).
Defined.

(** ** Multisets of labels *)

Lemma labels_only_In m x : labels_only m = true -> In x m -> is_label (fst x).
Proof.
  unfold labels_only. rewrite forallb_forall. intros H Hx.
  specialize (H x Hx). now destruct (fst x).
Qed.

Lemma sound_labels h m :
  labels_only m = true -> forall x, In x m -> sound h (fst x).
Proof.
  intros H x Hx. pose proof (labels_only_In m x H Hx) as Hl.
  destruct (fst x); [constructor | contradiction].
Qed.

Lemma labels_key_equivalence L :
  (forall a, In a L -> is_label a) -> key_equivalence L.
Proof.
  intros H. apply (@sound_key_equivalence (fun _ => [])).
  intros a Ha. specialize (H a Ha). destruct a; [constructor | contradiction].
Qed.

Lemma labels_only_key_equivalence m l :
  labels_only m = true -> key_equivalence (map Label l ++ keys m).
Proof.
  intros H. apply labels_key_equivalence. intros a Ha.
  apply in_app_or in Ha as [Ha | Ha].
  - apply in_map_iff in Ha as (s & <- & _). exact I.
  - unfold keys in Ha. apply in_map_iff in Ha as (x & <- & Hx).
    now apply (labels_only_In m).
Qed.

(** In a map of labels with unique keys, the count stored for a label is
    the count of the entry that carries this label. *)
Lemma count_of_label_In m s c :
  labels_only m = true -> unique_keys m = true ->
  (count_of (Label s) m = Some c <-> In (Label s, c) m).
Proof.
  intros Hl Hu. split.
  - intros H. apply lookup_Some_in in H as (k & Hin & Hk).
    pose proof (labels_only_In m _ Hl Hin) as Hlab. simpl in Hlab.
    destruct k as [t | p n]; [| contradiction].
    simpl in Hk. apply String.eqb_eq in Hk. now subst.
  - intros Hin.
    pose proof (In_find (labels_only_key_equivalence m [] Hl) (Label s, c) m Hu
                        (incl_refl _) Hin) as F.
    apply (find_Some_lookup _ _ _ F).
Qed.

Lemma counts_incl_labels m m' :
  labels_only m = true -> unique_keys m = true ->
  labels_only m' = true -> unique_keys m' = true ->
  (forall s, count_of (Label s) m = count_of (Label s) m') -> incl m m'.
Proof.
  intros Hl Hu Hl' Hu' Hc [k c] Hin.
  pose proof (labels_only_In m _ Hl Hin) as Hlab. simpl in Hlab.
  destruct k as [s | p n]; [| contradiction].
  apply count_of_label_In; auto. rewrite <- Hc. now apply count_of_label_In.
Qed.

Lemma incl_counts_labels m m' s :
  labels_only m = true -> unique_keys m = true ->
  labels_only m' = true -> unique_keys m' = true ->
  incl m m' -> incl m' m -> count_of (Label s) m = count_of (Label s) m'.
Proof.
  intros Hl Hu Hl' Hu' H1 H2.
  destruct (count_of (Label s) m) as [c |] eqn:E.
  - symmetry. apply count_of_label_In; auto. apply H1.
    now apply count_of_label_In.
  - destruct (count_of (Label s) m') as [c' |] eqn:E'; auto.
    apply count_of_label_In in E'; auto. apply H2 in E'.
    apply count_of_label_In in E'; auto. congruence.
Qed.

Lemma pairs_included_In m m' x :
  pairs_included m m' = true -> In x m ->
  exists y, find VariantEqual (fst x) m' = Some y /\ snd x = snd y.
Proof.
  unfold pairs_included. rewrite forallb_forall. intros H Hx.
  specialize (H x Hx).
  destruct (find VariantEqual (fst x) m') as [y |]; [| discriminate].
  exists y. split; auto. now apply Z.eqb_eq.
Qed.

Lemma pairs_included_incl_labels m m' :
  labels_only m = true -> labels_only m' = true ->
  pairs_included m m' = true -> incl m m'.
Proof.
  intros Hl Hl' H [k c] Hin.
  destruct (pairs_included_In m m' _ H Hin) as ([k' c'] & F & Hc).
  simpl in *. subst c'.
  apply find_Some_in in F as [Hin' Hk]. simpl in Hk.
  pose proof (labels_only_In m _ Hl Hin) as Hlab.
  pose proof (labels_only_In m' _ Hl' Hin') as Hlab'. simpl in *.
  destruct k as [s | ? ?], k' as [s' | ? ?]; try contradiction.
  simpl in Hk. apply String.eqb_eq in Hk. now subst.
Qed.

(** For multisets of labels [operator==] is the equality of multisets: two
    maps are equal exactly when every label has the same count in both,
    which is also when they hold the same (element, count) pairs. *)
Theorem operator_eq_labels (m m' : MultiSet) :
  labels_only m = true -> labels_only m' = true ->
  unique_keys m = true -> unique_keys m' = true ->
  (operator_eq m m' = true <->
   forall s, count_of (Label s) m = count_of (Label s) m') /\
  operator_eq m m' = same_pairs m m'.
Proof.
  intros Hl Hl' Hu Hu'.
  pose proof (@operator_eq_Permutation (fun _ => []) m m' Hu Hu'
                (sound_labels _ m Hl) (sound_labels _ m' Hl')) as Hperm.
  assert (Hnodup : forall n, labels_only n = true -> unique_keys n = true -> NoDup n).
  { intros n Hn Hun. apply unique_NoDup with (key_eq := VariantEqual); auto.
    intros x Hx. apply (ke_refl (labels_only_key_equivalence n [] Hn)).
    unfold keys. now apply in_map. }
  assert (Hcounts : operator_eq m m' = true <->
                    forall s, count_of (Label s) m = count_of (Label s) m').
  { rewrite Hperm. split.
    - intros P s. apply incl_counts_labels; auto; intros x Hx.
      + now apply (Permutation_in _ P).
      + now apply (Permutation_in _ (Permutation_sym P)).
    - intros Hc. apply NoDup_Permutation; auto.
      intros x. split; apply counts_incl_labels; auto. }
  split; [exact Hcounts |].
  apply Bool.eq_iff_eq_true. rewrite Hcounts. split.
  - intros Hc. unfold same_pairs. apply andb_true_iff.
    split.
    + apply (pairs_included_counts (labels_only_key_equivalence m [] Hl)); auto.
      * apply incl_refl.
      * intros e He. unfold keys in He. apply in_map_iff in He as (x & <- & Hx).
        pose proof (labels_only_In m x Hl Hx) as Hlab.
        destruct (fst x); [apply Hc | contradiction].
    + apply (pairs_included_counts (labels_only_key_equivalence m' [] Hl')); auto.
      * apply incl_refl.
      * intros e He. unfold keys in He. apply in_map_iff in He as (x & <- & Hx).
        pose proof (labels_only_In m' x Hl' Hx) as Hlab.
        destruct (fst x); [symmetry; apply Hc | contradiction].
  - unfold same_pairs. intros E. apply andb_true_iff in E as [E1 E2].
    intros s. apply incl_counts_labels; auto using pairs_included_incl_labels.
Qed.

Lemma operator_eq_labels_witness :
  let m := [(Label "a", 2); (Label "b", 1)] in
  let m' := [(Label "b", 1); (Label "a", 2)] in
  operator_eq m m' = same_pairs m m' /\
  forall s, count_of (Label s) m = count_of (Label s) m'.
Proof.
  intros m m'.
  destruct (operator_eq_labels m m' eq_refl eq_refl eq_refl eq_refl) as [H1 H2].
  split; [exact H2 | apply H1; reflexivity].
Defined.

(** * The reader: what it rejects, what it returns *)

(** A text that does not start, after optional white space, with ['{']
    (an empty or blank text included) is rejected at once: the reader
    returns with [failbit] set, allocates nothing and leaves the target
    as it was, whatever the uninitialised [ch] holds. *)
Theorem operator_in_missing_brace (fuel : nat) (uninit : ascii) (text : string)
        (heap : ptr) (target : MultiSet) :
  (forall rest, skip_space text <> String "{" rest) ->
  exists s',
    operator_in (3 + fuel) uninit (istringstream text) heap target =
      Some (s', heap, target) /\
    fail s' = true.
Proof.
  intros Hbrace.
  change (3 + fuel)%nat with (S (S (S fuel))). cbn [operator_in].
  unfold extract_char, sentry.
  change (good (istringstream text)) with true. cbv iota.
  change (buf (istringstream text)) with text.
  destruct (skip_space text) as [| c rest] eqn:E.
  - cbv iota beta.
    destruct (Ascii.eqb uninit "{") eqn:Eu.
    + apply Ascii.eqb_eq in Eu. subst uninit. simpl.
      eexists. split; reflexivity.
    + cbn [negb]. cbv iota. eexists. split; reflexivity.
  - cbv iota beta. cbn [buf with_buf]. cbv iota beta.
    destruct (Ascii.eqb c "{") eqn:Ec.
    + apply Ascii.eqb_eq in Ec. subst c. now destruct (Hbrace rest).
    + cbn [negb]. cbv iota. eexists. split; reflexivity.
Qed.

Lemma operator_in_missing_brace_witness :
  (exists s', operator_in 3 "{" (istringstream "  ") 1 [(Label "old", 5)] =
                Some (s', 1%positive, [(Label "old", 5)]) /\ fail s' = true) /\
  (exists s', operator_in 3 " " (istringstream " a, b}") 1 [(Label "old", 5)] =
                Some (s', 1%positive, [(Label "old", 5)]) /\ fail s' = true).
Proof.
  split.
  - apply (operator_in_missing_brace 0 "{" "  " 1 [(Label "old", 5)]).
    intros rest. discriminate.
  - apply (operator_in_missing_brace 0 " " " a, b}" 1 [(Label "old", 5)]).
    intros rest. discriminate.
Defined.

Lemma subscript_incr_not_nil e (m : MultiSet) : subscript_incr VariantEqual e m <> [].
Proof.
  unfold subscript_incr. destruct m as [| [k v] m]; simpl; [discriminate |].
  destruct (VariantEqual e k); simpl.
  - discriminate.
  - destruct (find VariantEqual e m); simpl; discriminate.
Qed.

Lemma operator_in_succeeded fuel :
  (forall uninit s heap multiset s' heap' m',
      operator_in fuel uninit s heap multiset = Some (s', heap', m') ->
      fail s' = false -> good s' = true /\ m' <> []) /\
  (forall uninit s heap ch elements multiset s' heap' m',
      in_loop fuel uninit s heap ch elements multiset = Some (s', heap', m') ->
      ch <> "}"%char -> fail s' = false -> good s' = true /\ m' <> []).
Proof.
  induction fuel as [| fuel [IHo IHl]]; [split; discriminate |].
  split.
  - intros uninit s heap multiset s' heap' m'. cbn [operator_in].
    destruct (extract_char s uninit) as [s1 ch] eqn:E.
    destruct (Ascii.eqb ch "{") eqn:Ech; simpl.
    + intros H' Hf. apply (IHl _ _ _ _ _ _ _ _ _ H'); auto.
      apply Ascii.eqb_eq in Ech. subst. discriminate.
    + intros [= <- _ _]. discriminate.
  - intros uninit s heap ch elements multiset s' heap' m'. cbn [in_loop].
    destruct (peek s) as [s1 p].
    match goal with
    | |- match ?X with _ => _ end = _ -> _ =>
        destruct X as [[[s2 heap2] element] |]; [| discriminate]
    end.
    destruct (extract_char (ws s2) ch) as [s3 ch1] eqn:E.
    intros Hres Hch Hf.
    destruct (extract_char_cases _ _ E) as [[Hbad ->] | [Hgood Hlt]].
    + destruct (Ascii.eqb ch "}") eqn:E1;
        [apply Ascii.eqb_eq in E1; contradiction |].
      destruct (Ascii.eqb ch ",") eqn:E2; simpl in Hres.
      * apply Ascii.eqb_eq in E2. subst ch.
        rewrite in_loop_stuck in Hres by assumption. discriminate.
      * injection Hres as <- _ _. discriminate.
    + destruct (Ascii.eqb ch1 "}") eqn:E1.
      * injection Hres as <- _ <-. split; [exact Hgood |].
        unfold SetElements. apply subscript_incr_not_nil.
      * destruct (Ascii.eqb ch1 ",") eqn:E2; simpl in Hres.
        -- apply (IHl _ _ _ _ _ _ _ _ _ Hres); auto.
           apply Ascii.eqb_eq in E2. subst. discriminate.
        -- injection Hres as <- _ _. discriminate.
Qed.

(** The reader never produces the empty multiset: whenever it returns
    without [failbit], the stream is good and the target holds at least one
    element, because the loop stores an element before it looks for the
    closing brace. *)
Theorem operator_in_never_empty (fuel : nat) (uninit : ascii) (s : istream)
        (heap : ptr) (target : MultiSet) (s' : istream) (heap' : ptr)
        (m' : MultiSet) :
  operator_in fuel uninit s heap target = Some (s', heap', m') ->
  fail s' = false ->
  good s' = true /\ m' <> [] /\ IsEmpty m' = false.
Proof.
  intros H Hf.
  destruct (proj1 (operator_in_succeeded fuel) _ _ _ _ _ _ _ H Hf) as [Hg Hm].
  split; [exact Hg | split; [exact Hm |]].
  destruct m'; [contradiction | reflexivity].
Qed.

Lemma operator_in_never_empty_witness :
  match operator_in 20 " " (istringstream "{ }") 1 [] with
  | Some (s', _, m') => good s' = true /\ m' <> []
  | None => False
  end.
Proof.
  destruct (operator_in 20 " " (istringstream "{ }") 1 []) as [[[s' heap'] m'] |] eqn:E.
  - assert (Hf : fail s' = false)
      by (vm_compute in E; injection E as <- _ _; reflexivity).
    destruct (operator_in_never_empty _ _ _ _ _ _ _ _ E Hf) as (H1 & H2 & _).
    split; [exact H1 | exact H2].
  - vm_compute in E. discriminate E.
Defined.

(** ** Reading a list of labels *)

(** The reader on the text [{l1, l2, ..., ln}] followed by anything. *)
Lemma operator_in_labels_text uninit heap target fuel s l rest :
  Forall (fun t => plain_label t = true) (s :: l) ->
  (String.length (String "{" (sep_text true (s :: l) ++ "}" ++ rest)) < fuel)%nat ->
  operator_in fuel uninit
              (istringstream (String "{" (sep_text true (s :: l) ++ "}" ++ rest)))
              heap target =
  Some (istringstream rest, heap, count_labels (s :: l) []).
Proof.
  intros Hplain Hfuel. inversion Hplain as [| ? ? Hs Hl]; subst.
  destruct fuel as [| fuel]; [simpl in Hfuel; lia |].
  cbn [operator_in].
  change (extract_char
            (istringstream (String "{" (sep_text true (s :: l) ++ "}" ++ rest))) uninit)
    with (istringstream (sep_text true (s :: l) ++ "}" ++ rest), "{"%char).
  cbv beta iota. change (negb (Ascii.eqb "{" "{")) with false. cbv iota.
  assert (Htext : (sep_text true (s :: l) ++ "}" ++ rest)%string =
                  (EmptyString ++ s ++ sep_text false l ++ "}" ++ rest)%string).
  { simpl. now rewrite append_assoc. }
  rewrite Htext in *.
  rewrite (in_loop_labels uninit heap target l s EmptyString [] fuel "{" rest); auto.
  simpl in Hfuel. simpl. lia.
Qed.

Lemma labels_only_app m1 m2 :
  labels_only (m1 ++ m2) = labels_only m1 && labels_only m2.
Proof. unfold labels_only. apply forallb_app. Qed.

Lemma labels_only_same_keys m m' : keys m = keys m' -> labels_only m = labels_only m'.
Proof.
  unfold keys, labels_only. revert m'.
  induction m as [| x m IH]; intros [| y m']; simpl; try discriminate; auto.
  intros [= Hxy Hm]. rewrite Hxy. f_equal. now apply IH.
Qed.

Lemma count_of_label_subscript_incr t a m :
  labels_only m = true ->
  count_of (Label t) (subscript_incr VariantEqual (Label a) m) =
  if String.eqb t a then Some (int_wrap (count0 (Label a) m + 1))
  else count_of (Label t) m.
Proof.
  intros Hl.
  pose proof (labels_only_key_equivalence m [t; a] Hl) as HL.
  assert (Ht : In (Label t) (map Label [t; a] ++ keys m)) by (simpl; auto).
  assert (Ha : In (Label a) (map Label [t; a] ++ keys m)) by (simpl; auto).
  assert (Hm : incl (keys m) (map Label [t; a] ++ keys m))
    by (apply incl_appr, incl_refl).
  unfold subscript_incr, count0.
  destruct (find VariantEqual (Label a) m) as [[k c] |] eqn:E.
  - rewrite (count_of_modify HL _ _ _ m Ht Ha Hm). simpl VariantEqual.
    destruct (String.eqb t a) eqn:Eta; auto.
    apply String.eqb_eq in Eta. subst t.
    unfold count_of. now rewrite (find_Some_lookup _ _ _ E).
  - rewrite count_of_snoc. simpl fst. simpl snd. simpl VariantEqual.
    destruct (String.eqb t a) eqn:Eta.
    + apply String.eqb_eq in Eta. subst t.
      unfold count_of. now rewrite (find_None_lookup _ _ _ E).
    + now destruct (count_of (Label t) m).
Qed.

Lemma shape_label_subscript_incr a m :
  labels_only m = true -> unique_keys m = true ->
  labels_only (subscript_incr VariantEqual (Label a) m) = true /\
  unique_keys (subscript_incr VariantEqual (Label a) m) = true.
Proof.
  intros Hl Hu. unfold subscript_incr.
  destruct (find VariantEqual (Label a) m) as [[k c] |] eqn:E.
  - split.
    + rewrite (labels_only_same_keys _ m); auto. apply modify_keys.
    + unfold unique_keys. rewrite (unique_same_keys VariantEqual _ m); auto.
      apply modify_keys.
  - split.
    + rewrite labels_only_app, Hl. reflexivity.
    + rewrite <- (assign_absent VariantEqual (Label a) _ m E).
      pose proof (labels_only_key_equivalence m [a] Hl) as HL.
      apply unique_assign with (D := fun x => In x (map Label [a] ++ keys m)); auto.
      * apply (ke_sym HL).
      * simpl. auto.
      * apply (incl_keys_in (L := map Label [a] ++ keys m)). apply incl_appr, incl_refl.
Qed.

(** Counting a list of labels from the empty map gives every label the
    number of its occurrences in the list. *)
Lemma count_labels_count_occ l :
  Z.of_nat (List.length l) <= INT_MAX ->
  labels_only (count_labels l []) = true /\
  unique_keys (count_labels l []) = true /\
  forall t, count_of (Label t) (count_labels l []) =
            if Nat.eqb (count_occ string_dec l t) 0 then None
            else Some (Z.of_nat (count_occ string_dec l t)).
Proof.
  induction l as [| a l IH] using rev_ind; intros Hlen.
  - repeat split.
  - rewrite length_app in Hlen. simpl in Hlen.
    destruct IH as (Hl & Hu & Hc); [lia |].
    unfold count_labels in *. rewrite fold_left_snoc.
    destruct (shape_label_subscript_incr a _ Hl Hu) as [Hl1 Hu1].
    split; [exact Hl1 | split; [exact Hu1 |]].
    intros t. rewrite (count_of_label_subscript_incr t a _ Hl).
    rewrite count_occ_app. simpl count_occ.
    assert (Hocc : forall u, count0 (Label u)
                     (fold_left (fun acc s => subscript_incr VariantEqual (Label s) acc) l [])
                   = Z.of_nat (count_occ string_dec l u)).
    { intros u. unfold count0. rewrite Hc.
      destruct (Nat.eqb (count_occ string_dec l u) 0) eqn:E; auto.
      apply Nat.eqb_eq in E. now rewrite E. }
    pose proof (count_occ_bound string_dec a l) as Hbound.
    destruct (String.eqb t a) eqn:Eta.
    + apply String.eqb_eq in Eta. subst t.
      destruct (string_dec a a) as [_ | N]; [| contradiction].
      rewrite Hocc.
      rewrite int_wrap_id by (unfold in_int, INT_MIN, INT_MAX in *; lia).
      replace (count_occ string_dec l a + 1)%nat with (S (count_occ string_dec l a)) by lia.
      cbn [Nat.eqb]. f_equal. rewrite Nat2Z.inj_succ. lia.
    + apply String.eqb_neq in Eta.
      destruct (string_dec a t) as [-> | _]; [contradiction |].
      rewrite Nat.add_0_r. apply Hc.
Qed.

(** Reading the text [{l1, l2, ..., ln}], the labels free of [','] and
    ['}'] and starting with neither white space nor ['{']: the reader
    succeeds, stops right behind the closing brace, allocates nothing, and
    stores every label with the number of times the text lists it. *)
Theorem operator_in_counts_labels (uninit : ascii) (heap : ptr) (target : MultiSet)
        (fuel : nat) (s : string) (l : list string) (rest : string) :
  Forall (fun t => plain_label t = true) (s :: l) ->
  Z.of_nat (List.length (s :: l)) <= INT_MAX ->
  (String.length (String "{" (sep_text true (s :: l) ++ "}" ++ rest)) < fuel)%nat ->
  exists m',
    operator_in fuel uninit
                (istringstream (String "{" (sep_text true (s :: l) ++ "}" ++ rest)))
                heap target =
      Some (istringstream rest, heap, m') /\
    unique_keys m' = true /\
    forall t, count0 (Label t) m' = Z.of_nat (count_occ string_dec (s :: l) t) /\
              (IsContains (Label t) m' = true <-> In t (s :: l)).
Proof.
  intros Hplain Hlen Hfuel.
  exists (count_labels (s :: l) []).
  destruct (count_labels_count_occ (s :: l) Hlen) as (_ & Hu & Hc).
  split; [now apply operator_in_labels_text | split; [exact Hu |]].
  intros t. rewrite IsContains_count_of, (count_occ_In string_dec).
  unfold count0. rewrite Hc.
  destruct (Nat.eqb (count_occ string_dec (s :: l) t) 0) eqn:E.
  - apply Nat.eqb_eq in E. rewrite E. split; [reflexivity |].
    split; [discriminate | lia].
  - apply Nat.eqb_neq in E. split; [reflexivity |].
    split; [lia | reflexivity].
Qed.

Lemma operator_in_counts_labels_witness :
  exists m',
    operator_in 30 " " (istringstream "{a, b c, a, , a} tail") 1 [(Label "old", 5)] =
      Some (istringstream " tail", 1%positive, m') /\
    unique_keys m' = true /\
    forall t, count0 (Label t) m' =
              Z.of_nat (count_occ string_dec ["a"; "b c"; "a"; EmptyString; "a"]%string t) /\
              (IsContains (Label t) m' = true <->
               In t ["a"; "b c"; "a"; EmptyString; "a"]%string).
Proof.
  apply (operator_in_counts_labels " " 1 [(Label "old", 5)] 30 "a"
           ["b c"; "a"; EmptyString; "a"]%string " tail").
  - repeat constructor.
  - vm_compute. discriminate.
  - vm_compute. lia.
Defined.

(** ** A nested multiset in first position *)




Lemma find_label_behind_nested q c m2 z :
  labels_only m2 = true -> unique_keys m2 = true -> In z m2 ->
  find VariantEqual (fst z) ((q, c) :: m2) =
  if VariantEqual (fst z) q then Some (q, c) else Some z.
Proof.
  intros Hl Hu Hz. simpl. destruct (VariantEqual (fst z) q); auto.
  apply (In_find (labels_only_key_equivalence m2 [] Hl) z m2 Hu (incl_refl _) Hz).
Qed.




(** * The writer *)

Lemma appends_compose g1 g2 :
  appends g1 -> appends g2 -> appends (fun st => g2 (g1 st)).
Proof.
  unfold appends. intros H1 H2 os first. rewrite (H1 os first).
  destruct (g1 (EmptyString, first)) as [t b] eqn:E1. cbn [fst snd].
  pose proof (H2 (os ++ t)%string b) as E2. pose proof (H2 t b) as E3.
  unfold ostream in *. rewrite E2, E3. cbn [fst snd].
  now rewrite append_assoc.
Qed.

Lemma appends_iter g n : appends g -> appends (Nat.iter n g).
Proof.
  intros Hg. induction n as [| n IH].
  - intros os first. simpl. now rewrite append_nil_r.
  - change (Nat.iter (S n) g) with (fun st => g (Nat.iter n g st)).
    now apply appends_compose.
Qed.

Lemma appends_fold (F : Element * Z -> ostream * bool -> ostream * bool) m :
  (forall x, In x m -> appends (F x)) ->
  appends (fun st => fold_left (fun st elem => F elem st) m st).
Proof.
  induction m as [| x m IH]; intros HF.
  - intros os first. simpl. now rewrite append_nil_r.
  - simpl fold_left.
    apply (appends_compose (F x)
             (fun st => fold_left (fun st elem => F elem st) m st)).
    + apply HF. now left.
    + apply IH. intros y Hy. apply HF. now right.
Qed.

Lemma appends_out_occurrence elem :
  (forall os, out_variant os (fst elem) = (os ++ out_variant EmptyString (fst elem))%string) ->
  appends (out_occurrence out_variant elem).
Proof.
  intros Hk os first. unfold out_occurrence. cbn [fst snd]. f_equal.
  pose proof (Hk (if first then os else (os ++ ", ")%string)) as E1.
  pose proof (Hk (if first then EmptyString else (EmptyString ++ ", ")%string)) as E2.
  unfold ostream in *. rewrite E1, E2.
  destruct first; simpl; now rewrite ?append_assoc.
Qed.

Lemma appends_out_entries m :
  (forall x, In x m ->
     forall os, out_variant os (fst x) = (os ++ out_variant EmptyString (fst x))%string) ->
  appends (out_entries out_variant m).
Proof.
  intros Hm. unfold out_entries.
  apply (appends_fold
           (fun elem => Nat.iter (Z.to_nat (snd elem)) (out_occurrence out_variant elem))).
  intros x Hx. apply appends_iter, appends_out_occurrence, Hm, Hx.
Qed.

Lemma out_entries_braces m os :
  appends (out_entries out_variant m) ->
  (fst (out_entries out_variant m ((os ++ "{")%string, true)) ++ "}")%string =
  (os ++ fst (out_entries out_variant m (("" ++ "{")%string, true)) ++ "}")%string.
Proof.
  intros H.
  pose proof (H (os ++ "{")%string true) as E1.
  pose proof (H ("" ++ "{")%string true) as E2.
  unfold ostream in *. rewrite E1, E2.
  cbn [fst]. simpl. now rewrite !append_assoc.
Qed.

Lemma out_variant_appends_size k :
  forall v, (esize v < k)%nat ->
            forall os, out_variant os v = (os ++ out_variant EmptyString v)%string.
Proof.
  induction k as [| k IH]; intros v Hk os; [lia |].
  destruct v as [s | p m]; [reflexivity |].
  cbn [out_variant]. apply out_entries_braces, appends_out_entries.
  intros x Hx. apply IH. pose proof (esize_in p m x Hx). lia.
Qed.

Lemma out_variant_appends v os :
  out_variant os v = (os ++ out_variant EmptyString v)%string.
Proof. apply out_variant_appends_size with (k := S (esize v)). lia. Qed.

Lemma operator_out_appends_to os m :
  operator_out os m = (os ++ operator_out EmptyString m)%string.
Proof.
  unfold operator_out, GetElements. apply out_entries_braces, appends_out_entries.
  intros x _. apply out_variant_appends.
Qed.

(** The writer only appends: on a stream that already holds [os], it leaves
    [os] in place and writes behind it exactly the text it writes on an
    empty stream, at every depth of nesting; so writing two multisets one
    after the other gives the two texts in a row. *)
Theorem operator_out_appends (os : ostream) (m m' : MultiSet) (v : Element) :
  operator_out os m = (os ++ operator_out EmptyString m)%string /\
  out_variant os v = (os ++ out_variant EmptyString v)%string /\
  operator_out (operator_out os m) m' =
    (os ++ operator_out EmptyString m ++ operator_out EmptyString m')%string.
Proof.
  split; [apply operator_out_appends_to | split; [apply out_variant_appends |]].
  rewrite (operator_out_appends_to (operator_out os m) m').
  rewrite (operator_out_appends_to os m). apply append_assoc.
Qed.

(** ** The text of a multiset of labels *)

Lemma labels_only_cons x m :
  labels_only (x :: m) = true ->
  (exists s, fst x = Label s) /\ labels_only m = true.
Proof.
  unfold labels_only. simpl. rewrite andb_true_iff. intros [Hx Hm].
  split; auto. destruct (fst x) as [s | p n]; [eauto | discriminate].
Qed.

Lemma out_entries_labels_only m : forall st,
  labels_only m = true ->
  out_entries out_variant m st = emit (occurrences m) st.
Proof.
  induction m as [| [k c] m IH]; intros st Hm; [reflexivity |].
  apply labels_only_cons in Hm as [(s & Hk) Hm]. simpl in Hk. subst k.
  unfold out_entries in *. simpl fold_left. rewrite IH by assumption.
  unfold occurrences. simpl flat_map. unfold emit at 2. rewrite fold_left_app.
  fold (emit (repeat s (Z.to_nat c)) st). now rewrite emit_repeat.
Qed.

Lemma occurrences_length m :
  positive_counts m -> Z.of_nat (List.length (occurrences m)) = total m.
Proof.
  induction 1 as [| [k c] m Hc Hm IH]; [reflexivity |].
  unfold positive_count in Hc. simpl in Hc.
  unfold occurrences in *. simpl flat_map.
  rewrite length_app, repeat_length, Nat2Z.inj_add, IH. simpl total.
  rewrite Z2Nat.id by lia. reflexivity.
Qed.

(** For a multiset of labels the writer emits an opening brace, every label
    as many times as its count says (an entry whose count is not positive
    is not written at all), a comma and a space between any two of them,
    and a closing brace; the empty multiset is written as [{}].  With
    positive counts the number of labels written is the sum of the counts. *)
Theorem operator_out_labels_text (os : ostream) (m : MultiSet) :
  labels_only m = true ->
  operator_out os m = (os ++ "{" ++ sep_text true (occurrences m) ++ "}")%string /\
  (positive_counts m -> Z.of_nat (List.length (occurrences m)) = total m) /\
  operator_out os [] = (os ++ "{}")%string.
Proof.
  intros Hl. split; [| split; [apply occurrences_length |]].
  - rewrite operator_out_appends_to. f_equal.
    unfold operator_out, GetElements.
    rewrite (out_entries_labels_only m _ Hl), emit_sep_text. reflexivity.
  - now rewrite operator_out_appends_to.
Qed.

Lemma operator_out_labels_text_witness :
  let m := [(Label "a", 2); (Label "gone", 0); (Label "b, c", 1)] in
  operator_out "out: "%string m = "out: {a, a, b, c}"%string.
Proof.
  intros m.
  exact (proj1 (operator_out_labels_text "out: "%string m eq_refl)).
Defined.

(** * The reader on a text that ends too early *)

Lemma all_plain_skip_space t : all_plain t = true -> all_plain (skip_space t) = true.
Proof.
  induction t as [| c t IH]; simpl; auto.
  destruct (isspace c); simpl; auto.
  intros H. apply andb_true_iff in H as [_ H]. auto.
Qed.

Lemma peek_good s c rest :
  good s = true -> buf s = String c rest -> peek s = (s, Some c).
Proof. intros Hg Hb. unfold peek, sentry. now rewrite Hg, Hb. Qed.

Lemma label_cond_plain s c rest :
  good s = true -> buf s = String c rest -> plain_char c = true ->
  label_cond s = (s, true).
Proof.
  intros Hg Hb Hc. unfold plain_char in Hc.
  rewrite andb_true_iff, !negb_true_iff in Hc. destruct Hc as [H1 H2].
  unfold label_cond, peek_is.
  rewrite (peek_good s c rest Hg Hb). cbv beta iota. rewrite H1. cbv beta iota.
  rewrite ?(peek_good s c rest Hg Hb). cbv beta iota. rewrite ?H2. cbv beta iota.
  rewrite ?(peek_good s c rest Hg Hb). reflexivity.
Qed.

Lemma get_plain s c rest uninit :
  good s = true -> buf s = String c rest ->
  get s uninit = (with_buf s rest, c).
Proof. intros Hg Hb. unfold get, sentry. now rewrite Hg, Hb. Qed.

Lemma good_with_buf s t : good (with_buf s t) = good s.
Proof. reflexivity. Qed.

Lemma label_cond_end s :
  good s = true -> buf s = EmptyString ->
  exists s', label_cond s = (s', false) /\ good s' = false.
Proof.
  intros Hg Hb. unfold label_cond, peek at 1, sentry. rewrite Hg, Hb. simpl.
  eexists. split; [reflexivity | apply good_setstate_failbit].
Qed.

(** On a text without [','] and ['}'] the label loop runs into the end of
    the input: it returns, given fuel beyond the length of the text, and the
    stream it returns is no longer good. *)
Lemma label_loop_to_end uninit fuel : forall s str,
  all_plain (buf s) = true ->
  (forall r, label_loop fuel uninit s str = Some r -> good (fst r) = false) /\
  ((len s < fuel)%nat -> exists r, label_loop fuel uninit s str = Some r).
Proof.
  induction fuel as [| fuel IH]; intros s str Hp.
  - split; [discriminate | unfold len; lia].
  - cbn [label_loop].
    destruct (good s) eqn:Hg.
    + destruct (buf s) as [| c rest] eqn:Hb.
      * destruct (label_cond_end s Hg Hb) as (s' & -> & Hbad).
        split; [intros r [= <-]; exact Hbad | eauto].
      * simpl in Hp. apply andb_true_iff in Hp as [Hc Hrest].
        rewrite (label_cond_plain s c rest Hg Hb Hc).
        rewrite (get_plain s c rest uninit Hg Hb).
        destruct (IH (with_buf s rest) (str ++ String c EmptyString)%string Hrest)
          as [H1 H2].
        split; [exact H1 |].
        intros Hlen. apply H2. unfold len in *. rewrite Hb in Hlen. simpl in *. lia.
    + destruct (label_cond_not_good s Hg) as (s' & -> & Hbad).
      split; [intros r [= <-]; exact Hbad | eauto].
Qed.

Lemma peek_not_brace tail :
  (forall rest, tail <> String "{" rest) ->
  exists s1 p, peek (istringstream tail) = (s1, p) /\ peek_is p "{" = false /\
               buf s1 = tail.
Proof.
  intros H. destruct tail as [| c rest].
  - eexists. exists None. repeat split.
  - exists (istringstream (String c rest)), (Some c). repeat split.
    simpl. destruct (Ascii.eqb c "{") eqn:E; auto.
    apply Ascii.eqb_eq in E. subst. now destruct (H rest).
Qed.

Lemma all_plain_ws s : all_plain (buf s) = true -> all_plain (buf (ws s)) = true.
Proof.
  intros H. unfold ws, sentry. destruct (good s); simpl; auto.
  pose proof (all_plain_skip_space _ H) as H'.
  destruct (skip_space (buf s)); simpl; auto.
Qed.

Section Truncated.
Variable uninit : ascii.
Variable heap : ptr.
Variable target : MultiSet.

(** A round of the loop on a text that ends before a separator is found:
    with [','] as the last separator read the loop never returns; on the
    first round it raises [failbit]. *)
Lemma in_loop_to_end fuel tail ch elements :
  all_plain tail = true -> (forall rest, tail <> String "{" rest) ->
  (ch = ","%char ->
   in_loop fuel uninit (istringstream tail) heap ch elements target = None) /\
  (ch = "{"%char -> (S (String.length tail) < fuel)%nat ->
   exists s', in_loop fuel uninit (istringstream tail) heap ch elements target =
                Some (s', heap, target) /\ fail s' = true).
Proof.
  intros Hp Hb.
  destruct fuel as [| fuel]; [split; [reflexivity | intros _ H; lia] |].
  cbn [in_loop].
  destruct (peek_not_brace tail Hb) as (s1 & p & -> & -> & Hbuf).
  assert (Hp1 : all_plain (buf (ws s1)) = true)
    by (apply all_plain_ws; now rewrite Hbuf).
  destruct (label_loop_to_end uninit fuel (ws s1) EmptyString Hp1) as [Hend Htotal].
  split.
  - intros ->.
    destruct (label_loop fuel uninit (ws s1) EmptyString) as [[s2 str] |] eqn:E; auto.
    specialize (Hend _ eq_refl). simpl in Hend.
    rewrite (extract_char_not_good (ws s2) ",")
      by (rewrite (ws_not_good _ Hend); apply good_setstate_failbit).
    change (Ascii.eqb "," "}") with false.
    change (negb (Ascii.eqb "," ",")) with false. cbv iota.
    apply in_loop_stuck.
    rewrite (ws_not_good _ Hend). apply good_setstate_failbit.
  - intros -> Hfuel.
    destruct Htotal as [[s2 str] E].
    { pose proof (ws_len s1). unfold len in *. rewrite Hbuf in *. lia. }
    rewrite E. specialize (Hend _ E). simpl in Hend.
    rewrite (extract_char_not_good (ws s2) "{")
      by (rewrite (ws_not_good _ Hend); apply good_setstate_failbit).
    change (Ascii.eqb "{" "}") with false.
    change (negb (Ascii.eqb "{" ",")) with true. cbv iota.
    eexists. split; reflexivity.
Qed.

(** The rounds of the loop on labels that are each followed by a comma. *)
Lemma in_loop_labels_comma l : forall s pre elements fuel ch tl,
  pre = EmptyString \/ pre = " "%string ->
  plain_label s = true -> Forall (fun t => plain_label t = true) l ->
  (String.length (pre ++ s ++ sep_text false l) < fuel)%nat ->
  in_loop (S (List.length l) + fuel) uninit
          (istringstream (pre ++ s ++ sep_text false l ++ String "," tl)) heap ch
          elements target =
  in_loop fuel uninit (istringstream tl) heap ","
          (count_labels (s :: l) elements) target.
Proof.
  induction l as [| s' l IH]; intros s pre elements fuel ch tl Hpre Hs Hl Hfuel.
  - simpl sep_text. simpl (EmptyString ++ _)%string.
    rewrite append_length in Hfuel. simpl in Hfuel.
    rewrite append_length in Hfuel. simpl in Hfuel.
    change (S (List.length (@nil string)) + fuel)%nat with (S fuel).
    assert (Hlt : (String.length s < fuel)%nat) by lia.
    rewrite (in_loop_label_round uninit heap target fuel pre s "," tl ch elements
               Hpre Hs (or_introl eq_refl) Hlt).
    reflexivity.
  - apply Forall_cons_iff in Hl as [Hs' Hl].
    assert (Htext : (sep_text false (s' :: l) ++ String "," tl)%string =
                    String "," (" " ++ s' ++ sep_text false l ++ String "," tl)%string).
    { simpl. now rewrite !append_assoc. }
    rewrite Htext.
    assert (Hlen : (String.length s + (1 + String.length (" " ++ s' ++ sep_text false l))
                    <= String.length (pre ++ s ++ sep_text false (s' :: l)))%nat).
    { rewrite ?append_length. simpl. rewrite ?append_length. simpl.
      rewrite ?append_length. simpl. lia. }
    change (S (List.length (s' :: l)) + fuel)%nat
      with (S (S (List.length l) + fuel)).
    assert (Hlt : (String.length s < S (List.length l) + fuel)%nat) by lia.
    rewrite (in_loop_label_round uninit heap target _ pre s ","
               (" " ++ s' ++ sep_text false l ++ String "," tl)%string ch elements
               Hpre Hs (or_introl eq_refl) Hlt).
    change (Ascii.eqb "," "}") with false. cbv iota.
    rewrite (IH s' " "%string); auto. lia.
Qed.
End Truncated.

(** A text that breaks off inside the braces.  When it ends in the first
    element, [{l1], the reader raises [failbit] and leaves the target alone.
    When it ends behind a comma, [{l1, ..., ln,] or [{l1, ..., ln, l] with
    no closing brace, the reader never returns: every further extraction
    fails and leaves the comma in [ch], which the loop takes for a
    separator. *)
Theorem operator_in_truncated (uninit : ascii) (heap : ptr) (target : MultiSet)
        (tail : string) :
  all_plain tail = true -> (forall rest, tail <> String "{" rest) ->
  (forall fuel, (2 + String.length tail < fuel)%nat ->
     exists s', operator_in fuel uninit (istringstream (String "{" tail)) heap target =
                  Some (s', heap, target) /\ fail s' = true) /\
  (forall fuel s l,
     Forall (fun t => plain_label t = true) (s :: l) ->
     operator_in fuel uninit
                 (istringstream (String "{" (sep_text true (s :: l) ++ String "," tail)))
                 heap target = None).
Proof.
  intros Hp Hb. split.
  - intros fuel Hfuel. destruct fuel as [| fuel]; [lia |].
    cbn [operator_in].
    change (extract_char (istringstream (String "{" tail)) uninit)
      with (istringstream tail, "{"%char).
    cbv beta iota. change (negb (Ascii.eqb "{" "{")) with false. cbv iota.
    apply (proj2 (in_loop_to_end uninit heap target fuel tail "{" [] Hp Hb)); auto.
    lia.
  - intros fuel s l Hplain. apply Forall_cons_iff in Hplain as [Hs Hl].
    pose (big := (S (S (List.length l)) +
                  (fuel + S (String.length (EmptyString ++ s ++ sep_text false l))))%nat).
    apply operator_in_None with (fuel' := big); [unfold big; lia |].
    unfold big. cbn [Nat.add operator_in].
    match goal with
    | |- context [extract_char (istringstream (String "{" ?X)) uninit] =>
        change (extract_char (istringstream (String "{" X)) uninit)
          with (istringstream X, "{"%char)
    end.
    cbv beta iota. change (negb (Ascii.eqb "{" "{")) with false. cbv iota.
    assert (Htext : (sep_text true (s :: l) ++ String "," tail)%string =
                    (EmptyString ++ s ++ sep_text false l ++ String "," tail)%string).
    { simpl. now rewrite append_assoc. }
    rewrite Htext.
    pose proof (in_loop_labels_comma uninit heap target l s EmptyString []
                  (fuel + S (String.length (EmptyString ++ s ++ sep_text false l)))
                  "{" tail (or_introl eq_refl) Hs Hl) as Hrounds.
    cbn [Nat.add] in Hrounds. rewrite Hrounds by lia.
    now apply (proj1 (in_loop_to_end uninit heap target _ tail "," _ Hp Hb)).
Qed.

Lemma operator_in_truncated_witness :
  (exists s', operator_in 5 " " (istringstream "{ab") 1 [(Label "old", 5)] =
                Some (s', 1%positive, [(Label "old", 5)]) /\ fail s' = true) /\
  (forall fuel, operator_in fuel " " (istringstream "{a,") 1 [(Label "old", 5)] = None) /\
  (forall fuel, operator_in fuel " " (istringstream "{a, b, c") 1 [(Label "old", 5)] = None).
Proof.
  assert (H1 : forall rest, "ab"%string <> String "{" rest)
    by (intros rest; discriminate).
  assert (H2 : forall rest, EmptyString <> String "{" rest)
    by (intros rest; discriminate).
  assert (H3 : forall rest, " c"%string <> String "{" rest)
    by (intros rest; discriminate).
  split; [| split].
  - apply (proj1 (operator_in_truncated " " 1 [(Label "old", 5)] "ab" eq_refl H1) 5%nat).
    simpl. lia.
  - intros fuel.
    apply (proj2 (operator_in_truncated " " 1 [(Label "old", 5)] EmptyString eq_refl H2)
             fuel "a"%string []).
    repeat constructor.
  - intros fuel.
    apply (proj2 (operator_in_truncated " " 1 [(Label "old", 5)] " c" eq_refl H3)
             fuel "a"%string ["b"]%string).
    repeat constructor.
Defined.

(** * The keys of a map stay pairwise inequivalent *)

Lemma erase_incl {K : Type} (key_eq : K -> K -> bool) k (m : list (K * Z)) :
  incl (erase key_eq k m) m.
Proof.
  induction m as [| [k' v] m IH]; simpl; [apply incl_refl |].
  destruct (key_eq k k').
  - apply incl_tl, incl_refl.
  - intros x [<- | Hx]; [now left | right; now apply IH].
Qed.

Lemma unique_erase {K : Type} (key_eq : K -> K -> bool) k (m : list (K * Z)) :
  unique key_eq m = true -> unique key_eq (erase key_eq k m) = true.
Proof.
  induction m as [| [k' v] m IH]; simpl; auto.
  intros H. apply andb_true_iff in H as [H1 H2].
  destruct (key_eq k k'); auto.
  simpl. rewrite (IH H2), andb_true_r.
  apply negb_true_iff in H1. apply negb_true_iff.
  apply not_true_is_false. intros H.
  apply existsb_exists in H as (x & Hx & Hk).
  assert (He : existsb (fun x => key_eq k' (fst x)) m = true)
    by (apply existsb_exists; exists x; split; auto; now apply (erase_incl key_eq k m)).
  congruence.
Qed.

Section UniqueKeys.
Variable L : list Element.
Hypothesis HL : key_equivalence L.

Lemma unique_assign_key k v R :
  In k L -> incl (keys R) L -> unique_keys R = true ->
  unique_keys (assign VariantEqual k v R) = true.
Proof.
  intros Hk HR Hu. unfold unique_keys.
  apply unique_assign with (D := fun a => In a L); auto.
  - apply (ke_sym HL).
  - now apply (incl_keys_in (L := L)).
Qed.

Lemma unique_AddElement e m :
  In e L -> incl (keys m) L -> unique_keys m = true ->
  unique_keys (AddElement e m) = true.
Proof.
  intros He Hm Hu. unfold AddElement.
  destruct (find VariantEqual e m).
  - unfold unique_keys. rewrite (unique_same_keys VariantEqual _ m); auto.
    apply modify_keys.
  - now apply unique_assign_key.
Qed.

Lemma unique_RemoveElement e m :
  unique_keys m = true -> unique_keys (fst (RemoveElement e m)) = true.
Proof.
  intros Hu. unfold RemoveElement.
  destruct (find VariantEqual e m) as [[k c] |]; auto.
  assert (Hmod : unique_keys (modify VariantEqual e (fun c => int_wrap (c - 1)) m) = true).
  { unfold unique_keys. rewrite (unique_same_keys VariantEqual _ m); auto.
    apply modify_keys. }
  destruct (int_wrap (c - 1) =? 0); simpl; auto.
  now apply unique_erase.
Qed.

Lemma unique_operator_minus A B :
  incl (keys A) L -> incl (keys B) L -> unique_keys (operator_minus A B) = true.
Proof.
  intros HA HB. unfold operator_minus.
  assert (H1 : forall l, incl (keys l) L ->
                 unique_keys (fold_left (minus_step1 B) l []) = true).
  { induction l as [| x l IH] using rev_ind; intros Hl; auto.
    apply incl_keys_snoc in Hl as [Hl Hx].
    rewrite fold_left_snoc. unfold minus_step1 at 1.
    assert (HR : incl (keys (fold_left (minus_step1 B) l [])) L)
      by (apply minus_loop1_keys; auto; intros ? []).
    destruct (find VariantEqual (fst x) B) as [[k c] |];
      [destruct (snd x >? c) |]; auto using unique_assign_key. }
  assert (H2 : forall l R, incl (keys l) L -> incl (keys R) L ->
                 unique_keys R = true ->
                 unique_keys (fold_left (minus_step2 A) l R) = true).
  { induction l as [| x l IH] using rev_ind; intros R Hl HR Hu; auto.
    apply incl_keys_snoc in Hl as [Hl Hx].
    rewrite fold_left_snoc. unfold minus_step2 at 1.
    assert (HR' : incl (keys (fold_left (minus_step2 A) l R)) L)
      by (apply minus_loop2_keys; auto).
    destruct (find VariantEqual (fst x) A) as [[k c] |];
      auto using unique_assign_key. }
  apply H2; auto. apply minus_loop1_keys; auto. intros ? [].
Qed.

Lemma unique_BuildBoolean m :
  incl (keys m) L -> unique_keys (BuildBoolean m) = true.
Proof.
  unfold BuildBoolean. intros Hm.
  assert (H : forall l, incl (keys l) L ->
     unique_keys (fold_left (fun booleanSet element =>
                    assign VariantEqual (fst element) 1 booleanSet) l []) = true /\
     incl (keys (fold_left (fun booleanSet element =>
                    assign VariantEqual (fst element) 1 booleanSet) l [])) L).
  { induction l as [| x l IH] using rev_ind; intros Hl.
    - split; [reflexivity | intros ? []].
    - apply incl_keys_snoc in Hl as [Hl Hx]. destruct (IH Hl) as [Hu HR].
      rewrite fold_left_snoc. split.
      + now apply unique_assign_key.
      + now apply assign_keys_incl. }
  apply (H m Hm).
Qed.
End UniqueKeys.

(** The invariant of the container, that no two keys of a map are
    equivalent under [VariantEqual], is kept by [AddElement],
    [RemoveElement], the operators [+], [*], [-] and [BuildBoolean]. *)
Theorem unique_keys_preserved (A B : MultiSet) (e : Element) :
  key_equivalence (e :: keys A ++ keys B) ->
  unique_keys A = true -> unique_keys B = true ->
  unique_keys (AddElement e A) = true /\
  unique_keys (fst (RemoveElement e A)) = true /\
  unique_keys (operator_plus A B) = true /\
  unique_keys (operator_times A B) = true /\
  unique_keys (operator_minus A B) = true /\
  unique_keys (BuildBoolean A) = true.
Proof.
  intros HL HuA HuB.
  assert (He : In e (e :: keys A ++ keys B)) by now left.
  assert (HA : incl (keys A) (e :: keys A ++ keys B))
    by (apply incl_tl, incl_appl, incl_refl).
  assert (HB : incl (keys B) (e :: keys A ++ keys B))
    by (apply incl_tl, incl_appr, incl_refl).
  repeat split.
  - now apply (unique_AddElement _ HL).
  - now apply unique_RemoveElement.
  - now apply (unique_operator_plus HL).
  - now apply (unique_operator_times _ HL).
  - now apply (unique_operator_minus _ HL).
  - now apply (unique_BuildBoolean _ HL).
Qed.

Lemma unique_keys_preserved_witness :
  let A := [(Label "a", 3); (Nested 1 [(Label "x", 1)], 1)] in
  let B := [(Nested 2 [(Label "x", 1)], 5); (Label "b", 1)] in
  unique_keys (AddElement (Nested 3 [(Label "x", 1)]) A) = true /\
  unique_keys (fst (RemoveElement (Nested 3 [(Label "x", 1)]) A)) = true /\
  unique_keys (operator_minus A B) = true.
Proof.
  intros A B.
  destruct (unique_keys_preserved A B (Nested 3 [(Label "x", 1)])
              (key_equivalenceb_sound
                 (Nested 3 [(Label "x", 1)] :: keys A ++ keys B) eq_refl)
              eq_refl eq_refl) as (H1 & H2 & _ & _ & H3 & _).
  split; [exact H1 | split; [exact H2 | exact H3]].
Defined.

(** * Elements are found by content *)



(** * The sizes of unions and intersections *)

Section Totals.
Variable L : list Element.
Hypothesis HL : key_equivalence L.

Lemma total_nonneg R : positive_counts R -> 0 <= total R.
Proof. intros H. pose proof (total_positive R H). lia. Qed.

Lemma positive_erase e R :
  positive_counts R -> positive_counts (erase VariantEqual e R).
Proof. apply erase_values. Qed.

(** A map that gives no element a larger count than another map does has
    no larger sum of counts. *)
Lemma total_le_pointwise R : forall R',
  unique_keys R = true -> unique_keys R' = true ->
  incl (keys R) L -> incl (keys R') L ->
  positive_counts R -> positive_counts R' ->
  (forall e, In e L -> count0 e R <= count0 e R') ->
  total R <= total R'.
Proof.
  induction R as [| [k c] R IH]; intros R' Hu Hu' HR HR' Hp Hp' Hle.
  - simpl. now apply total_nonneg.
  - assert (Hk : In k L) by (apply HR; now left).
    assert (HR1 : incl (keys R) L) by (intros a Ha; apply HR; now right).
    unfold unique_keys in Hu. apply unique_cons in Hu as [Hnone Hu1].
    inversion Hp as [| ? ? Hc Hp1]; subst. unfold positive_count in Hc. simpl in Hc.
    pose proof (Hle k Hk) as Hlek. unfold count0, count_of in Hlek.
    rewrite lookup_cons, (ke_refl HL k Hk) in Hlek.
    destruct (find VariantEqual k R') as [[k' c'] |] eqn:F.
    2: { rewrite (find_None_lookup _ _ _ F) in Hlek. lia. }
    rewrite (find_Some_lookup _ _ _ F) in Hlek.
    pose proof (total_erase k k' c' R' F) as Herase.
    assert (Hrest : total R <= total (erase VariantEqual k R'));
      [| change (total ((k, c) :: R)) with (c + total R); lia].
    apply IH; auto.
    + now apply unique_erase.
    + intros a Ha. apply HR'. revert a Ha. apply erase_keys.
    + now apply positive_erase.
    + intros e He. unfold count0.
      rewrite (count_of_erase HL e k R' He Hk HR' Hu').
      destruct (VariantEqual e k) eqn:Eek.
      * rewrite (count_of_congr HL e k R He Hk HR1 Eek).
        unfold count_of. rewrite Hnone. lia.
      * specialize (Hle e He). unfold count0, count_of in Hle.
        rewrite lookup_cons, Eek in Hle. exact Hle.
Qed.

Lemma count0_operator_times A B e :
  unique_keys A = true -> positive_counts A -> positive_counts B ->
  In e L -> incl (keys A) L -> incl (keys B) L ->
  count0 e (operator_times A B) = Z.min (count0 e A) (count0 e B).
Proof.
  intros Hu HpA HpB He HA HB. unfold count0.
  rewrite (count_of_operator_times L HL A B e Hu He HA HB).
  destruct (count_of e A) as [a |] eqn:Ea, (count_of e B) as [b |] eqn:Eb; auto.
  - pose proof (count_of_positive e HpA Ea). lia.
  - pose proof (count_of_positive e HpB Eb). lia.
Qed.

Lemma count0_operator_plus A B e :
  unique_keys B = true -> positive_counts A -> positive_counts B ->
  In e L -> incl (keys A) L -> incl (keys B) L ->
  count0 e (operator_plus A B) = Z.max (count0 e A) (count0 e B).
Proof.
  intros Hu HpA HpB He HA HB. unfold count0.
  rewrite (count_of_operator_plus HL A B e Hu He HA HB).
  destruct (count_of e A) as [a |] eqn:Ea, (count_of e B) as [b |] eqn:Eb; auto.
  - pose proof (count_of_positive e HpA Ea). lia.
  - pose proof (count_of_positive e HpB Eb). lia.
Qed.
Lemma operator_minus_keys A B :
  incl (keys A) L -> incl (keys B) L -> incl (keys (operator_minus A B)) L.
Proof.
  intros HA HB. unfold operator_minus.
  apply minus_loop2_keys; auto. apply minus_loop1_keys; auto. intros ? [].
Qed.

Lemma count0_operator_minus A B e :
  unique_keys A = true -> unique_keys B = true ->
  positive_counts A -> positive_counts B ->
  In e L -> incl (keys A) L -> incl (keys B) L ->
  count0 e (operator_minus A B) <= Z.max (count0 e A) (count0 e B).
Proof.
  intros HuA HuB HpA HpB He HA HB. unfold count0.
  rewrite (count_of_operator_minus HL A B e HuA HuB He HA HB).
  destruct (count_of e A) as [a |] eqn:Ea, (count_of e B) as [b |] eqn:Eb; try lia.
  pose proof (count_of_positive e HpA Ea) as Pa.
  pose proof (count_of_positive e HpB Eb) as Pb. unfold INT_MAX in *.
  destruct (a >? b) eqn:E; [| lia].
  rewrite int_wrap_id by (unfold in_int, INT_MIN, INT_MAX; lia). lia.
Qed.
End Totals.

(** An intersection is never larger than either operand and a union never
    smaller, a difference is never larger than the union, and the sizes of
    union and intersection do not depend on the order of the operands: as
    long as the counts of the union fit a [size_t],
    [Size(A * B) <= Size(A) <= Size(A + B)], the same with [B] in the
    middle, [Size(A - B) <= Size(A + B)], [Size(A + B) == Size(B + A)] and
    [Size(A * B) == Size(B * A)]. *)
Theorem Size_of_union_and_intersection (A B : MultiSet) :
  key_equivalence (keys A ++ keys B) ->
  unique_keys A = true -> unique_keys B = true ->
  positive_counts A -> positive_counts B ->
  total (operator_plus A B) < 18446744073709551616 ->
  Size (operator_times A B) <= Size A /\ Size A <= Size (operator_plus A B) /\
  Size (operator_times A B) <= Size B /\ Size B <= Size (operator_plus A B) /\
  Size (operator_minus A B) <= Size (operator_plus A B) /\
  Size (operator_plus A B) = Size (operator_plus B A) /\
  Size (operator_times A B) = Size (operator_times B A).
Proof.
  intros HL HuA HuB HpA HpB Hmax.
  assert (HA : incl (keys A) (keys A ++ keys B)) by (apply incl_appl, incl_refl).
  assert (HB : incl (keys B) (keys A ++ keys B)) by (apply incl_appr, incl_refl).
  pose proof (operator_plus_keys A B HA HB) as KAB.
  pose proof (operator_plus_keys B A HB HA) as KBA.
  pose proof (operator_times_keys _ A B HA) as KTAB.
  pose proof (operator_times_keys _ B A HB) as KTBA.
  pose proof (unique_operator_plus HL A B HA HB HuA) as UAB.
  pose proof (unique_operator_plus HL B A HB HA HuB) as UBA.
  pose proof (unique_operator_times _ HL A B HA) as UTAB.
  pose proof (unique_operator_times _ HL B A HB) as UTBA.
  pose proof (positive_operator_plus HpA HpB) as PAB.
  pose proof (positive_operator_plus HpB HpA) as PBA.
  pose proof (positive_operator_times HpA HpB) as PTAB.
  pose proof (positive_operator_times HpB HpA) as PTBA.
  assert (Hplus : forall e, In e (keys A ++ keys B) ->
            count0 e (operator_plus A B) = Z.max (count0 e A) (count0 e B))
    by (intros e He; now apply (count0_operator_plus _ HL)).
  assert (Hplus' : forall e, In e (keys A ++ keys B) ->
            count0 e (operator_plus B A) = Z.max (count0 e B) (count0 e A))
    by (intros e He; now apply (count0_operator_plus _ HL)).
  assert (Htimes : forall e, In e (keys A ++ keys B) ->
            count0 e (operator_times A B) = Z.min (count0 e A) (count0 e B))
    by (intros e He; now apply (count0_operator_times _ HL)).
  assert (Htimes' : forall e, In e (keys A ++ keys B) ->
            count0 e (operator_times B A) = Z.min (count0 e B) (count0 e A))
    by (intros e He; now apply (count0_operator_times _ HL)).
  assert (T1 : total (operator_times A B) <= total A).
  { apply (total_le_pointwise _ HL); auto. intros e He. rewrite Htimes by auto. lia. }
  assert (T2 : total A <= total (operator_plus A B)).
  { apply (total_le_pointwise _ HL); auto. intros e He. rewrite Hplus by auto. lia. }
  assert (T3 : total (operator_times A B) <= total B).
  { apply (total_le_pointwise _ HL); auto. intros e He. rewrite Htimes by auto. lia. }
  assert (T4 : total B <= total (operator_plus A B)).
  { apply (total_le_pointwise _ HL); auto. intros e He. rewrite Hplus by auto. lia. }
  assert (T7 : total (operator_minus A B) <= total (operator_plus A B)).
  { apply (total_le_pointwise _ HL); auto.
    - now apply (unique_operator_minus _ HL).
    - now apply operator_minus_keys.
    - now apply positive_operator_minus.
    - intros e He. rewrite Hplus by auto. now apply (count0_operator_minus _ HL). }
  assert (T5 : total (operator_plus A B) = total (operator_plus B A)).
  { apply Z.le_antisymm; apply (total_le_pointwise _ HL); auto; intros e He;
      rewrite Hplus, Hplus' by auto; lia. }
  assert (T6 : total (operator_times A B) = total (operator_times B A)).
  { apply Z.le_antisymm; apply (total_le_pointwise _ HL); auto; intros e He;
      rewrite Htimes, Htimes' by auto; lia. }
  assert (Hsize : forall R, positive_counts R -> total R <= total (operator_plus A B) ->
                            Size R = total R).
  { intros R HpR Hle. rewrite Size_total. unfold size_t_wrap. apply Z.mod_small.
    pose proof (total_positive R HpR). lia. }
  pose proof (positive_operator_minus HpA HpB) as PM.
  rewrite (Hsize (operator_times A B)), (Hsize A), (Hsize B),
    (Hsize (operator_plus A B)), (Hsize (operator_plus B A)),
    (Hsize (operator_times B A)), (Hsize (operator_minus A B)); auto; lia.
Qed.

Lemma Size_of_union_and_intersection_witness :
  let A := [(Label "a", 3); (Nested 1 [(Label "x", 1)], 2)] in
  let B := [(Nested 2 [(Label "x", 1)], 5); (Label "a", 1); (Label "b", 4)] in
  Size (operator_times A B) <= Size A /\ Size A <= Size (operator_plus A B) /\
  Size (operator_plus A B) = Size (operator_plus B A).
Proof.
  intros A B.
  assert (HA : positive_counts A)
    by (repeat constructor; unfold positive_count, INT_MAX; simpl; lia).
  assert (HB : positive_counts B)
    by (repeat constructor; unfold positive_count, INT_MAX; simpl; lia).
  destruct (Size_of_union_and_intersection A B
              (key_equivalenceb_sound (keys A ++ keys B) eq_refl)
              eq_refl eq_refl HA HB eq_refl) as (H1 & H2 & _ & _ & _ & H3 & _).
  split; [exact H1 | split; [exact H2 | exact H3]].
Defined.
